(** * Selfadjoint matrix * vector product kernel (Eigen, SelfadjointMatrixVector.h)

    A shallow embedding of [ei_product_selfadjoint_vector] and of its wrapper
    [SelfadjointProductMatrix::scaleAndAddTo], with the properties of the
    kernel stated against it.

    The kernel is defined over the operations of its scalar type alone, so
    that it runs on the integers, on the Gaussian integers and on binary64
    floating-point numbers.  The properties that rest on the laws of
    arithmetic are stated for scalar types whose arithmetic is exact (a
    commutative ring with a conjugation); they are not stated of the rounded
    arithmetic of [float] and [double], where two of them are shown to fail.
    Buffers are lists addressed by an element index, every access is checked,
    and an access outside a buffer makes the kernel return [None]. *)

From Stdlib Require Import ZArith List Bool Lia Ring Arith PrimFloat.
Import ListNotations.

Local Open Scope Z_scope.

(** ** Scalars: [NumTraits<Scalar>] and [ei_conj] *)

(** The kernel uses of its scalar type: [0], [+], [*], the trait
    [NumTraits<Scalar>::IsComplex] and [ei_conj]. *)
Class ScalarOps (Scalar : Type) : Type := {
  IsComplex : bool;
  szero : Scalar;
  sone : Scalar;
  sadd : Scalar -> Scalar -> Scalar;
  smul : Scalar -> Scalar -> Scalar;
  ssub : Scalar -> Scalar -> Scalar;
  sopp : Scalar -> Scalar;
  ei_conj : Scalar -> Scalar
}.

(** A scalar type whose arithmetic is exact: the operations are those of a
    commutative ring, [ei_conj] is an involution that respects them, and on a
    real scalar type [ei_conj] is the identity function.  Rounded
    floating-point arithmetic is not of this kind. *)
Class NumTraits (Scalar : Type) : Type := {
  scalar_ops :: ScalarOps Scalar;
  scalar_ring : ring_theory szero sone sadd smul ssub sopp eq;
  ei_conj_add : forall x y, ei_conj (sadd x y) = sadd (ei_conj x) (ei_conj y);
  ei_conj_mul : forall x y, ei_conj (smul x y) = smul (ei_conj x) (ei_conj y);
  ei_conj_involutive : forall x, ei_conj (ei_conj x) = x;
  ei_conj_real : IsComplex = false -> ei_conj = (fun x => x)
}.

Declare Scope scalar_scope.
Delimit Scope scalar_scope with S.
Infix "+" := sadd : scalar_scope.
Infix "*" := smul : scalar_scope.

(** Real scalars with exact arithmetic: the integers. *)
#[export] Instance RealScalar : NumTraits Z := {
  scalar_ops := {|
    IsComplex := false;
    szero := 0; sone := 1;
    sadd := Z.add; smul := Z.mul; ssub := Z.sub; sopp := Z.opp;
    ei_conj := fun x => x |};
  scalar_ring := Zth;
  ei_conj_add := fun _ _ => eq_refl;
  ei_conj_mul := fun _ _ => eq_refl;
  ei_conj_involutive := fun _ => eq_refl;
  ei_conj_real := fun _ => eq_refl
}.

(** Complex scalars (std::complex) with exact arithmetic: the Gaussian
    integers [(re, im)]. *)
Module Cplx.

Definition t : Type := Z * Z.
Definition zero : t := (0, 0).
Definition one : t := (1, 0).
Definition add (x y : t) : t := (fst x + fst y, snd x + snd y).
Definition mul (x y : t) : t :=
  (fst x * fst y - snd x * snd y, fst x * snd y + snd x * fst y).
Definition opp (x : t) : t := (- fst x, - snd x).
Definition sub (x y : t) : t := (fst x - fst y, snd x - snd y).
Definition conj (x : t) : t := (fst x, - snd x).

Lemma ring : ring_theory zero one add mul sub opp eq.
Proof.
  constructor; intros; repeat match goal with x : t |- _ => destruct x end;
    unfold zero, one, add, mul, sub, opp; cbn [fst snd]; f_equal; ring.
Qed.

Lemma conj_add x y : conj (add x y) = add (conj x) (conj y).
Proof. destruct x, y; unfold conj, add; cbn [fst snd]; f_equal; ring. Qed.

Lemma conj_mul x y : conj (mul x y) = mul (conj x) (conj y).
Proof. destruct x, y; unfold conj, mul; cbn [fst snd]; f_equal; ring. Qed.

Lemma conj_involutive x : conj (conj x) = x.
Proof. destruct x; unfold conj; cbn [fst snd]; f_equal; ring. Qed.

End Cplx.

#[export] Instance ComplexScalar : NumTraits Cplx.t := {
  scalar_ops := {|
    IsComplex := true;
    szero := Cplx.zero; sone := Cplx.one;
    sadd := Cplx.add; smul := Cplx.mul; ssub := Cplx.sub; sopp := Cplx.opp;
    ei_conj := Cplx.conj |};
  scalar_ring := Cplx.ring;
  ei_conj_add := Cplx.conj_add;
  ei_conj_mul := Cplx.conj_mul;
  ei_conj_involutive := Cplx.conj_involutive;
  ei_conj_real := fun H => match Bool.diff_true_false H with end
}.

(** [double]: binary64 floating-point numbers with the rounded operations of
    IEEE 754.  The ring laws do not hold of them. *)
Definition DoubleScalar : ScalarOps float := {|
  IsComplex := false;
  szero := 0%float; sone := 1%float;
  sadd := PrimFloat.add; smul := PrimFloat.mul;
  ssub := PrimFloat.sub; sopp := PrimFloat.opp;
  ei_conj := fun x => x |}.

(** ** Fallible computations *)

Definition obind {A B : Type} (o : option A) (k : A -> option B) : option B :=
  match o with
  | Some a => k a
  | None => None
  end.

Notation "x <- c1 ;; c2" := (obind c1 (fun x => c2))
  (at level 61, c1 at next level, right associativity).
Notation "' pat <- c1 ;; c2" :=
  (obind c1 (fun x => match x with pat => c2 end))
  (at level 61, pat pattern, c1 at next level, right associativity).

(** ** Counted loops

    [for (i = lo; i < hi; i += step) body], with [step >= 1], runs
    [trip_count lo hi step] iterations, at [lo], [lo + step], ... *)

Definition trip_count (lo hi step : Z) : nat :=
  Z.to_nat ((hi - lo + step - 1) / step).

Fixpoint iterate {St : Type} (n : nat) (i step : Z)
    (body : Z -> St -> option St) (st : St) : option St :=
  match n with
  | O => Some st
  | S n' =>
      match body i st with
      | Some st' => iterate n' (i + step) step body st'
      | None => None
      end
  end.

Definition for_loop {St : Type} (lo hi step : Z)
    (body : Z -> St -> option St) (st : St) : option St :=
  iterate (trip_count lo hi step) lo step body st.

(** ** Target parameters

    [ei_packet_traits<Scalar>] and [ei_alignmentOffset] are declared
    outside this source file; they are taken as parameters of the target.
    [PacketSize] is [sizeof(Packet)/sizeof(Scalar)], and
    [ei_alignmentOffset ptr maxOffset] is the number of leading elements
    from the element address [ptr] to the next aligned one, never more than
    [maxOffset]. *)
Record Platform : Type := {
  PacketSize : positive;
  ei_alignmentOffset : Z -> Z -> Z;
  ei_alignmentOffset_range :
    forall ptr maxOffset, 0 <= maxOffset ->
      0 <= ei_alignmentOffset ptr maxOffset <= maxOffset
}.

(** Modelled from the spec: the alignment offset of a target whose packets
    hold [n] scalars and start at an element address that is a multiple of
    [n]: the number of leading elements from [ptr] to the next such address,
    at most [maxOffset]. *)
Definition simd_alignmentOffset (n : positive) (ptr maxOffset : Z) : Z :=
  Z.min ((Z.pos n - ptr mod Z.pos n) mod Z.pos n) maxOffset.

Lemma simd_alignmentOffset_range (n : positive) ptr maxOffset :
  0 <= maxOffset -> 0 <= simd_alignmentOffset n ptr maxOffset <= maxOffset.
Proof.
  intros Hm. unfold simd_alignmentOffset.
  pose proof (Z.mod_pos_bound (Z.pos n - ptr mod Z.pos n) (Z.pos n)
                ltac:(lia)).
  lia.
Qed.

Definition simd_platform (n : positive) : Platform := {|
  PacketSize := n;
  ei_alignmentOffset := simd_alignmentOffset n;
  ei_alignmentOffset_range := simd_alignmentOffset_range n
|}.

(** The target without vectorization: packets of one scalar. *)
Definition scalar_platform : Platform := simd_platform 1.

(** ** Template parameters *)

Inductive StorageOrderT : Type := RowMajor | ColMajor.
Inductive UpLoT : Type := UpperTriangular | LowerTriangular.

(** Uses of the scoped scratch allocator, in program order. *)
Inductive alloc_event : Type :=
| StackNew (n : Z)
| StackDelete (n : Z).

Section Kernel.

Context {Scalar : Type} {Ops : ScalarOps Scalar}.
Variable P : Platform.

Local Open Scope scalar_scope.
Local Notation "0" := szero : scalar_scope.

(** *** Buffers *)

Definition rd (buf : list Scalar) (i : Z) : option Scalar :=
  if (i <? 0)%Z then None else nth_error buf (Z.to_nat i).

Fixpoint upd (n : nat) (v : Scalar) (buf : list Scalar) : list Scalar :=
  match buf, n with
  | [], _ => []
  | _ :: tl, O => v :: tl
  | x :: tl, S n' => x :: upd n' v tl
  end.

Definition wr (buf : list Scalar) (i : Z) (v : Scalar) : option (list Scalar) :=
  if ((0 <=? i) && (i <? Z.of_nat (length buf)))%Z
  then Some (upd (Z.to_nat i) v buf)
  else None.

(** [buf[i] += v] *)
Definition add_at (buf : list Scalar) (i : Z) (v : Scalar)
    : option (list Scalar) :=
  x <- rd buf i ;; wr buf i (x + v).

(** *** The conjugation helper *)

(** Modelled from the spec: [ei_conj_helper<ConjLhs,ConjRhs>] is declared
    outside this source file.  It is the strategy object that multiplies two
    scalars after conjugating the left one when [ConjLhs] is set and the right
    one when [ConjRhs] is set. *)
Record ei_conj_helper : Type := { ConjLhs : bool; ConjRhs : bool }.

Definition cj (b : bool) (x : Scalar) : Scalar := if b then ei_conj x else x.

(** Modelled from the spec: [ei_conj_helper::pmul], the product of the two
    scalars, each conjugated when its flag is set. *)
Definition pmul (h : ei_conj_helper) (x y : Scalar) : Scalar :=
  cj (ConjLhs h) x * cj (ConjRhs h) y.

(** Modelled from the spec: [ei_conj_helper::pmadd], the multiply-add
    [pmul x y + c]. *)
Definition pmadd (h : ei_conj_helper) (x y c : Scalar) : Scalar :=
  pmul h x y + c.

(** *** Packets *)

(** Modelled from the spec: the vector register type [Packet] and its
    primitives are declared outside this source file.  A packet is
    [PacketSize] lanes of scalars. *)
Definition Packet : Type := list Scalar.

Definition lanes : nat := Pos.to_nat (PacketSize P).

(** Modelled from the spec: [ei_pset1], the broadcast of a scalar to every
    lane. *)
Definition ei_pset1 (x : Scalar) : Packet := repeat x lanes.

Fixpoint load_lanes (n : nat) (buf : list Scalar) (i : Z) : option Packet :=
  match n with
  | O => Some []
  | S n' =>
      x <- rd buf i ;;
      xs <- load_lanes n' buf (i + 1)%Z ;;
      Some (x :: xs)
  end.

(** Modelled from the spec: [ei_ploadu], the unaligned load of [PacketSize]
    consecutive scalars. *)
Definition ei_ploadu (buf : list Scalar) (i : Z) : option Packet :=
  load_lanes lanes buf i.

(** Modelled from the spec: [ei_pload], the aligned load; the alignment of
    the address is not checked. *)
Definition ei_pload (buf : list Scalar) (i : Z) : option Packet :=
  load_lanes lanes buf i.

(** Modelled from the spec: [ei_pstore], the aligned store of the lanes to
    consecutive cells. *)
Fixpoint ei_pstore (buf : list Scalar) (i : Z) (p : Packet)
    : option (list Scalar) :=
  match p with
  | [] => Some buf
  | x :: p' => buf' <- wr buf i x ;; ei_pstore buf' (i + 1)%Z p'
  end.

Fixpoint lanewise (f : Scalar -> Scalar -> Scalar -> Scalar)
    (x y c : Packet) : Packet :=
  match x, y, c with
  | a :: x', b :: y', d :: c' => f a b d :: lanewise f x' y' c'
  | _, _, _ => []
  end.

(** Modelled from the spec: [ei_conj_helper::pmadd] on packets, the
    multiply-add lane by lane. *)
Definition packet_pmadd (h : ei_conj_helper) (x y c : Packet) : Packet :=
  lanewise (pmadd h) x y c.

(** Modelled from the spec: [ei_predux], the horizontal sum of the lanes. *)
Definition ei_predux (p : Packet) : Scalar := fold_right sadd 0 p.

(** *** The kernel

    [ei_product_selfadjoint_vector<Scalar, StorageOrder, UpLo, ConjugateLhs,
    ConjugateRhs>(size, lhs, lhsStride, _rhs, rhsIncr, res, alpha)].

    The pointer [res] is given by the element address [res_addr] of [res[0]],
    which only [ei_alignmentOffset] looks at, and by the cells it points to.
    The index arithmetic is that of the source, in [Z]: on the inputs the
    properties below are about (buffers that hold the matrix, so
    [size * lhsStride] elements exist) no [int] or [size_t] operation wraps. *)

Section Body.

Variables (StorageOrder : StorageOrderT) (UpLo : UpLoT).
Variables (ConjugateLhs ConjugateRhs : bool).

Definition IsRowMajor : bool :=
  match StorageOrder with RowMajor => true | ColMajor => false end.
Definition IsLower : bool :=
  match UpLo with LowerTriangular => true | UpperTriangular => false end.
Definition FirstTriangular : bool := Bool.eqb IsRowMajor IsLower.

Definition cj0 : ei_conj_helper :=
  {| ConjLhs := IsComplex && xorb ConjugateLhs IsRowMajor;
     ConjRhs := ConjugateRhs |}.
Definition cj1 : ei_conj_helper :=
  {| ConjLhs := IsComplex && xorb ConjugateLhs (negb IsRowMajor);
     ConjRhs := ConjugateRhs |}.

Variables (size : Z) (lhs : list Scalar) (lhsStride : Z).
Variables (rhs : list Scalar) (res_addr : Z) (alpha : Scalar).

Definition cjAlpha : Scalar :=
  if ConjugateRhs then ei_conj alpha else alpha.

(** [int bound = std::max(0,size-8) & 0xfffffffE;
     if (FirstTriangular) bound = size - bound;] *)
Definition bound0 : Z := Z.land (Z.max 0 (size - 8)) 4294967294.
Definition bound : Z := if FirstTriangular then (size - bound0)%Z else bound0.

(** The locals a column pair accumulates into. *)
Record pair_state : Type := {
  st_res : list Scalar;
  st_t2 : Scalar;
  st_t3 : Scalar;
  st_ptmp2 : Packet;
  st_ptmp3 : Packet
}.

(** Lines 105-110: the scalar head of the inner range. *)
Definition head_step (j : Z) (t0 t1 : Scalar) (i : Z) (st : pair_state)
    : option pair_state :=
  let A0 := fun i => rd lhs (j * lhsStride + i)%Z in
  let A1 := fun i => rd lhs ((j + 1) * lhsStride + i)%Z in
  a0 <- A0 i ;; a1 <- A1 i ;;
  res <- add_at (st_res st) i (t0 * a0 + t1 * a1) ;;
  a0' <- A0 i ;; r <- rd rhs i ;;
  let t2 := st_t2 st + ei_conj a0' * r in
  a1' <- A1 i ;; r' <- rd rhs i ;;
  let t3 := st_t3 st + ei_conj a1' * r' in
  Some {| st_res := res; st_t2 := t2; st_t3 := t3;
          st_ptmp2 := st_ptmp2 st; st_ptmp3 := st_ptmp3 st |}.

(** Lines 117-128: the vectorized body; [a0It], [a1It], [rhsIt] and [resIt]
    advance together with [i]. *)
Definition packet_step (j : Z) (ptmp0 ptmp1 : Packet) (i : Z) (st : pair_state)
    : option pair_state :=
  A0i <- ei_ploadu lhs (j * lhsStride + i)%Z ;;
  A1i <- ei_ploadu lhs ((j + 1) * lhsStride + i)%Z ;;
  Bi <- ei_ploadu rhs i ;;
  Xi <- ei_pload (st_res st) i ;;
  let Xi' := packet_pmadd cj0 A0i ptmp0 (packet_pmadd cj0 A1i ptmp1 Xi) in
  let ptmp2 := packet_pmadd cj1 A0i Bi (st_ptmp2 st) in
  let ptmp3 := packet_pmadd cj1 A1i Bi (st_ptmp3 st) in
  res <- ei_pstore (st_res st) i Xi' ;;
  Some {| st_res := res; st_t2 := st_t2 st; st_t3 := st_t3 st;
          st_ptmp2 := ptmp2; st_ptmp3 := ptmp3 |}.

(** Lines 129-134: the scalar tail. *)
Definition tail_step (j : Z) (t0 t1 : Scalar) (i : Z) (st : pair_state)
    : option pair_state :=
  let A0 := fun i => rd lhs (j * lhsStride + i)%Z in
  let A1 := fun i => rd lhs ((j + 1) * lhsStride + i)%Z in
  a0 <- A0 i ;; a1 <- A1 i ;;
  res <- add_at (st_res st) i (pmul cj0 a0 t0 + pmul cj0 a1 t1) ;;
  a0' <- A0 i ;; r <- rd rhs i ;;
  let t2 := st_t2 st + pmul cj1 a0' r in
  a1' <- A1 i ;; r' <- rd rhs i ;;
  let t3 := st_t3 st + pmul cj1 a1' r' in
  Some {| st_res := res; st_t2 := t2; st_t3 := t3;
          st_ptmp2 := st_ptmp2 st; st_ptmp3 := st_ptmp3 st |}.

Definition starti (j : Z) : Z := if FirstTriangular then 0%Z else (j + 2)%Z.
Definition endi (j : Z) : Z := if FirstTriangular then j else size.
Definition alignedStart (j : Z) : Z :=
  (starti j
   + ei_alignmentOffset P (res_addr + starti j) (endi j - starti j))%Z.
Definition alignedEnd (j : Z) : Z :=
  (alignedStart j
   + ((endi j - alignedStart j) / Z.pos (PacketSize P)) * Z.pos (PacketSize P))%Z.

(** Lines 73-137: the body of the two-column loop, for columns [j], [j+1]. *)
Definition column_pair (j : Z) (res : list Scalar) : option (list Scalar) :=
  let A0 := fun i => rd lhs (j * lhsStride + i)%Z in
  let A1 := fun i => rd lhs ((j + 1) * lhsStride + i)%Z in
  rhs_j <- rd rhs j ;;
  let t0 := cjAlpha * rhs_j in
  let ptmp0 := ei_pset1 t0 in
  rhs_j1 <- rd rhs (j + 1)%Z ;;
  let t1 := cjAlpha * rhs_j1 in
  let ptmp1 := ei_pset1 t1 in
  let t2 := 0 in
  let ptmp2 := ei_pset1 t2 in
  let t3 := 0 in
  let ptmp3 := ei_pset1 t3 in
  a <- A0 j ;;
  res <- add_at res j (pmul cj0 a t0) ;;
  st <- (if FirstTriangular then
           a <- A1 (j + 1)%Z ;;
           res <- add_at res (j + 1)%Z (pmul cj0 a t1) ;;
           a <- A1 j ;;
           res <- add_at res j (pmul cj0 a t1) ;;
           a <- A1 j ;; r <- rd rhs j ;;
           Some {| st_res := res; st_t2 := t2; st_t3 := t3 + pmul cj1 a r;
                   st_ptmp2 := ptmp2; st_ptmp3 := ptmp3 |}
         else
           a0 <- A0 (j + 1)%Z ;; a1 <- A1 (j + 1)%Z ;;
           res <- add_at res (j + 1)%Z (pmul cj0 a0 t0 + pmul cj0 a1 t1) ;;
           a <- A0 (j + 1)%Z ;; r <- rd rhs (j + 1)%Z ;;
           Some {| st_res := res; st_t2 := t2 + pmul cj1 a r; st_t3 := t3;
                   st_ptmp2 := ptmp2; st_ptmp3 := ptmp3 |}) ;;
  st <- for_loop (starti j) (alignedStart j) 1 (head_step j t0 t1) st ;;
  st <- for_loop (alignedStart j) (alignedEnd j) (Z.pos (PacketSize P))
          (packet_step j ptmp0 ptmp1) st ;;
  st <- for_loop (alignedEnd j) (endi j) 1 (tail_step j t0 t1) st ;;
  res <- add_at (st_res st) j (alpha * (st_t2 st + ei_predux (st_ptmp2 st))) ;;
  add_at res (j + 1)%Z (alpha * (st_t3 st + ei_predux (st_ptmp3 st))).

(** Lines 146-149: the inner loop of the one-column fallback. *)
Definition single_step (j : Z) (t1 : Scalar) (i : Z)
    (st : list Scalar * Scalar) : option (list Scalar * Scalar) :=
  let A0 := fun i => rd lhs (j * lhsStride + i)%Z in
  a <- A0 i ;;
  res <- add_at (fst st) i (pmul cj0 a t1) ;;
  a' <- A0 i ;; r <- rd rhs i ;;
  Some (res, snd st + pmul cj1 a' r).

(** Lines 141-150: the body of the one-column fallback loop. *)
Definition single_column (j : Z) (res : list Scalar) : option (list Scalar) :=
  let A0 := fun i => rd lhs (j * lhsStride + i)%Z in
  rhs_j <- rd rhs j ;;
  let t1 := cjAlpha * rhs_j in
  let t2 := 0 in
  a <- A0 j ;;
  res <- add_at res j (pmul cj0 a t1) ;;
  st <- for_loop (if FirstTriangular then 0 else j + 1)%Z
          (if FirstTriangular then j else size) 1 (single_step j t1)
          (res, t2) ;;
  add_at (fst st) j (alpha * snd st).

(** Lines 70-138 and 139-151: the two loops over the columns. *)
Definition blocked_columns (res : list Scalar) : option (list Scalar) :=
  for_loop (if FirstTriangular then bound else 0%Z)
           (if FirstTriangular then size else bound) 2 column_pair res.

Definition remaining_columns (res : list Scalar) : option (list Scalar) :=
  for_loop (if FirstTriangular then 0%Z else bound)
           (if FirstTriangular then bound else size) 1 single_column res.

End Body.

(** Lines 59-63: the copy of a strided operand into the scratch buffer [r],
    [size] elements that the loop overwrites one by one. *)
Definition copy_rhs (size : Z) (_rhs : list Scalar) (rhsIncr : Z)
    : option (list Scalar) :=
  for_loop 0 size 1
    (fun i r => x <- rd _rhs (i * rhsIncr)%Z ;; wr r i x)
    (repeat 0 (Z.to_nat size)).

Definition ei_product_selfadjoint_vector
    (StorageOrder : StorageOrderT) (UpLo : UpLoT)
    (ConjugateLhs ConjugateRhs : bool)
    (size : Z) (lhs : list Scalar) (lhsStride : Z)
    (_rhs : list Scalar) (rhsIncr : Z)
    (res_addr : Z) (res : list Scalar) (alpha : Scalar)
    : option (list Scalar * list alloc_event) :=
  ' (rhs, allocated) <-
      (if (rhsIncr =? 1)%Z then Some (_rhs, [])
       else r <- copy_rhs size _rhs rhsIncr ;; Some (r, [StackNew size])) ;;
  res <- blocked_columns StorageOrder UpLo ConjugateLhs ConjugateRhs
           size lhs lhsStride rhs res_addr alpha res ;;
  res <- remaining_columns StorageOrder UpLo ConjugateLhs ConjugateRhs
           size lhs lhsStride rhs alpha res ;;
  Some (res, allocated ++ (if (rhsIncr =? 1)%Z then [] else [StackDelete size])).

End Kernel.

(** ** The wrapper: [SelfadjointProductMatrix::scaleAndAddTo]

    The expression types, [ei_blas_traits] and [ei_assert] are declared
    outside this source file.  An operand is represented by what the wrapper
    asks of it: its dimensions, and through its blas traits the actual
    matrix or vector ([extract]), its scalar factor ([extractScalarFactor])
    and [NeedToConjugate]. *)

Section Wrapper.

Context {Scalar : Type} {Ops : ScalarOps Scalar}.

Local Open Scope scalar_scope.

Record LhsExpr : Type := {
  lhs_rows : Z;                       (* m_lhs.rows() *)
  actual_lhs_rows : Z;                (* lhs.rows() *)
  actual_lhs_order : StorageOrderT;   (* ei_traits<_ActualLhsType>::Flags & RowMajorBit *)
  actual_lhs_coeffs : list Scalar;    (* &lhs.coeff(0,0) *)
  actual_lhs_stride : Z;              (* lhs.stride() *)
  lhs_extractScalarFactor : Scalar;
  lhs_NeedToConjugate : bool
}.

Record RhsExpr : Type := {
  rhs_cols : Z;                       (* m_rhs.cols() *)
  actual_rhs_coeffs : list Scalar;    (* &rhs.coeff(0) *)
  actual_rhs_incr : Z;                (* (&rhs.coeff(1)) - (&rhs.coeff(0)) *)
  rhs_extractScalarFactor : Scalar;
  rhs_NeedToConjugate : bool
}.

Record Dest : Type := {
  dst_rows : Z;
  dst_cols : Z;
  dst_addr : Z;                       (* &dst.coeffRef(0), as an element address *)
  dst_coeffs : list Scalar;
  dst_incr : Z                        (* (&dst.coeff(1)) - (&dst.coeff(0)) *)
}.

(** The template and function arguments of one kernel invocation. *)
Record kernel_call : Type := {
  k_StorageOrder : StorageOrderT;
  k_UpLo : UpLoT;
  k_ConjugateLhs : bool;
  k_ConjugateRhs : bool;
  k_size : Z;
  k_lhs : list Scalar;
  k_lhsStride : Z;
  k_rhs : list Scalar;
  k_rhsIncr : Z;
  k_res_addr : Z;
  k_res : list Scalar;
  k_alpha : Scalar
}.

(** Lines 178-197.  A failing [ei_assert] aborts: [None].  The kernel is a
    parameter, so that what it is called with can be observed. *)
Definition scaleAndAddTo_with {R : Type} (kernel : kernel_call -> R)
    (LhsUpLo : UpLoT) (m_lhs : LhsExpr) (m_rhs : RhsExpr) (dst : Dest)
    (alpha : Scalar) : option R :=
  if ((dst_rows dst =? lhs_rows m_lhs) && (dst_cols dst =? rhs_cols m_rhs))%Z
  then
    let actualAlpha :=
      alpha * lhs_extractScalarFactor m_lhs * rhs_extractScalarFactor m_rhs in
    if (dst_incr dst =? 1)%Z
    then Some (kernel
           {| k_StorageOrder := actual_lhs_order m_lhs;
              k_UpLo := LhsUpLo;
              k_ConjugateLhs := lhs_NeedToConjugate m_lhs;
              k_ConjugateRhs := rhs_NeedToConjugate m_rhs;
              k_size := actual_lhs_rows m_lhs;
              k_lhs := actual_lhs_coeffs m_lhs;
              k_lhsStride := actual_lhs_stride m_lhs;
              k_rhs := actual_rhs_coeffs m_rhs;
              k_rhsIncr := actual_rhs_incr m_rhs;
              k_res_addr := dst_addr dst;
              k_res := dst_coeffs dst;
              k_alpha := actualAlpha |})
    else None
  else None.

Definition run_kernel (P : Platform) (c : kernel_call)
    : option (list Scalar * list alloc_event) :=
  ei_product_selfadjoint_vector P (k_StorageOrder c) (k_UpLo c)
    (k_ConjugateLhs c) (k_ConjugateRhs c) (k_size c) (k_lhs c)
    (k_lhsStride c) (k_rhs c) (k_rhsIncr c) (k_res_addr c) (k_res c)
    (k_alpha c).

Definition scaleAndAddTo (P : Platform) (LhsUpLo : UpLoT) (m_lhs : LhsExpr)
    (m_rhs : RhsExpr) (dst : Dest) (alpha : Scalar)
    : option (option (list Scalar * list alloc_event)) :=
  scaleAndAddTo_with (run_kernel P) LhsUpLo m_lhs m_rhs dst alpha.

End Wrapper.

Arguments LhsExpr : clear implicits.
Arguments RhsExpr : clear implicits.
Arguments Dest : clear implicits.
Arguments kernel_call : clear implicits.

(** ** Reference data

    The de-interleaving of a strided operand, and the sample inputs of the
    evaluations below. *)


(**     A Hermitian 10x10 matrix [H[r][c] = (r + c) + (r - c) i], fully stored in
    either order, and the operand [x[i] = i + 1i].  With packets of two
    scalars and [res] at an odd element address, the column pair (8, 9) of a
    first-triangular call runs one iteration of the head, at row 0. *)

Definition hermitian_sample (r c : Z) : Cplx.t := ((r + c)%Z, (r - c)%Z).

Definition indices (n : nat) : list Z := map Z.of_nat (seq 0 n).

Definition row_major_sample (n : nat) : list Cplx.t :=
  flat_map (fun r => map (fun c => hermitian_sample r c) (indices n))
    (indices n).

Definition col_major_sample (n : nat) : list Cplx.t :=
  flat_map (fun c => map (fun r => hermitian_sample r c) (indices n))
    (indices n).

Definition operand_sample (n : nat) : list Cplx.t :=
  map (fun i => (i, 1%Z)) (indices n).

(** ** The vocabulary of the contract *)

Section Vocabulary.

Context {Scalar : Type} {Ops : ScalarOps Scalar}.

Local Open Scope scalar_scope.
Local Notation "0" := szero : scalar_scope.

(** The cell [i] of a buffer ([0] outside it). *)
Definition gt (buf : list Scalar) (i : Z) : Scalar := nth (Z.to_nat i) buf 0.

(** The sum of [f] over [lo], ..., [lo + n - 1]. *)
Fixpoint zsum (n : nat) (lo : Z) (f : Z -> Scalar) : Scalar :=
  match n with
  | O => 0
  | S n' => zsum n' lo f + f (lo + Z.of_nat n')%Z
  end.

(** Matrix coordinates: the buffer index of the entry at row [r], column
    [c], and the stored triangle (diagonal included). *)
Definition entry_index (StorageOrder : StorageOrderT) (lhsStride r c : Z) : Z :=
  match StorageOrder with
  | RowMajor => (r * lhsStride + c)%Z
  | ColMajor => (c * lhsStride + r)%Z
  end.

Definition in_stored_triangle (UpLo : UpLoT) (r c : Z) : Prop :=
  match UpLo with
  | LowerTriangular => (c <= r)%Z
  | UpperTriangular => (r <= c)%Z
  end.

(** The matrix buffer holds the stored triangle: every entry of it is
    addressable. *)
Definition holds_triangle (StorageOrder : StorageOrderT) (UpLo : UpLoT)
    (size : Z) (lhs : list Scalar) (lhsStride : Z) : Prop :=
  forall r c, (0 <= r < size)%Z -> (0 <= c < size)%Z ->
    in_stored_triangle UpLo r c ->
    (0 <= entry_index StorageOrder lhsStride r c < Z.of_nat (length lhs))%Z.

(** The operand is addressable at its [size] strided positions. *)
Definition rhs_fits (size : Z) (_rhs : list Scalar) (rhsIncr : Z) : Prop :=
  forall i, (0 <= i < size)%Z ->
    (0 <= i * rhsIncr < Z.of_nat (length _rhs))%Z.

(** The events of the scratch allocator on a call that returns. *)
Definition scratch_events (size rhsIncr : Z) : list alloc_event :=
  if (rhsIncr =? 1)%Z then [] else [StackNew size; StackDelete size].

(** The inputs the kernel is specified on. *)
Definition valid_call (StorageOrder : StorageOrderT) (UpLo : UpLoT)
    (size : Z) (lhs : list Scalar) (lhsStride : Z)
    (_rhs : list Scalar) (rhsIncr : Z) (res : list Scalar) : Prop :=
  (0 <= size)%Z /\
  holds_triangle StorageOrder UpLo size lhs lhsStride /\
  rhs_fits size _rhs rhsIncr /\
  (size <= Z.of_nat (length res))%Z.

(** The entry at row [r], column [c] of the buffer, and the logical matrix:
    the stored entry inside the stored triangle, the conjugate of the
    mirrored entry outside. *)
Definition entry (StorageOrder : StorageOrderT) (lhs : list Scalar)
    (lhsStride r c : Z) : Scalar :=
  gt lhs (entry_index StorageOrder lhsStride r c).

Definition in_stored_triangleb (UpLo : UpLoT) (r c : Z) : bool :=
  match UpLo with
  | LowerTriangular => (c <=? r)%Z
  | UpperTriangular => (r <=? c)%Z
  end.

Definition logical_entry (StorageOrder : StorageOrderT) (UpLo : UpLoT)
    (lhs : list Scalar) (lhsStride r c : Z) : Scalar :=
  if in_stored_triangleb UpLo r c
  then entry StorageOrder lhs lhsStride r c
  else ei_conj (entry StorageOrder lhs lhsStride c r).

(** Row [i] of the dense product [A * x]. *)
Definition dense_row (size : Z) (A : Z -> Z -> Scalar) (x : Z -> Scalar)
    (i : Z) : Scalar :=
  zsum (Z.to_nat size) 0 (fun j => A i j * x j).

(** The diagonal of a selfadjoint matrix is real. *)
Definition real_diagonal (StorageOrder : StorageOrderT) (size : Z)
    (lhs : list Scalar) (lhsStride : Z) : Prop :=
  forall i, (0 <= i < size)%Z ->
    ei_conj (entry StorageOrder lhs lhsStride i i)
    = entry StorageOrder lhs lhsStride i i.

(** The scalar head of the inner range (lines 105-110) multiplies without
    the conjugation helpers: the direct terms are [t * A[i]] and the
    transposed ones [ei_conj(A[i]) * rhs[i]].  In the column pair at [j] it
    does what the helpers do in the other two phases when the scalar type is
    real, and when the flags are the ones it is written for ([ConjugateRhs]
    unset, and [ConjugateLhs] set exactly for a row-major matrix); and it
    runs no iteration when the alignment offset of [&res[starti]] is zero. *)
Definition head_agrees_at (P : Platform)
    (StorageOrder : StorageOrderT) (UpLo : UpLoT)
    (ConjugateLhs ConjugateRhs : bool) (size res_addr j : Z) : Prop :=
  IsComplex = false
  \/ (ConjugateRhs = false /\ ConjugateLhs = IsRowMajor StorageOrder)
  \/ ei_alignmentOffset P (res_addr + starti StorageOrder UpLo j)
       (endi StorageOrder UpLo size j - starti StorageOrder UpLo j) = 0%Z.

(** The same in every column pair of a call: the two-column loop runs
    [bound0 size / 2] iterations, at [j = lo], [lo + 2], ... *)
Definition head_agrees (P : Platform)
    (StorageOrder : StorageOrderT) (UpLo : UpLoT)
    (ConjugateLhs ConjugateRhs : bool) (size res_addr : Z) : Prop :=
  forall m, (0 <= m < bound0 size / 2)%Z ->
    head_agrees_at P StorageOrder UpLo ConjugateLhs ConjugateRhs size res_addr
      ((if FirstTriangular StorageOrder UpLo
        then bound StorageOrder UpLo size else 0) + 2 * m)%Z.

End Vocabulary.

(** * Properties *)

Section KernelFacts.

Context {Scalar : Type} {NT : NumTraits Scalar}.
Variable P : Platform.

Local Open Scope scalar_scope.
Local Notation "0" := szero : scalar_scope.

Add Ring scalar_ring_inst : (@scalar_ring Scalar NT).

(** ** Scalars *)

Lemma ei_conj_zero : ei_conj 0 = 0.
Proof.
  assert (E : 0 + 0 = 0 :> Scalar) by ring.
  pose proof (ei_conj_add 0 0) as H. rewrite E in H.
  assert (D : ei_conj 0 = ssub (ei_conj 0 + ei_conj 0) (ei_conj 0)) by ring.
  rewrite <- H in D. rewrite D. ring.
Qed.

Lemma cj_zero b : cj b 0 = 0.
Proof. destruct b; [apply ei_conj_zero | reflexivity]. Qed.

Lemma cj_mul b x y : cj b (x * y) = cj b x * cj b y.
Proof. destruct b; [apply ei_conj_mul | reflexivity]. Qed.

Lemma cj_cj b x : cj b (cj b x) = x.
Proof. destruct b; [apply ei_conj_involutive | reflexivity]. Qed.

Lemma pmul_zero_r h x : pmul h x 0 = 0.
Proof. unfold pmul. rewrite cj_zero. ring. Qed.

(** ** Buffers *)

Lemma nth_error_nth_default (buf : list Scalar) n :
  (n < length buf)%nat -> nth_error buf n = Some (nth n buf 0).
Proof.
  revert n; induction buf as [|a buf IH]; intros [|n] Hn; cbn in *;
    try lia; auto. apply IH; lia.
Qed.

Lemma rd_ok (buf : list Scalar) i :
  (0 <= i < Z.of_nat (length buf))%Z -> rd buf i = Some (gt buf i).
Proof.
  intros Hi. unfold rd, gt.
  destruct (Z.ltb_spec i 0); [lia|].
  apply nth_error_nth_default. lia.
Qed.

Lemma length_upd n (v : Scalar) (buf : list Scalar) : length (upd n v buf) = length buf.
Proof.
  revert n; induction buf as [|a buf IH]; intros [|n]; cbn; auto.
Qed.

Lemma nth_upd_eq n (v : Scalar) (buf : list Scalar) :
  (n < length buf)%nat -> nth n (upd n v buf) 0 = v.
Proof.
  revert n; induction buf as [|a buf IH]; intros [|n] Hn; cbn in *;
    try lia; auto. apply IH; lia.
Qed.

Lemma nth_upd_neq n m (v : Scalar) (buf : list Scalar) :
  m <> n -> nth m (upd n v buf) 0 = nth m buf 0.
Proof.
  revert n m; induction buf as [|a buf IH]; intros [|n] [|m] Hn; cbn in *;
    try congruence; auto.
Qed.

Lemma wr_ok (buf : list Scalar) i v :
  (0 <= i < Z.of_nat (length buf))%Z ->
  wr buf i v = Some (upd (Z.to_nat i) v buf).
Proof.
  intros Hi. unfold wr.
  destruct (Z.leb_spec 0 i); [|lia].
  destruct (Z.ltb_spec i (Z.of_nat (length buf))); [|lia].
  reflexivity.
Qed.

Lemma gt_upd (buf : list Scalar) i v k :
  (0 <= i < Z.of_nat (length buf))%Z -> (0 <= k)%Z ->
  gt (upd (Z.to_nat i) v buf) k = if (k =? i)%Z then v else gt buf k.
Proof.
  intros Hi Hk. unfold gt.
  destruct (Z.eqb_spec k i) as [->|Hne].
  - apply nth_upd_eq. lia.
  - apply nth_upd_neq. lia.
Qed.

Lemma list_ext_gt (l l' : list Scalar) :
  length l = length l' ->
  (forall k, (0 <= k < Z.of_nat (length l))%Z -> gt l k = gt l' k) ->
  l = l'.
Proof.
  revert l'; induction l as [|a l IH]; intros [|b l'] Hlen Hk;
    cbn in Hlen; try discriminate; auto.
  f_equal.
  - apply (Hk 0%Z). cbn [length]. lia.
  - apply IH; [lia|]. intros k Hk'.
    specialize (Hk (k + 1)%Z). unfold gt in *.
    replace (Z.to_nat (k + 1)) with (S (Z.to_nat k)) in Hk by lia.
    apply Hk. cbn [length]. lia.
Qed.

(** ** Accumulation into a buffer

    [Upd d r r']: the buffer [r'] is [r] with [d k] added to cell [k]. *)

Definition single (i : Z) (v : Scalar) (k : Z) : Scalar :=
  if (k =? i)%Z then v else 0.

Definition on_range (lo hi : Z) (f : Z -> Scalar) (k : Z) : Scalar :=
  if ((lo <=? k) && (k <? hi))%Z then f k else 0.

Definition Upd (d : Z -> Scalar) (r r' : list Scalar) : Prop :=
  length r' = length r /\
  forall k, (0 <= k < Z.of_nat (length r))%Z -> gt r' k = gt r k + d k.

Lemma Upd_zero r : Upd (fun _ => 0) r r.
Proof. split; [reflexivity|]. intros; ring. Qed.

Lemma Upd_trans d e r r' r'' :
  Upd d r r' -> Upd e r' r'' -> Upd (fun k => d k + e k) r r''.
Proof.
  intros [L1 H1] [L2 H2]. split; [congruence|].
  intros k Hk. rewrite H2 by (rewrite L1; exact Hk). rewrite H1 by exact Hk.
  ring.
Qed.

Lemma Upd_ext d e r r' :
  (forall k, (0 <= k < Z.of_nat (length r))%Z -> d k = e k) ->
  Upd d r r' -> Upd e r r'.
Proof.
  intros Hde [L H]. split; [exact L|].
  intros k Hk. rewrite H by exact Hk. rewrite Hde by exact Hk. reflexivity.
Qed.

Lemma add_at_Upd r i v :
  (0 <= i < Z.of_nat (length r))%Z ->
  exists r', add_at r i v = Some r' /\ Upd (single i v) r r'.
Proof.
  intros Hi. unfold add_at. rewrite rd_ok by exact Hi. cbn [obind].
  rewrite wr_ok by exact Hi. eexists; split; [reflexivity|].
  split; [apply length_upd|].
  intros k Hk. rewrite gt_upd by lia. unfold single.
  destruct (Z.eqb_spec k i) as [->|]; ring.
Qed.

(** ** Loops *)

Lemma iterate_inv {St : Type} (Inv : nat -> St -> Prop)
    (body : Z -> St -> option St) (step : Z) :
  forall n i st,
    Inv O st ->
    (forall m s, (m < n)%nat -> Inv m s ->
       exists s', body (i + step * Z.of_nat m)%Z s = Some s' /\ Inv (S m) s') ->
    exists s', iterate n i step body st = Some s' /\ Inv n s'.
Proof.
  intros n; revert Inv; induction n as [|n IH]; intros Inv i st H0 Hstep.
  - exists st; split; [reflexivity | exact H0].
  - cbn [iterate].
    destruct (Hstep O st ltac:(lia) H0) as (s1 & Hb & H1).
    replace (i + step * Z.of_nat 0)%Z with i in Hb by lia.
    rewrite Hb.
    apply (IH (fun m => Inv (S m))); [exact H1|].
    intros m s Hm HI.
    destruct (Hstep (S m) s ltac:(lia) HI) as (s' & Hb' & HI').
    exists s'; split; [|exact HI'].
    rewrite <- Hb'. f_equal. lia.
Qed.

Lemma trip_count_1 lo hi : trip_count lo hi 1 = Z.to_nat (hi - lo).
Proof.
  unfold trip_count. f_equal. rewrite Z.div_1_r. lia.
Qed.

(** The trip count is that of the loop: the loop condition holds at every
    iteration run and fails after the last one. *)
Lemma trip_count_spec lo hi step :
  (0 < step)%Z ->
  (forall m, (m < trip_count lo hi step)%nat ->
     (lo + step * Z.of_nat m < hi)%Z) /\
  (hi <= lo + step * Z.of_nat (trip_count lo hi step))%Z.
Proof.
  intros Hs. unfold trip_count.
  set (q := ((hi - lo + step - 1) / step)%Z).
  assert (Hq : (step * q <= hi - lo + step - 1 < step * q + step)%Z).
  { pose proof (Z.div_mod (hi - lo + step - 1) step ltac:(lia)).
    pose proof (Z.mod_pos_bound (hi - lo + step - 1) step Hs).
    fold q in H. lia. }
  split.
  - intros m Hm. assert (Z.of_nat m < q)%Z by lia. nia.
  - assert (q <= Z.of_nat (Z.to_nat q))%Z by lia. nia.
Qed.

Lemma trip_count_exact lo step q :
  (0 < step)%Z -> (0 <= q)%Z ->
  trip_count lo (lo + step * q) step = Z.to_nat q.
Proof.
  intros Hs Hq. unfold trip_count. f_equal. symmetry.
  apply (Z.div_unique _ step q (step - 1)); lia.
Qed.

Lemma for_loop_inv {St : Type} (Inv : Z -> St -> Prop)
    (body : Z -> St -> option St) lo step q st :
  (0 < step)%Z -> (0 <= q)%Z ->
  Inv lo st ->
  (forall i s, (lo <= i)%Z -> (i + step <= lo + step * q)%Z -> Inv i s ->
     exists s', body i s = Some s' /\ Inv (i + step)%Z s') ->
  exists s', for_loop lo (lo + step * q)%Z step body st = Some s'
             /\ Inv (lo + step * q)%Z s'.
Proof.
  intros Hs Hq H0 Hstep. unfold for_loop.
  rewrite trip_count_exact by assumption.
  destruct (iterate_inv (fun m s => Inv (lo + step * Z.of_nat m)%Z s)
              body step (Z.to_nat q) lo st) as (s' & E & I).
  - replace (lo + step * Z.of_nat 0)%Z with lo by lia. exact H0.
  - intros m s Hm HI.
    destruct (Hstep (lo + step * Z.of_nat m)%Z s) as (s' & E & I);
      [nia | nia | exact HI |].
    exists s'. split; [exact E|].
    replace (lo + step * Z.of_nat (S m))%Z
      with (lo + step * Z.of_nat m + step)%Z by lia.
    exact I.
  - exists s'. split; [exact E|].
    replace (lo + step * q)%Z with (lo + step * Z.of_nat (Z.to_nat q))%Z
      by (rewrite Z2Nat.id by lia; reflexivity).
    exact I.
Qed.

Lemma for_loop_inv_to {St : Type} (Inv : Z -> St -> Prop)
    (body : Z -> St -> option St) lo hi step q st :
  (0 < step)%Z -> (0 <= q)%Z -> hi = (lo + step * q)%Z ->
  Inv lo st ->
  (forall i s, (lo <= i)%Z -> (i + step <= hi)%Z -> Inv i s ->
     exists s', body i s = Some s' /\ Inv (i + step)%Z s') ->
  exists s', for_loop lo hi step body st = Some s' /\ Inv hi s'.
Proof. intros Hs Hq ->. apply for_loop_inv; assumption. Qed.

(** ** Finite sums *)

Lemma zsum_ext n lo f g :
  (forall i, (lo <= i < lo + Z.of_nat n)%Z -> f i = g i) ->
  zsum n lo f = zsum n lo g.
Proof.
  induction n as [|n IH]; intros H; cbn [zsum]; [reflexivity|].
  rewrite IH by (intros; apply H; lia). rewrite H by lia. reflexivity.
Qed.

Lemma zsum_zero n lo : zsum n lo (fun _ => 0) = 0.
Proof. induction n as [|n IH]; cbn [zsum]; [reflexivity|]. rewrite IH. ring. Qed.

Lemma zsum_add n lo f g :
  zsum n lo (fun i => f i + g i) = zsum n lo f + zsum n lo g.
Proof. induction n as [|n IH]; cbn [zsum]; [ring|]. rewrite IH. ring. Qed.

Lemma zsum_scale n lo a f :
  zsum n lo (fun i => a * f i) = a * zsum n lo f.
Proof. induction n as [|n IH]; cbn [zsum]; [ring|]. rewrite IH. ring. Qed.

Lemma zsum_app n m lo f :
  zsum (n + m) lo f = zsum n lo f + zsum m (lo + Z.of_nat n)%Z f.
Proof.
  induction m as [|m IH].
  - rewrite Nat.add_0_r. cbn [zsum]. ring.
  - rewrite Nat.add_succ_r. cbn [zsum]. rewrite IH.
    replace (lo + Z.of_nat (n + m))%Z with (lo + Z.of_nat n + Z.of_nat m)%Z
      by lia.
    ring.
Qed.

Lemma zsum_left n lo f :
  zsum (S n) lo f = f lo + zsum n (lo + 1)%Z f.
Proof.
  change (S n) with (1 + n)%nat. rewrite zsum_app. cbn [zsum].
  replace (lo + Z.of_nat 0)%Z with lo by lia.
  replace (lo + Z.of_nat 1)%Z with (lo + 1)%Z by lia. ring.
Qed.

Lemma zsum_single n lo k v :
  (lo <= k < lo + Z.of_nat n)%Z ->
  zsum n lo (fun c => single c (v c) k) = v k.
Proof.
  induction n as [|n IH]; intros Hk; [lia|]. cbn [zsum].
  unfold single at 2.
  destruct (Z.eqb_spec k (lo + Z.of_nat n)) as [->|Hne].
  - rewrite (zsum_ext n lo _ (fun _ => 0)).
    + rewrite zsum_zero. ring.
    + intros i Hi. unfold single.
      destruct (Z.eqb_spec (lo + Z.of_nat n) i); [lia|reflexivity].
  - rewrite IH by lia. ring.
Qed.

Lemma zsum_on_range n lo a b f :
  (lo <= a)%Z -> (a <= b)%Z -> (b <= lo + Z.of_nat n)%Z ->
  zsum n lo (on_range a b f) = zsum (Z.to_nat (b - a)) a f.
Proof.
  intros Ha Hab Hb.
  replace n with (Z.to_nat (a - lo) + (Z.to_nat (b - a)
                  + Z.to_nat (lo + Z.of_nat n - b)))%nat by lia.
  rewrite !zsum_app.
  rewrite (zsum_ext _ lo _ (fun _ => 0)), zsum_zero.
  2:{ intros i Hi. unfold on_range.
      destruct (Z.leb_spec a i); [lia|reflexivity]. }
  rewrite (zsum_ext _ (lo + Z.of_nat (Z.to_nat (a - lo))
                       + Z.of_nat (Z.to_nat (b - a)))%Z _ (fun _ => 0)),
    zsum_zero.
  2:{ intros i Hi. unfold on_range.
      destruct (Z.ltb_spec i b); [lia|]. rewrite andb_false_r. reflexivity. }
  replace (lo + Z.of_nat (Z.to_nat (a - lo)))%Z with a by lia.
  rewrite (zsum_ext _ a (on_range a b f) f).
  2:{ intros i Hi. unfold on_range.
      destruct (Z.leb_spec a i); [|lia].
      destruct (Z.ltb_spec i b); [reflexivity|lia]. }
  ring.
Qed.

Lemma on_range_empty lo f k : on_range lo lo f k = 0.
Proof.
  unfold on_range.
  destruct (Z.leb_spec lo k); destruct (Z.ltb_spec k lo); cbn; auto; lia.
Qed.

Lemma on_range_app lo e n f k :
  (lo <= e)%Z -> (0 <= n)%Z ->
  on_range lo e f k + on_range e (e + n) f k = on_range lo (e + n) f k.
Proof.
  intros Hle Hn. unfold on_range.
  destruct (Z.leb_spec lo k); destruct (Z.ltb_spec k e);
    destruct (Z.leb_spec e k); destruct (Z.ltb_spec k (e + n));
    cbn [andb]; try lia; ring.
Qed.

Lemma on_range_single e f k : on_range e (e + 1) f k = single e (f e) k.
Proof.
  unfold on_range, single.
  destruct (Z.leb_spec e k); destruct (Z.ltb_spec k (e + 1));
    destruct (Z.eqb_spec k e); cbn [andb]; subst; try lia; reflexivity.
Qed.

Lemma Upd_on_range_step lo e n f g r0 r r' :
  (lo <= e)%Z -> (0 <= n)%Z ->
  (forall k, (e <= k < e + n)%Z -> g k = f k) ->
  Upd (on_range lo e f) r0 r ->
  Upd (on_range e (e + n) g) r r' ->
  Upd (on_range lo (e + n) f) r0 r'.
Proof.
  intros Hle Hn Hg U1 U2.
  eapply Upd_ext; [|exact (Upd_trans _ _ _ _ _ U1 U2)].
  intros k _. cbn beta. rewrite <- (on_range_app lo e n f k Hle Hn).
  f_equal. unfold on_range.
  destruct (Z.leb_spec e k); destruct (Z.ltb_spec k (e + n)); cbn [andb];
    auto.
Qed.

(** ** Packets *)

Fixpoint window (n : nat) (buf : list Scalar) (i : Z) : list Scalar :=
  match n with
  | O => []
  | S n' => gt buf i :: window n' buf (i + 1)%Z
  end.

Lemma length_window n buf i : length (window n buf i) = n.
Proof. revert i; induction n as [|n IH]; intros i; cbn; auto. Qed.

Lemma nth_window n buf i l :
  (l < n)%nat -> nth l (window n buf i) 0 = gt buf (i + Z.of_nat l)%Z.
Proof.
  revert i l; induction n as [|n IH]; intros i [|l] Hl; cbn [window nth];
    try lia.
  - f_equal. lia.
  - rewrite IH by lia. f_equal. lia.
Qed.

Lemma load_lanes_ok n (buf : list Scalar) i :
  (0 <= i)%Z -> (i + Z.of_nat n <= Z.of_nat (length buf))%Z ->
  load_lanes n buf i = Some (window n buf i).
Proof.
  revert i; induction n as [|n IH]; intros i H0 Hn; cbn [load_lanes window].
  - reflexivity.
  - rewrite rd_ok by lia. cbn [obind]. rewrite IH by lia. reflexivity.
Qed.

Lemma nth_repeat_lt (x : Scalar) n l : (l < n)%nat -> nth l (repeat x n) 0 = x.
Proof.
  revert l; induction n as [|n IH]; intros [|l] Hl; cbn; try lia; auto.
  apply IH; lia.
Qed.

Lemma length_packet_pmadd h (x y c : list Scalar) n :
  length x = n -> length y = n -> length c = n ->
  length (packet_pmadd h x y c) = n.
Proof.
  unfold packet_pmadd.
  revert x y c; induction n as [|n IH]; intros [|a x] [|b y] [|d c];
    cbn; intros; try lia; auto.
Qed.

Lemma nth_packet_pmadd h (x y c : list Scalar) n l :
  length x = n -> length y = n -> length c = n -> (l < n)%nat ->
  nth l (packet_pmadd h x y c) 0
  = pmadd h (nth l x 0) (nth l y 0) (nth l c 0).
Proof.
  unfold packet_pmadd.
  revert x y c l; induction n as [|n IH]; intros [|a x] [|b y] [|d c] l;
    cbn [length]; intros; try lia.
  destruct l as [|l]; cbn [lanewise nth]; [reflexivity|].
  apply (IH x y c l); lia.
Qed.

Lemma ei_predux_repeat_zero n : ei_predux (repeat 0 n) = 0.
Proof.
  induction n as [|n IH]; cbn; [reflexivity|].
  unfold ei_predux in IH. rewrite IH. ring.
Qed.

Lemma ei_predux_pmadd h n (A B : list Scalar) :
  forall ia ib i (c : list Scalar),
    length c = n ->
    ei_predux (packet_pmadd h (window n A ia) (window n B ib) c)
    = zsum n i (fun m => pmul h (gt A (ia + (m - i))%Z) (gt B (ib + (m - i))%Z))
      + ei_predux c.
Proof.
  unfold packet_pmadd.
  induction n as [|n IH]; intros ia ib i [|d c] Hc; cbn [length] in Hc;
    try lia.
  - cbn. ring.
  - rewrite zsum_left. cbn [window lanewise].
    unfold ei_predux in *. cbn [fold_right].
    rewrite (IH (ia + 1)%Z (ib + 1)%Z (i + 1)%Z c) by lia.
    rewrite (zsum_ext n (i + 1)%Z _
               (fun m => pmul h (gt A (ia + (m - i))%Z) (gt B (ib + (m - i))%Z))).
    2:{ intros m _. f_equal; f_equal; lia. }
    replace (ia + (i - i))%Z with ia by lia.
    replace (ib + (i - i))%Z with ib by lia.
    unfold pmadd. ring.
Qed.

Lemma ei_pstore_ok (p : list Scalar) :
  forall (buf : list Scalar) i,
    (0 <= i)%Z -> (i + Z.of_nat (length p) <= Z.of_nat (length buf))%Z ->
    exists buf', ei_pstore buf i p = Some buf' /\
      length buf' = length buf /\
      forall k, (0 <= k)%Z ->
        gt buf' k = if ((i <=? k) && (k <? i + Z.of_nat (length p)))%Z
                    then nth (Z.to_nat (k - i)) p 0 else gt buf k.
Proof.
  induction p as [|x p IH]; intros buf i H0 Hn; cbn [ei_pstore length].
  - exists buf. split; [reflexivity|]. split; [reflexivity|].
    intros k Hk.
    destruct (Z.leb_spec i k); destruct (Z.ltb_spec k (i + Z.of_nat 0));
      cbn [andb]; try lia; reflexivity.
  - cbn [length] in Hn. rewrite wr_ok by lia. cbn [obind].
    destruct (IH (upd (Z.to_nat i) x buf) (i + 1)%Z) as (buf' & E & L & G).
    { lia. } { rewrite length_upd. lia. }
    exists buf'. split; [exact E|]. split; [rewrite L; apply length_upd|].
    intros k Hk. rewrite G by exact Hk. rewrite gt_upd by lia.
    destruct (Z.leb_spec (i + 1) k);
      destruct (Z.ltb_spec k (i + 1 + Z.of_nat (length p)));
      destruct (Z.leb_spec i k);
      destruct (Z.ltb_spec k (i + Z.of_nat (S (length p))));
      destruct (Z.eqb_spec k i); cbn [andb]; try lia; try reflexivity.
    + replace (Z.to_nat (k - i)) with (S (Z.to_nat (k - (i + 1)))) by lia.
      reflexivity.
    + subst k. replace (Z.to_nat (i - i)) with O by lia. reflexivity.
Qed.

(** ** What the loops add to [res] *)

(** [holds_triangle] in the coordinates of the kernel: line [c] (a column of
    a column-major matrix, a row of a row-major one) at offset [i]. *)
Definition lines_addressable (StorageOrder : StorageOrderT) (UpLo : UpLoT)
    (size : Z) (lhs : list Scalar) (lhsStride : Z) : Prop :=
  forall c i, (0 <= c < size)%Z -> (0 <= i < size)%Z ->
    (if FirstTriangular StorageOrder UpLo then i <= c else c <= i)%Z ->
    (0 <= c * lhsStride + i < Z.of_nat (length lhs))%Z.

Lemma holds_triangle_lines StorageOrder UpLo size lhs lhsStride :
  holds_triangle StorageOrder UpLo size lhs lhsStride ->
  lines_addressable StorageOrder UpLo size lhs lhsStride.
Proof.
  intros H c i Hc Hi Hs.
  destruct StorageOrder, UpLo; cbn in Hs.
  - apply (H c i Hc Hi). cbn. exact Hs.
  - apply (H c i Hc Hi). cbn. exact Hs.
  - apply (H i c Hi Hc). cbn. exact Hs.
  - apply (H i c Hi Hc). cbn. exact Hs.
Qed.

(** [bound0 size] is even and at most [size]. *)
Lemma bound0_range size : (0 <= size)%Z -> (0 <= bound0 size <= size)%Z.
Proof.
  intros Hs. unfold bound0. set (x := Z.max 0 (size - 8)).
  assert (Hx : (0 <= x <= size)%Z) by (unfold x; lia).
  split; [apply Z.land_nonneg; lia|].
  transitivity x; [|lia].
  rewrite <- (Z2N.id x) at 1 by lia.
  change 4294967294%Z with (Z.of_N 4294967294%N).
  rewrite <- N2Z.inj_land.
  rewrite <- (Z2N.id x) at 2 by lia.
  apply N2Z.inj_le. apply N.land_le_l.
Qed.

Lemma bound0_even size : bound0 size = (2 * (bound0 size / 2))%Z.
Proof.
  unfold bound0. set (x := Z.max 0 (size - 8)).
  assert (H : Z.odd (Z.land x 4294967294) = false).
  { rewrite <- Z.bit0_odd, Z.land_spec. cbn. apply andb_false_r. }
  pose proof (Z.div_mod (Z.land x 4294967294) 2 ltac:(lia)) as Hd.
  rewrite Zmod_odd, H in Hd. lia.
Qed.

Section Deltas.

Variables (StorageOrder : StorageOrderT) (UpLo : UpLoT).
Variables (ConjugateLhs ConjugateRhs : bool).
Variables (size : Z) (lhs : list Scalar) (lhsStride : Z).
Variables (rhs : list Scalar) (res_addr : Z) (alpha : Scalar).

Local Abbreviation FT := (FirstTriangular StorageOrder UpLo).
Local Abbreviation c0 := (cj0 StorageOrder ConjugateLhs ConjugateRhs).
Local Abbreviation c1 := (cj1 StorageOrder ConjugateLhs ConjugateRhs).
Local Abbreviation aStart := (alignedStart P StorageOrder UpLo size res_addr).
Local Abbreviation aEnd := (alignedEnd P StorageOrder UpLo size res_addr).
Local Abbreviation sti := (starti StorageOrder UpLo).
Local Abbreviation eni := (endi StorageOrder UpLo size).

Definition line (c i : Z) : Scalar := gt lhs (c * lhsStride + i)%Z.
Definition tcol (c : Z) : Scalar := cjAlpha ConjugateRhs alpha * gt rhs c.

Definition rng_lo (c : Z) : Z := if FT then 0%Z else (c + 1)%Z.
Definition rng_hi (c : Z) : Z := if FT then c else size.

(** One column of the fallback loop. *)
Definition col_delta (c k : Z) : Scalar :=
  single c (pmul c0 (line c c) (tcol c)
            + alpha * zsum (Z.to_nat (rng_hi c - rng_lo c)) (rng_lo c)
                        (fun i => pmul c1 (line c i) (gt rhs i))) k
  + on_range (rng_lo c) (rng_hi c) (fun i => pmul c0 (line c i) (tcol c)) k.

(** Two columns of the blocked loop, with the head of the inner range as
    the source writes it. *)
Definition dir2 (j i : Z) : Scalar :=
  if (i <? aStart j)%Z
  then tcol j * line j i + tcol (j + 1) * line (j + 1) i
  else pmul c0 (line j i) (tcol j) + pmul c0 (line (j + 1) i) (tcol (j + 1)).

Definition trn (j c i : Z) : Scalar :=
  if (i <? aStart j)%Z
  then ei_conj (line c i) * gt rhs i
  else pmul c1 (line c i) (gt rhs i).

Definition pair_diag0 (j : Z) : Scalar :=
  if FT
  then pmul c0 (line j j) (tcol j) + pmul c0 (line (j + 1) j) (tcol (j + 1))
  else pmul c0 (line j j) (tcol j).
Definition pair_diag1 (j : Z) : Scalar :=
  if FT
  then pmul c0 (line (j + 1) (j + 1)) (tcol (j + 1))
  else pmul c0 (line j (j + 1)) (tcol j)
       + pmul c0 (line (j + 1) (j + 1)) (tcol (j + 1)).
Definition pair_t2 (j : Z) : Scalar :=
  if FT then 0 else pmul c1 (line j (j + 1)) (gt rhs (j + 1)).
Definition pair_t3 (j : Z) : Scalar :=
  if FT then pmul c1 (line (j + 1) j) (gt rhs j) else 0.

Definition pair_delta (j k : Z) : Scalar :=
  single j (pair_diag0 j
            + alpha * (pair_t2 j
                       + zsum (Z.to_nat (eni j - sti j)) (sti j) (trn j j))) k
  + single (j + 1)
      (pair_diag1 j
       + alpha * (pair_t3 j
                  + zsum (Z.to_nat (eni j - sti j)) (sti j) (trn j (j + 1)))) k
  + on_range (sti j) (eni j) (dir2 j) k.

(** *** Index ranges *)

Definition PInv (j : Z) (r0 : list Scalar) (e : Z) (st : pair_state) : Prop :=
  Upd (on_range (sti j) e (dir2 j)) r0 (st_res st) /\
  st_t2 st + ei_predux (st_ptmp2 st)
  = pair_t2 j + zsum (Z.to_nat (e - sti j)) (sti j) (trn j j) /\
  st_t3 st + ei_predux (st_ptmp3 st)
  = pair_t3 j + zsum (Z.to_nat (e - sti j)) (sti j) (trn j (j + 1)) /\
  length (st_ptmp2 st) = lanes P /\ length (st_ptmp3 st) = lanes P.

Lemma PInv_intro j r0 e res t2 t3 p2 p3 :
  Upd (on_range (sti j) e (dir2 j)) r0 res ->
  t2 + ei_predux p2
  = pair_t2 j + zsum (Z.to_nat (e - sti j)) (sti j) (trn j j) ->
  t3 + ei_predux p3
  = pair_t3 j + zsum (Z.to_nat (e - sti j)) (sti j) (trn j (j + 1)) ->
  length p2 = lanes P -> length p3 = lanes P ->
  PInv j r0 e {| st_res := res; st_t2 := t2; st_t3 := t3;
                 st_ptmp2 := p2; st_ptmp3 := p3 |}.
Proof. unfold PInv. cbn. auto. Qed.

Lemma pair_range j i :
  (0 <= j)%Z -> (j + 1 < size)%Z -> (sti j <= i < eni j)%Z ->
  (0 <= i < size)%Z /\ (if FT then i <= j else j <= i)%Z
  /\ (if FT then i <= j + 1 else j + 1 <= i)%Z.
Proof. unfold starti, endi. destruct FT; lia. Qed.

Lemma pair_range_le j :
  (0 <= j)%Z -> (j + 1 < size)%Z -> (0 <= sti j <= eni j)%Z.
Proof. unfold starti, endi. destruct FT; lia. Qed.

Lemma aStart_range j :
  (0 <= j)%Z -> (j + 1 < size)%Z -> (sti j <= aStart j <= eni j)%Z.
Proof.
  intros H0 H1. pose proof (pair_range_le j H0 H1).
  unfold alignedStart.
  pose proof (ei_alignmentOffset_range P (res_addr + sti j) (eni j - sti j)
                ltac:(lia)).
  lia.
Qed.

Lemma lanes_Z : Z.of_nat (lanes P) = Z.pos (PacketSize P).
Proof. unfold lanes. apply positive_nat_Z. Qed.

Lemma acc_scalar_step t p T n lo (f : Z -> Scalar) v :
  t + ei_predux p = T + zsum n lo f ->
  v = f (lo + Z.of_nat n)%Z ->
  (t + v) + ei_predux p = T + zsum (S n) lo f.
Proof.
  intros H Hv. cbn [zsum]. rewrite <- Hv.
  transitivity ((t + ei_predux p) + v); [ring|]. rewrite H. ring.
Qed.

Lemma acc_packet_step t p p' T n m lo (f : Z -> Scalar) :
  t + ei_predux p = T + zsum n lo f ->
  ei_predux p' = zsum m (lo + Z.of_nat n)%Z f + ei_predux p ->
  t + ei_predux p' = T + zsum (n + m) lo f.
Proof.
  intros H Hp. rewrite zsum_app, Hp.
  transitivity ((t + ei_predux p) + zsum m (lo + Z.of_nat n)%Z f); [ring|].
  rewrite H. ring.
Qed.

Lemma aEnd_range j :
  (0 <= j)%Z -> (j + 1 < size)%Z ->
  (aStart j <= aEnd j <= eni j)%Z /\
  (0 <= (eni j - aStart j) / Z.pos (PacketSize P))%Z /\
  aEnd j = (aStart j + Z.pos (PacketSize P)
                       * ((eni j - aStart j) / Z.pos (PacketSize P)))%Z.
Proof.
  intros H0 H1. pose proof (aStart_range j H0 H1) as Ha.
  unfold alignedEnd. fold (aStart j).
  set (d := (eni j - aStart j)%Z) in *.
  set (pz := Z.pos (PacketSize P)).
  assert (0 <= d)%Z by (unfold d; lia).
  pose proof (Z.div_pos d pz ltac:(lia) ltac:(lia)).
  pose proof (Z.mul_div_le d pz ltac:(lia)).
  repeat split; try lia.
Qed.

Definition blocked_lo : Z :=
  if FT then bound StorageOrder UpLo size else 0%Z.
Definition remaining_lo : Z :=
  if FT then 0%Z else bound StorageOrder UpLo size.

Definition blocked_delta (k : Z) : Scalar :=
  zsum (Z.to_nat (bound0 size / 2)) 0
    (fun m => pair_delta (blocked_lo + 2 * m)%Z k).

Definition remaining_delta (k : Z) : Scalar :=
  zsum (Z.to_nat (size - bound0 size)) remaining_lo (fun c => col_delta c k).

Definition kernel_delta (k : Z) : Scalar :=
  blocked_delta k + remaining_delta k.

Lemma blocked_bounds :
  (0 <= size)%Z ->
  (if FT then size else bound StorageOrder UpLo size)
  = (blocked_lo + 2 * (bound0 size / 2))%Z
  /\ (0 <= blocked_lo)%Z /\ (0 <= bound0 size / 2)%Z
  /\ (blocked_lo + 2 * (bound0 size / 2) <= size)%Z.
Proof.
  intros Hs. pose proof (bound0_range size Hs). pose proof (bound0_even size).
  unfold blocked_lo, bound. destruct FT; lia.
Qed.

(** *** The loops on addressable buffers *)

Hypothesis Hlhs : lines_addressable StorageOrder UpLo size lhs lhsStride.
Hypothesis Hrhs : (size <= Z.of_nat (length rhs))%Z.

Lemma rd_line c i :
  (0 <= c < size)%Z -> (0 <= i < size)%Z ->
  (if FT then i <= c else c <= i)%Z ->
  rd lhs (c * lhsStride + i)%Z = Some (line c i).
Proof. intros Hc Hi Hs. apply rd_ok. apply Hlhs; assumption. Qed.

Lemma rd_rhs i : (0 <= i < size)%Z -> rd rhs i = Some (gt rhs i).
Proof. intros Hi. apply rd_ok. lia. Qed.

(** *** The one-column fallback *)

Lemma single_step_ok j t1 i (st : list Scalar * Scalar) :
  (0 <= j < size)%Z -> (0 <= i < size)%Z ->
  (if FT then i <= j else j <= i)%Z ->
  (size <= Z.of_nat (length (fst st)))%Z ->
  exists r',
    single_step StorageOrder ConjugateLhs ConjugateRhs lhs lhsStride rhs
      j t1 i st
    = Some (r', snd st + pmul c1 (line j i) (gt rhs i))
    /\ Upd (single i (pmul c0 (line j i) t1)) (fst st) r'.
Proof.
  intros Hj Hi Hs Hlen. unfold single_step.
  rewrite (rd_line j i) by assumption. cbn [obind].
  destruct (add_at_Upd (fst st) i (pmul c0 (line j i) t1)) as (r' & E & U);
    [lia|].
  rewrite E. cbn [obind]. rewrite rd_rhs by assumption. cbn [obind].
  exists r'. split; [reflexivity | exact U].
Qed.

Lemma single_column_Upd j res :
  (0 <= j < size)%Z -> (size <= Z.of_nat (length res))%Z ->
  exists res',
    single_column StorageOrder UpLo ConjugateLhs ConjugateRhs size lhs
      lhsStride rhs alpha j res = Some res'
    /\ Upd (col_delta j) res res'.
Proof.
  intros Hj Hlen. unfold single_column.
  rewrite rd_rhs by assumption. cbn [obind].
  fold (tcol j).
  assert (Hjj : (if FT then j <= j else j <= j)%Z) by (destruct FT; lia).
  rewrite (rd_line j j Hj Hj Hjj). cbn [obind].
  destruct (add_at_Upd res j (pmul c0 (line j j) (tcol j))) as (r1 & E1 & U1);
    [lia|].
  rewrite E1. cbn [obind].
  fold (rng_lo j) (rng_hi j).
  assert (Hrng : (0 <= rng_lo j <= rng_hi j /\ rng_hi j <= size)%Z)
    by (unfold rng_lo, rng_hi; destruct FT; lia).
  unfold for_loop. rewrite trip_count_1.
  set (n := Z.to_nat (rng_hi j - rng_lo j)).
  destruct (iterate_inv
    (fun m (st : list Scalar * Scalar) =>
       Upd (on_range (rng_lo j) (rng_lo j + Z.of_nat m)%Z
              (fun i => pmul c0 (line j i) (tcol j))) r1 (fst st)
       /\ snd st = zsum m (rng_lo j) (fun i => pmul c1 (line j i) (gt rhs i)))
    (single_step StorageOrder ConjugateLhs ConjugateRhs lhs lhsStride rhs
       j (tcol j)) 1 n (rng_lo j) (r1, 0)) as (st & Es & Us & Ts).
  { cbn [fst snd zsum]. split; [|reflexivity].
    replace (rng_lo j + Z.of_nat 0)%Z with (rng_lo j) by lia.
    eapply Upd_ext; [|apply Upd_zero].
    intros k _. symmetry. apply on_range_empty. }
  { intros m [r t] Hm [Ur Tr]. cbn [fst snd] in Ur, Tr.
    set (i := (rng_lo j + 1 * Z.of_nat m)%Z).
    assert (Hi : (rng_lo j <= i < rng_hi j)%Z) by (unfold i; lia).
    destruct (single_step_ok j (tcol j) i (r, t)) as (r' & E & U).
    { exact Hj. } { lia. }
    { unfold rng_lo, rng_hi in Hi. destruct FT; lia. }
    { cbn [fst]. rewrite (proj1 Ur), (proj1 U1). exact Hlen. }
    cbn [fst snd] in E, U. rewrite E. eexists; split; [reflexivity|].
    cbn [fst snd zsum]. split.
    - replace (rng_lo j + Z.of_nat (S m))%Z with (i + 1)%Z by (unfold i; lia).
      apply (Upd_on_range_step _ i 1 _
               (fun i => pmul c0 (line j i) (tcol j)) r1 r r');
        [lia | lia | reflexivity | | ].
      + replace i with (rng_lo j + Z.of_nat m)%Z by (unfold i; lia). exact Ur.
      + eapply Upd_ext; [|exact U]. intros k _. symmetry.
        apply on_range_single.
    - rewrite Tr. f_equal. unfold i. f_equal; f_equal; lia. }
  rewrite Es. cbn [obind].
  destruct (add_at_Upd (fst st) j (alpha * snd st)) as (r2 & E2 & U2).
  { rewrite (proj1 Us), (proj1 U1). lia. }
  rewrite E2. exists r2. split; [reflexivity|].
  eapply Upd_ext; [|exact (Upd_trans _ _ _ _ _ (Upd_trans _ _ _ _ _ U1 Us) U2)].
  intros k _. cbn beta. unfold col_delta. rewrite Ts.
  replace (rng_lo j + Z.of_nat n)%Z with (rng_hi j) by (unfold n; lia).
  fold n. unfold single. destruct (Z.eqb_spec k j); ring.
Qed.

(** *** The two-column body *)

Lemma head_step_ok j r0 i st :
  (0 <= j)%Z -> (j + 1 < size)%Z -> (size <= Z.of_nat (length r0))%Z ->
  (sti j <= i < aStart j)%Z ->
  PInv j r0 i st ->
  exists st',
    head_step lhs lhsStride rhs j (tcol j) (tcol (j + 1)) i st = Some st'
    /\ PInv j r0 (i + 1)%Z st'.
Proof.
  intros H0 H1 Hlen Hi (U & T2 & T3 & L2 & L3).
  pose proof (aStart_range j H0 H1) as Ha.
  destruct (pair_range j i H0 H1 ltac:(lia)) as (Hi' & Hs0 & Hs1).
  unfold head_step.
  rewrite (rd_line j i) by (first [assumption | lia]). cbn [obind].
  rewrite (rd_line (j + 1) i) by (first [assumption | lia]). cbn [obind].
  destruct (add_at_Upd (st_res st) i
              (tcol j * line j i + tcol (j + 1) * line (j + 1) i))
    as (r' & E & U').
  { rewrite (proj1 U). lia. }
  rewrite E. cbn [obind]. rewrite rd_rhs by assumption. cbn [obind].
  eexists; split; [reflexivity|].
  assert (Hd : (i <? aStart j)%Z = true) by (apply Z.ltb_lt; lia).
  assert (Hn : Z.to_nat (i + 1 - sti j) = S (Z.to_nat (i - sti j))) by lia.
  assert (Hi2 : (sti j + Z.of_nat (Z.to_nat (i - sti j)))%Z = i) by lia.
  apply PInv_intro; try assumption.
  - apply (Upd_on_range_step (sti j) i 1 (dir2 j) (dir2 j) r0 (st_res st) r');
      [lia | lia | reflexivity | exact U | ].
    eapply Upd_ext; [|exact U']. intros k _.
    rewrite on_range_single. unfold dir2. rewrite Hd. reflexivity.
  - rewrite Hn. apply acc_scalar_step; [exact T2|].
    rewrite Hi2. unfold trn. rewrite Hd. reflexivity.
  - rewrite Hn. apply acc_scalar_step; [exact T3|].
    rewrite Hi2. unfold trn. rewrite Hd. reflexivity.
Qed.

Lemma tail_step_ok j r0 i st :
  (0 <= j)%Z -> (j + 1 < size)%Z -> (size <= Z.of_nat (length r0))%Z ->
  (aStart j <= i < eni j)%Z ->
  PInv j r0 i st ->
  exists st',
    tail_step StorageOrder ConjugateLhs ConjugateRhs lhs lhsStride rhs
      j (tcol j) (tcol (j + 1)) i st = Some st'
    /\ PInv j r0 (i + 1)%Z st'.
Proof.
  intros H0 H1 Hlen Hi (U & T2 & T3 & L2 & L3).
  pose proof (aStart_range j H0 H1) as Ha.
  destruct (pair_range j i H0 H1 ltac:(lia)) as (Hi' & Hs0 & Hs1).
  unfold tail_step.
  rewrite (rd_line j i) by (first [assumption | lia]). cbn [obind].
  rewrite (rd_line (j + 1) i) by (first [assumption | lia]). cbn [obind].
  destruct (add_at_Upd (st_res st) i
              (pmul c0 (line j i) (tcol j)
               + pmul c0 (line (j + 1) i) (tcol (j + 1))))
    as (r' & E & U').
  { rewrite (proj1 U). lia. }
  rewrite E. cbn [obind]. rewrite rd_rhs by assumption. cbn [obind].
  eexists; split; [reflexivity|].
  assert (Hd : (i <? aStart j)%Z = false) by (apply Z.ltb_ge; lia).
  assert (Hn : Z.to_nat (i + 1 - sti j) = S (Z.to_nat (i - sti j))) by lia.
  assert (Hi2 : (sti j + Z.of_nat (Z.to_nat (i - sti j)))%Z = i) by lia.
  apply PInv_intro; try assumption.
  - apply (Upd_on_range_step (sti j) i 1 (dir2 j) (dir2 j) r0 (st_res st) r');
      [lia | lia | reflexivity | exact U | ].
    eapply Upd_ext; [|exact U']. intros k _.
    rewrite on_range_single. unfold dir2. rewrite Hd. reflexivity.
  - rewrite Hn. apply acc_scalar_step; [exact T2|].
    rewrite Hi2. unfold trn. rewrite Hd. reflexivity.
  - rewrite Hn. apply acc_scalar_step; [exact T3|].
    rewrite Hi2. unfold trn. rewrite Hd. reflexivity.
Qed.

Lemma packet_step_ok j r0 i st :
  (0 <= j)%Z -> (j + 1 < size)%Z -> (size <= Z.of_nat (length r0))%Z ->
  (aStart j <= i)%Z -> (i + Z.pos (PacketSize P) <= eni j)%Z ->
  PInv j r0 i st ->
  exists st',
    packet_step P StorageOrder ConjugateLhs ConjugateRhs lhs lhsStride rhs
      j (ei_pset1 P (tcol j)) (ei_pset1 P (tcol (j + 1))) i st = Some st'
    /\ PInv j r0 (i + Z.pos (PacketSize P))%Z st'.
Proof.
  intros H0 H1 Hlen Hi Hie (U & T2 & T3 & L2 & L3).
  pose proof (aStart_range j H0 H1) as Ha.
  pose proof lanes_Z as HL. set (L := lanes P) in *.
  rewrite <- HL in *.
  destruct (pair_range j i H0 H1 ltac:(lia)) as (Hi' & Hs0 & Hs1).
  destruct (pair_range j (i + Z.of_nat L - 1) H0 H1 ltac:(lia))
    as (He' & He0 & He1).
  pose proof (Hlhs j i ltac:(lia) Hi' Hs0) as B0.
  pose proof (Hlhs j _ ltac:(lia) He' He0) as B0'.
  pose proof (Hlhs (j + 1)%Z i ltac:(lia) Hi' Hs1) as B1.
  pose proof (Hlhs (j + 1)%Z _ ltac:(lia) He' He1) as B1'.
  pose proof (proj1 U) as LU.
  unfold packet_step, ei_ploadu, ei_pload. fold L.
  rewrite (load_lanes_ok L lhs (j * lhsStride + i)) by lia. cbn [obind].
  rewrite (load_lanes_ok L lhs ((j + 1) * lhsStride + i)) by lia.
  cbn [obind].
  rewrite (load_lanes_ok L rhs i) by lia. cbn [obind].
  rewrite (load_lanes_ok L (st_res st) i) by lia. cbn [obind].
  unfold ei_pset1. fold L.
  match goal with |- context [ei_pstore _ _ ?p] => set (Xi := p) end.
  assert (LX : length Xi = L).
  { unfold Xi. apply length_packet_pmadd;
      [apply length_window | apply repeat_length | ].
    apply length_packet_pmadd;
      [apply length_window | apply repeat_length | apply length_window]. }
  destruct (ei_pstore_ok Xi (st_res st) i) as (r' & E & Lr & G);
    [lia | lia |].
  rewrite E. cbn [obind]. eexists; split; [reflexivity|].
  assert (Hn : Z.to_nat (i + Z.of_nat L - sti j)
               = (Z.to_nat (i - sti j) + L)%nat) by lia.
  assert (Hi2 : (sti j + Z.of_nat (Z.to_nat (i - sti j)))%Z = i) by lia.
  assert (Hd : forall m, (i <= m)%Z -> (m <? aStart j)%Z = false)
    by (intros; apply Z.ltb_ge; lia).
  apply PInv_intro.
  - apply (Upd_on_range_step (sti j) i (Z.of_nat L) (dir2 j) (dir2 j)
             r0 (st_res st) r'); [lia | lia | reflexivity | exact U | ].
    split; [exact Lr|]. intros k Hk. rewrite G by lia. rewrite LX.
    unfold on_range.
    destruct (Z.leb_spec i k); destruct (Z.ltb_spec k (i + Z.of_nat L));
      cbn [andb]; try ring.
    unfold Xi.
    rewrite (nth_packet_pmadd _ _ _ _ L);
      [ | apply length_window | apply repeat_length
        | apply length_packet_pmadd;
          [apply length_window | apply repeat_length | apply length_window]
        | lia ].
    rewrite (nth_packet_pmadd _ _ _ _ L);
      [ | apply length_window | apply repeat_length | apply length_window
        | lia ].
    rewrite !nth_window, !nth_repeat_lt by lia.
    unfold dir2. rewrite Hd by lia. unfold pmadd, line.
    replace (j * lhsStride + i + Z.of_nat (Z.to_nat (k - i)))%Z
      with (j * lhsStride + k)%Z by lia.
    replace ((j + 1) * lhsStride + i + Z.of_nat (Z.to_nat (k - i)))%Z
      with ((j + 1) * lhsStride + k)%Z by lia.
    replace (i + Z.of_nat (Z.to_nat (k - i)))%Z with k by lia.
    ring.
  - rewrite Hn. apply (acc_packet_step _ (st_ptmp2 st)); [exact T2|].
    rewrite (ei_predux_pmadd _ L lhs rhs _ _ i _ L2). f_equal.
    rewrite Hi2. apply zsum_ext. intros m Hm. unfold trn.
    rewrite Hd by lia. unfold line. f_equal; f_equal; lia.
  - rewrite Hn. apply (acc_packet_step _ (st_ptmp3 st)); [exact T3|].
    rewrite (ei_predux_pmadd _ L lhs rhs _ _ i _ L3). f_equal.
    rewrite Hi2. apply zsum_ext. intros m Hm. unfold trn.
    rewrite Hd by lia. unfold line. f_equal; f_equal; lia.
  - apply length_packet_pmadd; [apply length_window | apply length_window | ].
    exact L2.
  - apply length_packet_pmadd; [apply length_window | apply length_window | ].
    exact L3.
Qed.

Lemma pair_loops_ok j st :
  (0 <= j)%Z -> (j + 1 < size)%Z ->
  (size <= Z.of_nat (length (st_res st)))%Z ->
  st_t2 st + ei_predux (st_ptmp2 st) = pair_t2 j ->
  st_t3 st + ei_predux (st_ptmp3 st) = pair_t3 j ->
  length (st_ptmp2 st) = lanes P -> length (st_ptmp3 st) = lanes P ->
  exists sf,
    (s1 <- for_loop (sti j) (aStart j) 1
             (head_step lhs lhsStride rhs j (tcol j) (tcol (j + 1))) st ;;
     s2 <- for_loop (aStart j) (aEnd j) (Z.pos (PacketSize P))
             (packet_step P StorageOrder ConjugateLhs ConjugateRhs lhs
                lhsStride rhs j (ei_pset1 P (tcol j))
                (ei_pset1 P (tcol (j + 1)))) s1 ;;
     for_loop (aEnd j) (eni j) 1
       (tail_step StorageOrder ConjugateLhs ConjugateRhs lhs lhsStride rhs
          j (tcol j) (tcol (j + 1))) s2) = Some sf
    /\ PInv j (st_res st) (eni j) sf.
Proof.
  intros H0 H1 Hlen T2 T3 L2 L3.
  pose proof (aStart_range j H0 H1) as Ha.
  destruct (aEnd_range j H0 H1) as (He & Hq & Heq).
  destruct (for_loop_inv_to (PInv j (st_res st))
              (head_step lhs lhsStride rhs j (tcol j) (tcol (j + 1)))
              (sti j) (aStart j) 1 (aStart j - sti j) st)
    as (s1 & E1 & I1); [lia | lia | lia | | | ].
  { split; [|split; [|split; [|split]]]; try assumption.
    - eapply Upd_ext; [|apply Upd_zero].
      intros k _. symmetry. apply on_range_empty.
    - rewrite T2. replace (Z.to_nat (sti j - sti j)) with O by lia.
      cbn [zsum]. ring.
    - rewrite T3. replace (Z.to_nat (sti j - sti j)) with O by lia.
      cbn [zsum]. ring. }
  { intros i s Hi Hi' HI. apply head_step_ok; try assumption. lia. }
  rewrite E1. cbn [obind].
  destruct (for_loop_inv_to (PInv j (st_res st))
              (packet_step P StorageOrder ConjugateLhs ConjugateRhs lhs
                 lhsStride rhs j (ei_pset1 P (tcol j))
                 (ei_pset1 P (tcol (j + 1))))
              (aStart j) (aEnd j) (Z.pos (PacketSize P))
              ((eni j - aStart j) / Z.pos (PacketSize P)) s1)
    as (s2 & E2 & I2); [lia | lia | exact Heq | exact I1 | | ].
  { intros i s Hi Hi' HI. apply packet_step_ok; try assumption. lia. }
  rewrite E2. cbn [obind].
  destruct (for_loop_inv_to (PInv j (st_res st))
              (tail_step StorageOrder ConjugateLhs ConjugateRhs lhs lhsStride
                 rhs j (tcol j) (tcol (j + 1)))
              (aEnd j) (eni j) 1 (eni j - aEnd j) s2)
    as (s3 & E3 & I3); [lia | lia | lia | exact I2 | | ].
  { intros i s Hi Hi' HI. apply tail_step_ok; try assumption. lia. }
  exists s3. split; assumption.
Qed.

Lemma column_pair_Upd j res :
  (0 <= j)%Z -> (j + 1 < size)%Z -> (size <= Z.of_nat (length res))%Z ->
  exists res',
    column_pair P StorageOrder UpLo ConjugateLhs ConjugateRhs size lhs
      lhsStride rhs res_addr alpha j res = Some res'
    /\ Upd (pair_delta j) res res'.
Proof.
  intros H0 H1 Hlen. unfold column_pair.
  rewrite (rd_rhs j) by lia. cbn [obind].
  rewrite (rd_rhs (j + 1)) by lia. cbn [obind].
  fold (tcol j) (tcol (j + 1)).
  assert (Rjj : rd lhs (j * lhsStride + j)%Z = Some (line j j))
    by (apply rd_line; try lia; destruct FT; lia).
  assert (R11 : rd lhs ((j + 1) * lhsStride + (j + 1))%Z
                = Some (line (j + 1) (j + 1)))
    by (apply rd_line; try lia; destruct FT; lia).
  assert (R10 : FT = true ->
                rd lhs ((j + 1) * lhsStride + j)%Z = Some (line (j + 1) j))
    by (intros EF; apply rd_line; try lia; rewrite EF; lia).
  assert (R01 : FT = false ->
                rd lhs (j * lhsStride + (j + 1))%Z = Some (line j (j + 1)))
    by (intros EF; apply rd_line; try lia; rewrite EF; lia).
  rewrite Rjj. cbn [obind].
  destruct (add_at_Upd res j (pmul c0 (line j j) (tcol j)))
    as (r1 & E1 & U1); [lia|].
  rewrite E1. cbn [obind]. pose proof (proj1 U1) as LU1.
  match goal with
  | |- context [obind (if FT then ?a else ?b) _] =>
      assert (Hblock : exists st, (if FT then a else b)
    = Some st
    /\ Upd (fun k => single j (pair_diag0 j) k
                     + single (j + 1) (pair_diag1 j) k) res (st_res st)
    /\ st_t2 st + ei_predux (st_ptmp2 st) = pair_t2 j
    /\ st_t3 st + ei_predux (st_ptmp3 st) = pair_t3 j
    /\ length (st_ptmp2 st) = lanes P /\ length (st_ptmp3 st) = lanes P)
  end.
  { unfold pair_diag0, pair_diag1, pair_t2, pair_t3.
    destruct FT eqn:EFT.
    - rewrite R11, (R10 eq_refl). cbn [obind].
      destruct (add_at_Upd r1 (j + 1)
                  (pmul c0 (line (j + 1) (j + 1)) (tcol (j + 1))))
        as (r2 & E2 & U2); [lia|].
      rewrite E2. cbn [obind]. pose proof (proj1 U2) as LU2.
      destruct (add_at_Upd r2 j (pmul c0 (line (j + 1) j) (tcol (j + 1))))
        as (r3 & E3 & U3); [lia|].
      rewrite E3. cbn [obind].
      eexists; split; [reflexivity|].
      cbn [st_res st_t2 st_t3 st_ptmp2 st_ptmp3]. unfold ei_pset1.
      rewrite ei_predux_repeat_zero, !repeat_length.
      repeat split; try ring.
      + rewrite (proj1 U3). lia.
      + intros k Hk. rewrite (proj2 U3), (proj2 U2), (proj2 U1) by lia.
        unfold single.
        destruct (Z.eqb_spec k j); destruct (Z.eqb_spec k (j + 1)); ring.
    - rewrite R11, (R01 eq_refl). cbn [obind].
      destruct (add_at_Upd r1 (j + 1)
                  (pmul c0 (line j (j + 1)) (tcol j)
                   + pmul c0 (line (j + 1) (j + 1)) (tcol (j + 1))))
        as (r2 & E2 & U2); [lia|].
      rewrite E2. cbn [obind].
      eexists; split; [reflexivity|].
      cbn [st_res st_t2 st_t3 st_ptmp2 st_ptmp3]. unfold ei_pset1.
      rewrite ei_predux_repeat_zero, !repeat_length.
      repeat split; try ring.
      + rewrite (proj1 U2). lia.
      + intros k Hk. rewrite (proj2 U2), (proj2 U1) by lia.
        unfold single.
        destruct (Z.eqb_spec k j); destruct (Z.eqb_spec k (j + 1)); ring. }
  destruct Hblock as (st & Est & Ust & T2 & T3 & L2 & L3).
  rewrite Est. cbn [obind].
  pose proof (proj1 Ust) as LUst.
  destruct (pair_loops_ok j st H0 H1 ltac:(lia) T2 T3 L2 L3)
    as (sf & Ef & (Uf & F2 & F3 & _ & _)).
  unfold obind in Ef.
  destruct (for_loop (sti j) (aStart j) 1 _ st) as [s1|]; [|discriminate].
  cbn [obind].
  destruct (for_loop (aStart j) (aEnd j) _ _ s1) as [s2|]; [|discriminate].
  cbn [obind]. rewrite Ef. cbn [obind].
  pose proof (proj1 Uf) as LUf.
  destruct (add_at_Upd (st_res sf) j
              (alpha * (st_t2 sf + ei_predux (st_ptmp2 sf))))
    as (r4 & E4 & U4); [lia|].
  rewrite E4. cbn [obind]. pose proof (proj1 U4) as LU4.
  destruct (add_at_Upd r4 (j + 1)
              (alpha * (st_t3 sf + ei_predux (st_ptmp3 sf))))
    as (r5 & E5 & U5); [lia|].
  rewrite E5. exists r5. split; [reflexivity|].
  pose proof (proj1 U5) as LU5.
  split; [lia|].
  intros k Hk.
  rewrite (proj2 U5), (proj2 U4), (proj2 Uf), (proj2 Ust) by lia.
  unfold pair_delta. rewrite F2, F3. unfold single.
  destruct (Z.eqb_spec k j); destruct (Z.eqb_spec k (j + 1)); ring.
Qed.

(** *** The two loops over the columns *)

Lemma blocked_columns_Upd res :
  (0 <= size)%Z -> (size <= Z.of_nat (length res))%Z ->
  exists res',
    blocked_columns P StorageOrder UpLo ConjugateLhs ConjugateRhs size lhs
      lhsStride rhs res_addr alpha res = Some res'
    /\ Upd blocked_delta res res'.
Proof.
  intros Hs Hlen. destruct (blocked_bounds Hs) as (Ehi & Hlo & Hq & Hhi).
  unfold blocked_columns. fold blocked_lo. rewrite Ehi.
  unfold for_loop. rewrite trip_count_exact by lia.
  destruct (iterate_inv
    (fun m r => Upd (fun k => zsum m 0
                       (fun m' => pair_delta (blocked_lo + 2 * m')%Z k)) res r)
    (column_pair P StorageOrder UpLo ConjugateLhs ConjugateRhs size lhs
       lhsStride rhs res_addr alpha)
    2 (Z.to_nat (bound0 size / 2)) blocked_lo res) as (r & E & U).
  - apply Upd_zero.
  - intros m r Hm U.
    destruct (column_pair_Upd (blocked_lo + 2 * Z.of_nat m)%Z r)
      as (r' & E' & U'); [lia | lia | rewrite (proj1 U); lia |].
    exists r'. split; [exact E'|].
    eapply Upd_ext; [|exact (Upd_trans _ _ _ _ _ U U')].
    intros k _. cbn [zsum]. rewrite Z.add_0_l. reflexivity.
  - exists r. split; assumption.
Qed.

Lemma remaining_columns_Upd res :
  (0 <= size)%Z -> (size <= Z.of_nat (length res))%Z ->
  exists res',
    remaining_columns StorageOrder UpLo ConjugateLhs ConjugateRhs size lhs
      lhsStride rhs alpha res = Some res'
    /\ Upd remaining_delta res res'.
Proof.
  intros Hs Hlen. pose proof (bound0_range size Hs) as Hb.
  unfold remaining_columns. fold remaining_lo.
  assert (Ehi : (if FT then bound StorageOrder UpLo size else size)
                = (remaining_lo + 1 * (size - bound0 size))%Z)
    by (unfold remaining_lo, bound; destruct FT; lia).
  assert (Hlo : (0 <= remaining_lo
                 /\ remaining_lo + (size - bound0 size) <= size)%Z)
    by (unfold remaining_lo, bound; destruct FT; lia).
  rewrite Ehi. unfold for_loop. rewrite trip_count_exact by lia.
  destruct (iterate_inv
    (fun m r => Upd (fun k => zsum m remaining_lo (fun c => col_delta c k))
                  res r)
    (single_column StorageOrder UpLo ConjugateLhs ConjugateRhs size lhs
       lhsStride rhs alpha)
    1 (Z.to_nat (size - bound0 size)) remaining_lo res) as (r & E & U).
  - apply Upd_zero.
  - intros m r Hm U.
    destruct (single_column_Upd (remaining_lo + 1 * Z.of_nat m)%Z r)
      as (r' & E' & U'); [lia | rewrite (proj1 U); lia |].
    exists r'. split; [exact E'|].
    eapply Upd_ext; [|exact (Upd_trans _ _ _ _ _ U U')].
    intros k _. cbn [zsum]. rewrite Z.mul_1_l. reflexivity.
  - exists r. split; assumption.
Qed.

Lemma columns_Upd res :
  (0 <= size)%Z -> (size <= Z.of_nat (length res))%Z ->
  exists res',
    (r <- blocked_columns P StorageOrder UpLo ConjugateLhs ConjugateRhs size
            lhs lhsStride rhs res_addr alpha res ;;
     remaining_columns StorageOrder UpLo ConjugateLhs ConjugateRhs size lhs
       lhsStride rhs alpha r) = Some res'
    /\ Upd kernel_delta res res'.
Proof.
  intros Hs Hlen.
  destruct (blocked_columns_Upd res Hs Hlen) as (r1 & E1 & U1).
  rewrite E1. cbn [obind].
  destruct (remaining_columns_Upd r1 Hs) as (r2 & E2 & U2);
    [rewrite (proj1 U1); exact Hlen|].
  exists r2. split; [exact E2|]. exact (Upd_trans _ _ _ _ _ U1 U2).
Qed.

End Deltas.

(** ** The operand copy and the whole kernel *)

Fixpoint strided (n : nat) (buf : list Scalar) (i incr : Z) : list Scalar :=
  match n with
  | O => []
  | S n' => gt buf i :: strided n' buf (i + incr)%Z incr
  end.

Lemma length_strided n buf i incr : length (strided n buf i incr) = n.
Proof. revert i; induction n as [|n IH]; intros i; cbn; auto. Qed.

Lemma nth_strided n buf i incr l :
  (l < n)%nat ->
  nth l (strided n buf i incr) 0 = gt buf (i + Z.of_nat l * incr)%Z.
Proof.
  revert i l; induction n as [|n IH]; intros i [|l] Hl; cbn [strided nth];
    try lia.
  - f_equal. lia.
  - rewrite IH by lia. f_equal. lia.
Qed.

(** The operand values the two loops read. *)
Definition effective_rhs (size : Z) (_rhs : list Scalar) (rhsIncr : Z)
    : list Scalar :=
  if (rhsIncr =? 1)%Z then _rhs else strided (Z.to_nat size) _rhs 0 rhsIncr.

Lemma copy_rhs_ok size _rhs rhsIncr :
  (0 <= size)%Z -> rhs_fits size _rhs rhsIncr ->
  copy_rhs size _rhs rhsIncr
  = Some (strided (Z.to_nat size) _rhs 0 rhsIncr).
Proof.
  intros Hs Hfit. unfold copy_rhs, for_loop. rewrite trip_count_1, Z.sub_0_r.
  destruct (iterate_inv
    (fun m (r : list Scalar) =>
       length r = Z.to_nat size /\
       forall k, (0 <= k < Z.of_nat m)%Z -> gt r k = gt _rhs (k * rhsIncr)%Z)
    (fun i r => x <- rd _rhs (i * rhsIncr)%Z ;; wr r i x)
    1 (Z.to_nat size) 0%Z (repeat 0 (Z.to_nat size))) as (r & E & L & G).
  - split; [apply repeat_length | intros; lia].
  - intros m r Hm [L G]. rewrite Z.add_0_l, Z.mul_1_l.
    rewrite rd_ok by (apply Hfit; lia). cbn [obind].
    rewrite wr_ok by lia. eexists; split; [reflexivity|].
    split; [rewrite length_upd; exact L|].
    intros k Hk. rewrite gt_upd by lia.
    destruct (Z.eqb_spec k (Z.of_nat m)) as [->|]; [reflexivity|].
    apply G. lia.
  - rewrite E. f_equal. apply list_ext_gt.
    + rewrite length_strided. exact L.
    + intros k Hk. rewrite G by lia. unfold gt at 2.
      rewrite nth_strided by lia. f_equal. rewrite Z2Nat.id by lia. lia.
Qed.

Lemma effective_rhs_length size _rhs rhsIncr :
  (0 <= size)%Z -> rhs_fits size _rhs rhsIncr ->
  (size <= Z.of_nat (length (effective_rhs size _rhs rhsIncr)))%Z.
Proof.
  intros Hs Hfit. unfold effective_rhs.
  destruct (Z.eqb_spec rhsIncr 1) as [->|].
  - destruct (Z.eq_dec size 0); [lia|].
    pose proof (Hfit (size - 1)%Z ltac:(lia)). lia.
  - rewrite length_strided. lia.
Qed.

Lemma gt_effective_rhs size _rhs rhsIncr i :
  (0 <= i < size)%Z ->
  gt (effective_rhs size _rhs rhsIncr) i = gt _rhs (i * rhsIncr)%Z.
Proof.
  intros Hi. unfold effective_rhs.
  destruct (Z.eqb_spec rhsIncr 1) as [->|].
  - f_equal. lia.
  - unfold gt at 1. rewrite nth_strided by lia. f_equal.
    rewrite Z2Nat.id by lia. lia.
Qed.

Lemma kernel_Upd StorageOrder UpLo ConjugateLhs ConjugateRhs
    size lhs lhsStride _rhs rhsIncr res_addr res alpha :
  valid_call StorageOrder UpLo size lhs lhsStride _rhs rhsIncr res ->
  exists res',
    ei_product_selfadjoint_vector P StorageOrder UpLo ConjugateLhs
      ConjugateRhs size lhs lhsStride _rhs rhsIncr res_addr res alpha
    = Some (res', scratch_events size rhsIncr)
    /\ Upd (kernel_delta StorageOrder UpLo ConjugateLhs ConjugateRhs size
              lhs lhsStride (effective_rhs size _rhs rhsIncr) res_addr alpha)
         res res'.
Proof.
  intros (Hs & Hl & Hr & Hres).
  destruct (columns_Upd StorageOrder UpLo ConjugateLhs ConjugateRhs size
              lhs lhsStride (effective_rhs size _rhs rhsIncr) res_addr alpha
              (holds_triangle_lines _ _ _ _ _ Hl) (effective_rhs_length _ _ _ Hs Hr) res Hs Hres)
    as (res' & E & U).
  exists res'. split; [|exact U].
  unfold ei_product_selfadjoint_vector, scratch_events.
  unfold effective_rhs in E.
  destruct (Z.eqb_spec rhsIncr 1) as [->|Hne].
  - cbn [obind]. unfold obind in *.
    destruct (blocked_columns _ _ _ _ _ _ _ _ _ _ _ _) as [r1|];
      [|discriminate].
    rewrite E. reflexivity.
  - rewrite copy_rhs_ok by assumption. cbn [obind]. unfold obind in *.
    destruct (blocked_columns _ _ _ _ _ _ _ _ _ _ _ _) as [r1|];
      [|discriminate].
    rewrite E. reflexivity.
Qed.

(** ** The scale factor zero *)

Section AlphaZero.

Variables (StorageOrder : StorageOrderT) (UpLo : UpLoT).
Variables (ConjugateLhs ConjugateRhs : bool).
Variables (size : Z) (lhs : list Scalar) (lhsStride : Z).
Variables (rhs : list Scalar) (res_addr : Z).

Lemma tcol_zero c : tcol ConjugateRhs rhs 0 c = 0.
Proof.
  unfold tcol, cjAlpha. fold (cj ConjugateRhs 0). rewrite cj_zero. ring.
Qed.

Lemma col_delta_zero c k :
  col_delta StorageOrder UpLo ConjugateLhs ConjugateRhs size lhs lhsStride
    rhs 0 c k = 0.
Proof.
  unfold col_delta, single, on_range. rewrite tcol_zero, !pmul_zero_r.
  destruct (k =? c)%Z; destruct (_ && _); ring.
Qed.

Lemma pair_delta_zero j k :
  pair_delta StorageOrder UpLo ConjugateLhs ConjugateRhs size lhs lhsStride
    rhs res_addr 0 j k = 0.
Proof.
  unfold pair_delta, pair_diag0, pair_diag1, single, on_range, dir2.
  rewrite !tcol_zero, !pmul_zero_r.
  repeat match goal with
         | |- context [if ?b then _ else _] => destruct b
         end; ring.
Qed.

Lemma kernel_delta_zero k :
  kernel_delta StorageOrder UpLo ConjugateLhs ConjugateRhs size lhs lhsStride
    rhs res_addr 0 k = 0.
Proof.
  unfold kernel_delta, blocked_delta, remaining_delta.
  match goal with
  | |- zsum ?n ?lo ?f + zsum ?n' ?lo' ?f' = _ =>
      rewrite (zsum_ext n lo f (fun _ => 0))
        by (intros; apply pair_delta_zero);
      rewrite (zsum_ext n' lo' f' (fun _ => 0))
        by (intros; apply col_delta_zero)
  end.
  rewrite !zsum_zero. ring.
Qed.

End AlphaZero.

Lemma gt_map_lt (f : Scalar -> Scalar) (l : list Scalar) k :
  (0 <= k < Z.of_nat (length l))%Z -> gt (map f l) k = f (gt l k).
Proof.
  intros Hk. unfold gt.
  rewrite (nth_indep _ 0 (f 0)) by (rewrite length_map; lia).
  apply map_nth.
Qed.

Lemma gt_repeat_zero n k : gt (repeat 0 n) k = 0.
Proof.
  unfold gt. generalize (Z.to_nat k) as m.
  induction n as [|n IH]; intros [|m]; cbn; auto.
Qed.

(** ** Only the stored triangle is used *)

Section TriangleOnly.

Variables (StorageOrder : StorageOrderT) (UpLo : UpLoT).
Variables (ConjugateLhs ConjugateRhs : bool).
Variables (size : Z) (lhs lhs' : list Scalar) (lhsStride : Z).
Variables (rhs : list Scalar) (res_addr : Z) (alpha : Scalar).

Local Abbreviation FT := (FirstTriangular StorageOrder UpLo).

Hypothesis Hagree :
  forall c i, (0 <= c < size)%Z -> (0 <= i < size)%Z ->
    (if FT then i <= c else c <= i)%Z ->
    line lhs lhsStride c i = line lhs' lhsStride c i.





End TriangleOnly.

(** ** The column pairs without the head of the inner range

    Under [head_agrees_at] a column pair adds what its two columns add in the
    one-column loop. *)

Lemma pmul_real h x y : IsComplex = false -> pmul h x y = x * y.
Proof.
  intros H. unfold pmul, cj. rewrite (ei_conj_real H).
  destruct (ConjLhs h), (ConjRhs h); reflexivity.
Qed.

Lemma zsum_pairs q lo (f : Z -> Scalar) :
  zsum q 0 (fun m => f (lo + 2 * m)%Z + f (lo + 2 * m + 1)%Z)
  = zsum (2 * q) lo f.
Proof.
  induction q as [|q IH]; [reflexivity|].
  replace (2 * S q)%nat with (S (S (2 * q))) by lia.
  cbn [zsum]. rewrite IH.
  replace (0 + Z.of_nat q)%Z with (Z.of_nat q) by lia.
  replace (lo + Z.of_nat (2 * q))%Z with (lo + 2 * Z.of_nat q)%Z by lia.
  replace (lo + Z.of_nat (S (2 * q)))%Z with (lo + 2 * Z.of_nat q + 1)%Z by lia.
  ring.
Qed.

Lemma cj_IsComplex b x : cj (IsComplex && b) x = cj b x.
Proof.
  destruct IsComplex eqn:E; [reflexivity|].
  unfold cj. rewrite (ei_conj_real E). destruct b; reflexivity.
Qed.

Section NoHead.

Variables (StorageOrder : StorageOrderT) (UpLo : UpLoT).
Variables (ConjugateLhs ConjugateRhs : bool).
Variables (size : Z) (lhs : list Scalar) (lhsStride : Z).
Variables (rhs : list Scalar) (res_addr : Z) (alpha : Scalar).

Local Abbreviation FT := (FirstTriangular StorageOrder UpLo).
Local Abbreviation c0 := (cj0 StorageOrder ConjugateLhs ConjugateRhs).
Local Abbreviation c1 := (cj1 StorageOrder ConjugateLhs ConjugateRhs).
Local Abbreviation ln := (line lhs lhsStride).
Local Abbreviation tc := (tcol ConjugateRhs rhs alpha).
Local Abbreviation cold :=
  (col_delta StorageOrder UpLo ConjugateLhs ConjugateRhs size lhs lhsStride
     rhs alpha).

Lemma dir2_head_agrees j i :
  head_agrees_at P StorageOrder UpLo ConjugateLhs ConjugateRhs size res_addr j ->
  (starti StorageOrder UpLo j <= i)%Z ->
  dir2 StorageOrder UpLo ConjugateLhs ConjugateRhs size lhs lhsStride rhs
    res_addr alpha j i
  = pmul c0 (ln j i) (tc j) + pmul c0 (ln (j + 1) i) (tc (j + 1)).
Proof.
  intros [Hreal|[[HR HL]|Hoff]] Hi; unfold dir2.
  - rewrite !(pmul_real _ _ _ Hreal).
    destruct (i <? _)%Z; [ring | reflexivity].
  - destruct (i <? _)%Z; [|reflexivity].
    unfold pmul, cj0. cbn [ConjLhs ConjRhs].
    rewrite HR, HL, xorb_nilpotent, andb_false_r. cbn [cj]. ring.
  - unfold alignedStart. rewrite Hoff.
    destruct (Z.ltb_spec i (starti StorageOrder UpLo j + 0)); [lia|].
    reflexivity.
Qed.

Lemma trn_head_agrees j c i :
  head_agrees_at P StorageOrder UpLo ConjugateLhs ConjugateRhs size res_addr j ->
  (starti StorageOrder UpLo j <= i)%Z ->
  trn StorageOrder UpLo ConjugateLhs ConjugateRhs size lhs lhsStride rhs
    res_addr j c i
  = pmul c1 (ln c i) (gt rhs i).
Proof.
  intros [Hreal|[[HR HL]|Hoff]] Hi; unfold trn.
  - rewrite (pmul_real _ _ _ Hreal), (ei_conj_real Hreal).
    destruct (i <? _)%Z; reflexivity.
  - destruct (i <? _)%Z; [|reflexivity].
    unfold pmul, cj1. cbn [ConjLhs ConjRhs].
    rewrite HR, HL, cj_IsComplex.
    destruct (IsRowMajor StorageOrder); reflexivity.
  - unfold alignedStart. rewrite Hoff.
    destruct (Z.ltb_spec i (starti StorageOrder UpLo j + 0)); [lia|].
    reflexivity.
Qed.

Lemma pair_delta_cols j k :
  head_agrees_at P StorageOrder UpLo ConjugateLhs ConjugateRhs size res_addr j ->
  (0 <= j)%Z -> (j + 1 < size)%Z ->
  pair_delta StorageOrder UpLo ConjugateLhs ConjugateRhs size lhs lhsStride
    rhs res_addr alpha j k
  = cold j k + cold (j + 1)%Z k.
Proof.
  intros Hh H0 H1. unfold pair_delta.
  set (n := Z.to_nat (endi StorageOrder UpLo size j - starti StorageOrder UpLo j)).
  rewrite (zsum_ext n _ (trn _ _ _ _ _ _ _ _ _ j j)
             (fun i => pmul c1 (ln j i) (gt rhs i)))
    by (intros; apply trn_head_agrees; [assumption | lia]).
  rewrite (zsum_ext n _ (trn _ _ _ _ _ _ _ _ _ j (j + 1)%Z)
             (fun i => pmul c1 (ln (j + 1) i) (gt rhs i)))
    by (intros; apply trn_head_agrees; [assumption | lia]).
  assert (Hd : on_range (starti StorageOrder UpLo j)
                 (endi StorageOrder UpLo size j)
                 (dir2 StorageOrder UpLo ConjugateLhs ConjugateRhs size lhs
                    lhsStride rhs res_addr alpha j) k
               = on_range (starti StorageOrder UpLo j)
                   (endi StorageOrder UpLo size j)
                   (fun i => pmul c0 (ln j i) (tc j)
                             + pmul c0 (ln (j + 1) i) (tc (j + 1))) k).
  { unfold on_range.
    destruct (Z.leb_spec (starti StorageOrder UpLo j) k); cbn [andb];
      [|reflexivity].
    destruct (k <? _)%Z; [|reflexivity].
    apply dir2_head_agrees; assumption. }
  rewrite Hd. clear Hd.
  unfold col_delta, pair_diag0, pair_diag1, pair_t2, pair_t3, rng_lo, rng_hi.
  subst n. unfold starti, endi.
  destruct FT.
  - replace (Z.to_nat (j + 1 - 0)) with (S (Z.to_nat (j - 0))) by lia.
    cbn [zsum]. replace (0 + Z.of_nat (Z.to_nat (j - 0)))%Z with j by lia.
    unfold single, on_range.
    destruct (Z.eqb_spec k j); destruct (Z.eqb_spec k (j + 1));
      destruct (Z.leb_spec 0 k); destruct (Z.ltb_spec k j);
      destruct (Z.ltb_spec k (j + 1)); cbn [andb]; try lia; subst; ring.
  - replace (Z.to_nat (size - (j + 1)))
      with (S (Z.to_nat (size - (j + 2)))) by lia.
    rewrite zsum_left.
    replace (j + 1 + 1)%Z with (j + 2)%Z by lia.
    unfold single, on_range.
    destruct (Z.eqb_spec k j); destruct (Z.eqb_spec k (j + 1));
      destruct (Z.leb_spec (j + 1) k); destruct (Z.leb_spec (j + 2) k);
      destruct (Z.leb_spec (j + 1 + 1) k);
      destruct (Z.ltb_spec k size); cbn [andb]; try lia; subst; ring.
Qed.

(** With a head that agrees, the two loops add up the columns. *)
Lemma kernel_delta_cols k :
  (0 <= size)%Z ->
  head_agrees P StorageOrder UpLo ConjugateLhs ConjugateRhs size res_addr ->
  kernel_delta StorageOrder UpLo ConjugateLhs ConjugateRhs size lhs lhsStride
    rhs res_addr alpha k
  = zsum (Z.to_nat size) 0 (fun c => cold c k).
Proof.
  intros Hs Hh. unfold kernel_delta, blocked_delta, remaining_delta.
  destruct (blocked_bounds StorageOrder UpLo size Hs) as (_ & Hlo & Hq & Hhi).
  pose proof (bound0_range size Hs) as Hb.
  pose proof (bound0_even size) as He.
  set (q := Z.to_nat (bound0 size / 2)).
  assert (Hblk :
    zsum q 0 (fun m => pair_delta StorageOrder UpLo ConjugateLhs ConjugateRhs
                         size lhs lhsStride rhs res_addr alpha
                         (blocked_lo StorageOrder UpLo size + 2 * m)%Z k)
    = zsum (2 * q) (blocked_lo StorageOrder UpLo size) (fun c => cold c k)).
  { rewrite <- zsum_pairs. apply zsum_ext. intros m Hm.
    rewrite pair_delta_cols;
      [reflexivity | apply Hh; unfold q in Hm; lia | lia | lia]. }
  rewrite Hblk. clear Hblk.
  replace (Z.to_nat size)
    with ((Z.to_nat (size - bound0 size)) + 2 * q)%nat by (unfold q; lia).
  unfold blocked_lo, remaining_lo, bound.
  destruct FT.
  - rewrite zsum_app.
    replace (0 + Z.of_nat (Z.to_nat (size - bound0 size)))%Z
      with (size - bound0 size)%Z by lia.
    ring.
  - rewrite Nat.add_comm, zsum_app.
    replace (0 + Z.of_nat (2 * q))%Z with (bound0 size) by (unfold q; lia).
    ring.
Qed.

End NoHead.

(** ** The dense reference

    The columns together add [alpha] times the dense product of the logical
    matrix and the operand, conjugated as the flags say. *)

Lemma cj_conj b x : cj b (ei_conj x) = cj (negb b) x.
Proof. destruct b; cbn; [apply ei_conj_involutive | reflexivity]. Qed.

Lemma cj_fixed b x : ei_conj x = x -> cj b x = x.
Proof. intros H. destruct b; cbn; auto. Qed.

Section Reference.

Variables (StorageOrder : StorageOrderT) (UpLo : UpLoT).
Variables (ConjugateLhs ConjugateRhs : bool).
Variables (size : Z) (lhs : list Scalar) (lhsStride : Z).
Variables (rhs : list Scalar) (alpha : Scalar).

Local Abbreviation c0 := (cj0 StorageOrder ConjugateLhs ConjugateRhs).
Local Abbreviation c1 := (cj1 StorageOrder ConjugateLhs ConjugateRhs).
Local Abbreviation ln := (line lhs lhsStride).
Local Abbreviation tc := (tcol ConjugateRhs rhs alpha).
Local Abbreviation cold :=
  (col_delta StorageOrder UpLo ConjugateLhs ConjugateRhs size lhs lhsStride
     rhs alpha).
Local Abbreviation lo := (rng_lo StorageOrder UpLo).
Local Abbreviation hi := (rng_hi StorageOrder UpLo size).

Lemma pmul_c0_tcol x c :
  pmul c0 x (tc c)
  = alpha * (cj (xorb ConjugateLhs (IsRowMajor StorageOrder)) x
             * cj ConjugateRhs (gt rhs c)).
Proof.
  unfold pmul, cj0, tcol, cjAlpha. cbn [ConjLhs ConjRhs].
  fold (cj ConjugateRhs alpha).
  rewrite cj_IsComplex, cj_mul, cj_cj. ring.
Qed.

Lemma pmul_c1_rhs x y :
  pmul c1 x y
  = cj (xorb ConjugateLhs (negb (IsRowMajor StorageOrder))) x
    * cj ConjugateRhs y.
Proof.
  unfold pmul, cj1. cbn [ConjLhs ConjRhs]. rewrite cj_IsComplex. reflexivity.
Qed.

Lemma cols_pointwise k c :
  real_diagonal StorageOrder size lhs lhsStride ->
  (0 <= k < size)%Z -> (0 <= c < size)%Z ->
  single c (pmul c0 (ln c c) (tc c)) k
  + on_range (lo c) (hi c) (fun i => pmul c0 (ln c i) (tc c)) k
  + alpha * on_range (lo k) (hi k) (fun i => pmul c1 (ln k i) (gt rhs i)) c
  = alpha * (cj ConjugateLhs (logical_entry StorageOrder UpLo lhs lhsStride k c)
             * cj ConjugateRhs (gt rhs c)).
Proof.
  intros Hdiag Hk Hc.
  pose proof (Hdiag k Hk) as Hd.
  unfold single, on_range, logical_entry, in_stored_triangleb, rng_lo, rng_hi.
  unfold entry, entry_index in *. unfold line.
  rewrite !pmul_c0_tcol, !pmul_c1_rhs.
  destruct StorageOrder, UpLo; cbn [FirstTriangular IsRowMajor IsLower Bool.eqb];
    destruct (Z.eqb_spec k c);
    repeat match goal with
           | |- context [(?a <=? ?b)%Z] => destruct (Z.leb_spec a b)
           | |- context [(?a <? ?b)%Z] => destruct (Z.ltb_spec a b)
           end; cbn [andb]; try lia; subst;
    rewrite ?cj_conj; destruct ConjugateLhs; cbn [xorb negb];
    rewrite ?(cj_fixed true _ Hd), ?(cj_fixed false _ Hd); ring.
Qed.

Lemma cols_reference k :
  real_diagonal StorageOrder size lhs lhsStride ->
  (0 <= k < size)%Z ->
  zsum (Z.to_nat size) 0 (fun c => cold c k)
  = alpha * dense_row size
              (fun i j => cj ConjugateLhs
                            (logical_entry StorageOrder UpLo lhs lhsStride i j))
              (fun j => cj ConjugateRhs (gt rhs j)) k.
Proof.
  intros Hdiag Hk. unfold dense_row. rewrite <- zsum_scale.
  set (n := Z.to_nat size).
  set (T := fun c => zsum (Z.to_nat (hi c - lo c)) (lo c)
                       (fun i => pmul c1 (ln c i) (gt rhs i))).
  rewrite (zsum_ext n 0 _
             (fun c => (single c (pmul c0 (ln c c) (tc c)) k
                        + on_range (lo c) (hi c)
                            (fun i => pmul c0 (ln c i) (tc c)) k)
                       + single c (alpha * T c) k)).
  2:{ intros c _. unfold col_delta, single, T.
      destruct (k =? c)%Z; ring. }
  rewrite zsum_add.
  rewrite (zsum_single n 0 k (fun c => alpha * T c)) by (unfold n; lia).
  assert (HT : T k = zsum n 0 (on_range (lo k) (hi k)
                                 (fun i => pmul c1 (ln k i) (gt rhs i)))).
  { unfold T. symmetry. apply zsum_on_range;
      unfold rng_lo, rng_hi, n;
      destruct (FirstTriangular StorageOrder UpLo); lia. }
  rewrite HT, <- zsum_scale, <- zsum_add.
  apply zsum_ext. intros c Hc.
  apply cols_pointwise; [assumption | assumption | unfold n in Hc; lia].
Qed.

End Reference.

(** With a head that agrees, the kernel adds the dense reference. *)
Lemma kernel_delta_reference StorageOrder UpLo ConjugateLhs ConjugateRhs
    size lhs lhsStride rhs res_addr alpha k :
  (0 <= size)%Z ->
  head_agrees P StorageOrder UpLo ConjugateLhs ConjugateRhs size res_addr ->
  real_diagonal StorageOrder size lhs lhsStride ->
  (0 <= k < size)%Z ->
  kernel_delta StorageOrder UpLo ConjugateLhs ConjugateRhs size lhs lhsStride
    rhs res_addr alpha k
  = alpha * dense_row size
              (fun i j => cj ConjugateLhs
                            (logical_entry StorageOrder UpLo lhs lhsStride i j))
              (fun j => cj ConjugateRhs (gt rhs j)) k.
Proof.
  intros Hs Hh Hd Hk.
  rewrite kernel_delta_cols by assumption.
  apply cols_reference; assumption.
Qed.

(** On valid inputs the kernel runs without an access outside a buffer and,
    with a head that agrees, adds the dense reference to [res]. *)
Lemma kernel_reference StorageOrder UpLo ConjugateLhs ConjugateRhs
    size lhs lhsStride _rhs rhsIncr res_addr res alpha :
  valid_call StorageOrder UpLo size lhs lhsStride _rhs rhsIncr res ->
  real_diagonal StorageOrder size lhs lhsStride ->
  head_agrees P StorageOrder UpLo ConjugateLhs ConjugateRhs size res_addr ->
  exists res',
    ei_product_selfadjoint_vector P StorageOrder UpLo ConjugateLhs
      ConjugateRhs size lhs lhsStride _rhs rhsIncr res_addr res alpha
    = Some (res', scratch_events size rhsIncr)
    /\ length res' = length res
    /\ forall i, (0 <= i < size)%Z ->
         gt res' i
         = gt res i
           + alpha * dense_row size
                       (fun r c => cj ConjugateLhs
                          (logical_entry StorageOrder UpLo lhs lhsStride r c))
                       (fun j => cj ConjugateRhs (gt _rhs (j * rhsIncr)%Z)) i.
Proof.
  intros Hv Hd Hh.
  destruct (kernel_Upd StorageOrder UpLo ConjugateLhs ConjugateRhs size lhs
              lhsStride _rhs rhsIncr res_addr res alpha Hv)
    as (res' & E & L & U).
  destruct Hv as (Hs & _ & _ & Hres).
  exists res'. split; [exact E|]. split; [exact L|].
  intros i Hi. rewrite U by lia.
  rewrite kernel_delta_reference by assumption.
  do 2 f_equal. unfold dense_row. apply zsum_ext. intros j Hj.
  rewrite gt_effective_rhs by lia. reflexivity.
Qed.

End KernelFacts.

(** * Calls on which the head agrees *)

Section HeadAgrees.

Context {Scalar : Type} {Ops : ScalarOps Scalar}.

Variables (StorageOrder : StorageOrderT) (UpLo : UpLoT).
Variables (ConjugateLhs ConjugateRhs : bool) (size res_addr : Z).

Lemma bound0_negative : (size < 0)%Z -> bound0 size = 0%Z.
Proof. intros H. unfold bound0. rewrite Z.max_l by lia. reflexivity. Qed.

(** The inner range of a column pair of the two-column loop. *)
Lemma blocked_pair_range m :
  (0 <= m < bound0 size / 2)%Z ->
  (0 <= endi StorageOrder UpLo size
          ((if FirstTriangular StorageOrder UpLo
            then bound StorageOrder UpLo size else 0) + 2 * m)
        - starti StorageOrder UpLo
            ((if FirstTriangular StorageOrder UpLo
              then bound StorageOrder UpLo size else 0) + 2 * m))%Z.
Proof.
  intros Hm.
  destruct (Z.lt_ge_cases size 0) as [Hneg|Hs].
  - rewrite (bound0_negative Hneg) in Hm. cbn in Hm. lia.
  - pose proof (bound0_range size Hs). pose proof (bound0_even size).
    unfold endi, starti, bound.
    destruct (FirstTriangular StorageOrder UpLo); lia.
Qed.

(** Real scalars. *)
Lemma head_agrees_real P :
  IsComplex = false ->
  head_agrees P StorageOrder UpLo ConjugateLhs ConjugateRhs size res_addr.
Proof. intros H m _. left. exact H. Qed.

(** Sizes up to 9: the two-column loop runs no iteration. *)
Lemma head_agrees_small P :
  bound0 size = 0%Z ->
  head_agrees P StorageOrder UpLo ConjugateLhs ConjugateRhs size res_addr.
Proof. intros H m Hm. rewrite H in Hm. cbn in Hm. lia. Qed.

(** The target without vectorization: every address is aligned. *)
Lemma head_agrees_scalar_platform :
  head_agrees scalar_platform StorageOrder UpLo ConjugateLhs ConjugateRhs
    size res_addr.
Proof.
  intros m Hm. right. right.
  pose proof (blocked_pair_range m Hm) as Hr.
  cbn [scalar_platform simd_platform ei_alignmentOffset].
  unfold simd_alignmentOffset. rewrite !Z.mod_1_r. lia.
Qed.

(** A first-triangular call with [res] at an aligned address: every inner
    range starts at [res[0]]. *)
Lemma head_agrees_aligned (n : positive) :
  FirstTriangular StorageOrder UpLo = true ->
  (res_addr mod Z.pos n = 0)%Z ->
  head_agrees (simd_platform n) StorageOrder UpLo ConjugateLhs ConjugateRhs
    size res_addr.
Proof.
  intros HF Ha m Hm. right. right.
  pose proof (blocked_pair_range m Hm) as Hr.
  cbn [simd_platform ei_alignmentOffset].
  unfold simd_alignmentOffset, starti in *. rewrite HF in *.
  rewrite Z.add_0_r, Ha, Z.sub_0_r, Z_mod_same_full. lia.
Qed.

End HeadAgrees.

(** The flags the head is written for. *)
Lemma head_agrees_flags {Scalar : Type} {Ops : ScalarOps Scalar}
    P StorageOrder UpLo size res_addr :
  head_agrees P StorageOrder UpLo (IsRowMajor StorageOrder) false size
    res_addr.
Proof. intros m _. right. left. split; reflexivity. Qed.

(** * The kernel's contract *)

Local Open Scope scalar_scope.

(** The example of the specification: [size = 3], row-major, lower stored,
    real; the cells of the upper triangle hold 99 and are never read. *)
Example example_lower_rowmajor :
  ei_product_selfadjoint_vector scalar_platform RowMajor LowerTriangular
    false false 3 [2; 99; 99; 1; 3; 99; 0; 1; 4]%Z 3 [1; 1; 1]%Z 1 0
    [0; 0; 0]%Z 1%Z
  = Some ([3; 5; 5]%Z, []).
Proof. reflexivity. Qed.

(** The Hermitian sample as an input: the call is valid whatever triangle is
    taken as stored, and the diagonal is real. *)
Lemma sample_valid_call UpLo (res : list Cplx.t) :
  (10 <= Z.of_nat (length res))%Z ->
  valid_call ColMajor UpLo 10 (col_major_sample 10) 10 (operand_sample 10) 1
    res.
Proof.
  intros Hres. split; [lia|]. split; [|split; [|exact Hres]].
  - intros r c Hr Hc _.
    change (length (col_major_sample 10)) with 100%nat. cbn. lia.
  - intros i Hi. change (length (operand_sample 10)) with 10%nat. lia.
Qed.

Lemma sample_real_diagonal :
  real_diagonal ColMajor 10 (col_major_sample 10) 10.
Proof.
  intros i Hi.
  assert (Hc : (i = 0 \/ i = 1 \/ i = 2 \/ i = 3 \/ i = 4 \/ i = 5 \/ i = 6
                \/ i = 7 \/ i = 8 \/ i = 9)%Z) by lia.
  repeat (destruct Hc as [-> | Hc]; [reflexivity|]). subst i. reflexivity.
Qed.

(** C1, as the code has it.  On a scalar type with exact arithmetic, on a
    valid call with a matrix whose diagonal is real, and when the head of
    the inner range agrees with the conjugation helpers in every column pair
    (real scalars; or the flags the head is written for; or no iteration of
    the head, as for [size <= 9], without vectorization, or at a zero
    alignment offset), the kernel returns and [res[i]] has grown by
    [alpha * sum_j op(A)[i][j] * op(x[j])] for every [i] in [[0,size)]:
    [A[i][j]] outside the stored triangle is [conj(A[j][i])], the matrix
    entries are conjugated when [ConjugateLhs] is set and the operand entries
    when [ConjugateRhs] is set. *)
Theorem kernel_adds_selfadjoint_product
    {Scalar : Type} {NT : NumTraits Scalar} (P : Platform)
    (StorageOrder : StorageOrderT) (UpLo : UpLoT)
    (ConjugateLhs ConjugateRhs : bool)
    (size : Z) (lhs : list Scalar) (lhsStride : Z)
    (_rhs : list Scalar) (rhsIncr res_addr : Z)
    (res : list Scalar) (alpha : Scalar) :
  valid_call StorageOrder UpLo size lhs lhsStride _rhs rhsIncr res ->
  real_diagonal StorageOrder size lhs lhsStride ->
  head_agrees P StorageOrder UpLo ConjugateLhs ConjugateRhs size res_addr ->
  exists res',
    ei_product_selfadjoint_vector P StorageOrder UpLo ConjugateLhs
      ConjugateRhs size lhs lhsStride _rhs rhsIncr res_addr res alpha
    = Some (res', scratch_events size rhsIncr)
    /\ length res' = length res
    /\ forall i, (0 <= i < size)%Z ->
         gt res' i
         = gt res i
           + alpha * dense_row size
                       (fun r c => cj ConjugateLhs
                          (logical_entry StorageOrder UpLo lhs lhsStride r c))
                       (fun j => cj ConjugateRhs (gt _rhs (j * rhsIncr)%Z)) i.
Proof.
  intros Hv Hd Hh. apply kernel_reference; auto.
Qed.

(** A Hermitian call with both flags set and vectorized column pairs: the
    10x10 sample on packets of two scalars, [res] at an even address. *)
Lemma kernel_adds_selfadjoint_product_witness :
  exists res',
    ei_product_selfadjoint_vector (simd_platform 2) ColMajor UpperTriangular
      true true 10 (col_major_sample 10) 10 (operand_sample 10) 1 0
      (repeat szero 10) (2, 1)%Z
    = Some (res', scratch_events 10 1)
    /\ length res' = length (repeat (szero : Cplx.t) 10)
    /\ forall i, (0 <= i < 10)%Z ->
         gt res' i
         = gt (repeat szero 10) i
           + (2, 1)%Z * dense_row 10
                          (fun r c => cj true
                             (logical_entry ColMajor UpperTriangular
                                (col_major_sample 10) 10 r c))
                          (fun j => cj true
                                      (gt (operand_sample 10) (j * 1)%Z)) i.
Proof.
  apply (kernel_adds_selfadjoint_product (simd_platform 2) ColMajor
           UpperTriangular true true 10 (col_major_sample 10) 10
           (operand_sample 10) 1 0 (repeat szero 10) (2, 1)%Z).
  - apply sample_valid_call. cbn. lia.
  - exact sample_real_diagonal.
  - apply head_agrees_aligned; reflexivity.
Defined.

(** C1 as stated fails on complex scalars when a conjugation flag is set:
    with [ConjugateRhs], the 1x1 matrix [1] and the operand [i], the kernel
    adds [-i], not [alpha * A[0][0] * x[0] = i]. *)
Lemma kernel_adds_selfadjoint_product_counterexample :
  valid_call ColMajor LowerTriangular 1 [(1, 0)%Z] 1 [(0, 1)%Z] 1 [(0, 0)%Z]
  /\ real_diagonal ColMajor 1 [(1, 0)%Z] 1
  /\ exists res',
       ei_product_selfadjoint_vector scalar_platform ColMajor LowerTriangular
         false true 1 [(1, 0)%Z] 1 [(0, 1)%Z] 1 0 [(0, 0)%Z] (1, 0)%Z
       = Some (res', [])
       /\ gt res' 0
          <> gt [(0, 0)%Z] 0
             + (1, 0)%Z * dense_row 1
                            (logical_entry ColMajor LowerTriangular
                               [(1, 0)%Z] 1)
                            (fun j => gt [(0, 1)%Z] (j * 1)%Z) 0.
Proof.
  split; [|split].
  - split; [lia|]. split; [|split].
    + intros r c Hr Hc Ht. cbn in *. lia.
    + intros i Hi. cbn. lia.
    + cbn. lia.
  - intros i Hi. assert (i = 0%Z) by lia. subst. reflexivity.
  - exists [(0, -1)%Z]. split; [reflexivity|].
    vm_compute. discriminate.
Qed.

(** ** Only the stored triangle is read *)



(** ** Accumulation and scaling *)

(** C7, as the code has it.  On a scalar type with exact arithmetic the
    kernel accumulates: from a zeroed accumulator, a second call with the
    same matrix, operand and [alpha] gives exactly double the result of the
    first, on every valid input, target and flag setting; and the first call
    gives [alpha * op(A) * op(x)] when the diagonal is real and the head
    agrees with the helpers, so that what is doubled is the product. *)
Theorem second_call_doubles
    {Scalar : Type} {NT : NumTraits Scalar} (P : Platform)
    (StorageOrder : StorageOrderT) (UpLo : UpLoT)
    (ConjugateLhs ConjugateRhs : bool)
    (size : Z) (lhs : list Scalar) (lhsStride : Z)
    (_rhs : list Scalar) (rhsIncr res_addr : Z) (n : nat) (alpha : Scalar) :
  valid_call StorageOrder UpLo size lhs lhsStride _rhs rhsIncr
    (repeat szero n) ->
  exists once twice,
    ei_product_selfadjoint_vector P StorageOrder UpLo ConjugateLhs
      ConjugateRhs size lhs lhsStride _rhs rhsIncr res_addr
      (repeat szero n) alpha
    = Some (once, scratch_events size rhsIncr)
    /\ ei_product_selfadjoint_vector P StorageOrder UpLo ConjugateLhs
         ConjugateRhs size lhs lhsStride _rhs rhsIncr res_addr once alpha
       = Some (twice, scratch_events size rhsIncr)
    /\ twice = map (fun v => v + v) once
    /\ (real_diagonal StorageOrder size lhs lhsStride ->
        head_agrees P StorageOrder UpLo ConjugateLhs ConjugateRhs size
          res_addr ->
        forall i, (0 <= i < size)%Z ->
          gt once i
          = alpha * dense_row size
                      (fun r c => cj ConjugateLhs
                         (logical_entry StorageOrder UpLo lhs lhsStride r c))
                      (fun j => cj ConjugateRhs (gt _rhs (j * rhsIncr)%Z)) i).
Proof.
  intros Hv.
  destruct (kernel_Upd P StorageOrder UpLo ConjugateLhs ConjugateRhs size lhs
              lhsStride _rhs rhsIncr res_addr (repeat szero n) alpha Hv)
    as (r1 & E1 & L1 & U1).
  assert (Hv1 : valid_call StorageOrder UpLo size lhs lhsStride _rhs
                  rhsIncr r1).
  { destruct Hv as (H1 & H2 & H3 & H4).
    rewrite <- L1 in H4. exact (conj H1 (conj H2 (conj H3 H4))). }
  destruct (kernel_Upd P StorageOrder UpLo ConjugateLhs ConjugateRhs size lhs
              lhsStride _rhs rhsIncr res_addr r1 alpha Hv1)
    as (r2 & E2 & L2 & U2).
  pose proof (scalar_ring (Scalar := Scalar)) as R.
  exists r1, r2. split; [exact E1|]. split; [exact E2|]. split.
  - apply list_ext_gt; [rewrite length_map; exact L2|].
    intros k Hk. rewrite gt_map_lt by lia.
    rewrite U2 by lia. rewrite (U1 k) by lia.
    rewrite gt_repeat_zero.
    rewrite !(Radd_0_l R). reflexivity.
  - intros Hd Hh i Hi.
    destruct (kernel_reference P StorageOrder UpLo ConjugateLhs ConjugateRhs
                size lhs lhsStride _rhs rhsIncr res_addr (repeat szero n)
                alpha Hv Hd Hh) as (r & E & _ & G).
    rewrite E1 in E. injection E as <-.
    rewrite (G i Hi), gt_repeat_zero. apply (Radd_0_l R).
Qed.

(** A Hermitian 2x2 matrix, lower stored, with both flags set and a strided
    operand. *)
Lemma second_call_doubles_witness :
  exists once twice,
    ei_product_selfadjoint_vector (simd_platform 2) ColMajor LowerTriangular
      true true 2 [(1, 0); (0, 1); (9, 9); (2, 0)]%Z 2
      [(1, 1); (7, 7); (0, 2)]%Z 2 1 (repeat szero 2) (1, 2)%Z
    = Some (once, scratch_events 2 2)
    /\ ei_product_selfadjoint_vector (simd_platform 2) ColMajor
         LowerTriangular true true 2 [(1, 0); (0, 1); (9, 9); (2, 0)]%Z 2
         [(1, 1); (7, 7); (0, 2)]%Z 2 1 once (1, 2)%Z
       = Some (twice, scratch_events 2 2)
    /\ twice = map (fun v => v + v) once
    /\ (real_diagonal ColMajor 2 [(1, 0); (0, 1); (9, 9); (2, 0)]%Z 2 ->
        head_agrees (simd_platform 2) ColMajor LowerTriangular true true 2
          1 ->
        forall i, (0 <= i < 2)%Z ->
          gt once i
          = (1, 2)%Z * dense_row 2
                         (fun r c => cj true
                            (logical_entry ColMajor LowerTriangular
                               [(1, 0); (0, 1); (9, 9); (2, 0)]%Z 2 r c))
                         (fun j => cj true
                                     (gt [(1, 1); (7, 7); (0, 2)]%Z
                                        (j * 2)%Z)) i).
Proof.
  apply (second_call_doubles (simd_platform 2) ColMajor LowerTriangular
           true true 2 [(1, 0); (0, 1); (9, 9); (2, 0)]%Z 2
           [(1, 1); (7, 7); (0, 2)]%Z 2 1 2%nat (1, 2)%Z).
  split; [lia|]. split; [|split].
  - intros r c Hr Hc Ht. cbn in *. lia.
  - intros i Hi. cbn. lia.
  - cbn. lia.
Defined.

(** C7 as stated fails on [double]: with the matrix
    [[1, 1.5 * 2^-53], [1.5 * 2^-53, 1]] (lower stored), the operand [1, 1]
    and [alpha = 1], the first call rounds [1 + 1.5 * 2^-53] up to
    [1 + 2^-52] in [res[0]]; the second call rounds [(1 + 2^-52) + 1] down to
    [2] and leaves [2] there, which is not the double [2 + 2^-51]. *)
Lemma second_call_doubles_counterexample :
  valid_call ColMajor LowerTriangular 2 [1; 0x1.8p-53; 0; 1]%float 2
    [1; 1]%float 1 [0; 0]%float
  /\ exists once twice,
       @ei_product_selfadjoint_vector float DoubleScalar scalar_platform
         ColMajor LowerTriangular false false 2
         [1; 0x1.8p-53; 0; 1]%float 2 [1; 1]%float 1 0 [0; 0]%float 1%float
       = Some (once, [])
       /\ @ei_product_selfadjoint_vector float DoubleScalar scalar_platform
            ColMajor LowerTriangular false false 2
            [1; 0x1.8p-53; 0; 1]%float 2 [1; 1]%float 1 0 once 1%float
          = Some (twice, [])
       /\ once = [0x1.0000000000001p+0; 0x1.0000000000001p+0]%float
       /\ twice = [2; 0x1.0000000000001p+1]%float
       /\ map (fun v => PrimFloat.add v v) once
          = [0x1.0000000000001p+1; 0x1.0000000000001p+1]%float
       /\ twice <> map (fun v => PrimFloat.add v v) once.
Proof.
  split.
  - split; [lia|]. split; [|split].
    + intros r c Hr Hc Ht. cbn in *. lia.
    + intros i Hi. cbn. lia.
    + cbn. lia.
  - exists [0x1.0000000000001p+0; 0x1.0000000000001p+0]%float,
           [2; 0x1.0000000000001p+1]%float.
    split; [vm_compute; reflexivity|]. split; [vm_compute; reflexivity|].
    split; [reflexivity|]. split; [reflexivity|].
    split; [vm_compute; reflexivity|].
    intros E.
    apply (f_equal (fun l => PrimFloat.eqb (hd 0%float l) 2%float)) in E.
    vm_compute in E. discriminate.
Qed.

(** C8, as the code has it.  On a scalar type with exact arithmetic, with
    [alpha = 0] the kernel leaves every entry of the accumulator unchanged,
    for every size, matrix, operand, flag setting and initial contents. *)
Theorem zero_alpha_leaves_res
    {Scalar : Type} {NT : NumTraits Scalar} (P : Platform)
    (StorageOrder : StorageOrderT) (UpLo : UpLoT)
    (ConjugateLhs ConjugateRhs : bool)
    (size : Z) (lhs : list Scalar) (lhsStride : Z)
    (_rhs : list Scalar) (rhsIncr res_addr : Z) (res : list Scalar) :
  valid_call StorageOrder UpLo size lhs lhsStride _rhs rhsIncr res ->
  ei_product_selfadjoint_vector P StorageOrder UpLo ConjugateLhs
    ConjugateRhs size lhs lhsStride _rhs rhsIncr res_addr res szero
  = Some (res, scratch_events size rhsIncr).
Proof.
  intros Hv.
  destruct (kernel_Upd P StorageOrder UpLo ConjugateLhs ConjugateRhs size lhs
              lhsStride _rhs rhsIncr res_addr res szero Hv)
    as (r1 & E1 & L1 & U1).
  rewrite E1. do 2 f_equal.
  apply list_ext_gt; [exact L1|].
  intros k Hk. rewrite U1 by (rewrite <- L1; exact Hk).
  rewrite kernel_delta_zero.
  pose proof (scalar_ring (Scalar := Scalar)) as R.
  rewrite (Radd_comm R), (Radd_0_l R). reflexivity.
Qed.

Lemma zero_alpha_leaves_res_witness :
  ei_product_selfadjoint_vector (simd_platform 2) ColMajor UpperTriangular
    true true 2 [(1, 0); (9, 9); (2, 3); (4, 0)]%Z 2
    [(1, 1); (7, 7); (0, 2)]%Z 2 1 [(5, 6); (7, 8)]%Z szero
  = Some ([(5, 6); (7, 8)]%Z, scratch_events 2 2).
Proof.
  apply (zero_alpha_leaves_res (simd_platform 2) ColMajor UpperTriangular
           true true 2 [(1, 0); (9, 9); (2, 3); (4, 0)]%Z 2
           [(1, 1); (7, 7); (0, 2)]%Z 2 1 [(5, 6); (7, 8)]%Z).
  split; [lia|]. split; [|split].
  - intros r c Hr Hc Ht. cbn in *. lia.
  - intros i Hi. cbn. lia.
  - cbn. lia.
Defined.

(** C8 as stated fails on [double], where the kernel has no shortcut for
    [alpha = 0] and [0 * inf] is NaN: with the finite matrix
    [[1, 2^600], [2^600, 1]] (lower stored) and the finite operand
    [1, 2^600], the transposed sum [2^600 * 2^600] of column 0 overflows to
    infinity, and [res[0] += alpha * t2] turns [res[0] = 5] into NaN; so does
    an infinite matrix entry at [size = 1]. *)
Lemma zero_alpha_leaves_res_counterexample :
  valid_call ColMajor LowerTriangular 2 [1; 0x1p600; 0; 1]%float 2
    [1; 0x1p600]%float 1 [5; 6]%float
  /\ @ei_product_selfadjoint_vector float DoubleScalar scalar_platform
       ColMajor LowerTriangular false false 2 [1; 0x1p600; 0; 1]%float 2
       [1; 0x1p600]%float 1 0 [5; 6]%float 0%float
     = Some ([nan; 6]%float, [])
  /\ [nan; 6]%float <> [5; 6]%float
  /\ @ei_product_selfadjoint_vector float DoubleScalar scalar_platform
       ColMajor LowerTriangular false false 1 [infinity] 1 [1%float] 1 0
       [5%float] 0%float
     = Some ([nan], [])
  /\ [nan] <> [5%float].
Proof.
  split.
  - split; [lia|]. split; [|split].
    + intros r c Hr Hc Ht. cbn in *. lia.
    + intros i Hi. cbn. lia.
    + cbn. lia.
  - split; [vm_compute; reflexivity|]. split.
    + intros E.
      apply (f_equal (fun l => PrimFloat.is_nan (hd 0%float l))) in E.
      vm_compute in E. discriminate.
    + split; [vm_compute; reflexivity|].
      intros E.
      apply (f_equal (fun l => PrimFloat.is_nan (hd 0%float l))) in E.
      vm_compute in E. discriminate.
Qed.

(** ** Real scalars *)



(** The Hermitian 2x2 matrix [[1, -i], [i, 2]], lower stored in column-major
    order with 9 + 9i in the cell that is not read: its diagonal is real,
    and at [size = 2] no column pair runs. *)
Lemma hermitian2_real_diagonal :
  real_diagonal ColMajor 2 [(1, 0); (0, 1); (9, 9); (2, 0)]%Z 2.
Proof.
  intros i Hi. assert (Hc : (i = 0 \/ i = 1)%Z) by lia.
  destruct Hc as [-> | ->]; reflexivity.
Qed.

Lemma hermitian2_head_agrees P ConjugateLhs ConjugateRhs res_addr :
  head_agrees (Scalar := Cplx.t) P ColMajor LowerTriangular ConjugateLhs
    ConjugateRhs 2 res_addr.
Proof. apply head_agrees_small. reflexivity. Qed.

(** ** Boundary sizes *)

(** C5, as the code has it.  For [size] in {0, 1, 2, 3, 7, 8, 9} and a valid
    call, the two-column loop runs zero iterations and leaves [res] as it
    is, the one-column loop runs [size] iterations, and the kernel returns,
    so that no access falls outside a buffer; on a scalar type with exact
    arithmetic and a matrix whose diagonal is real, the result is the dense
    reference with the matrix entries conjugated when [ConjugateLhs] is set
    and the operand entries when [ConjugateRhs] is set. *)
Theorem boundary_sizes
    {Scalar : Type} {NT : NumTraits Scalar} (P : Platform)
    (StorageOrder : StorageOrderT) (UpLo : UpLoT)
    (ConjugateLhs ConjugateRhs : bool)
    (size : Z) (lhs : list Scalar) (lhsStride : Z)
    (_rhs : list Scalar) (rhsIncr res_addr : Z)
    (res : list Scalar) (alpha : Scalar) :
  In size [0; 1; 2; 3; 7; 8; 9]%Z ->
  valid_call StorageOrder UpLo size lhs lhsStride _rhs rhsIncr res ->
  trip_count
    (if FirstTriangular StorageOrder UpLo
     then bound StorageOrder UpLo size else 0%Z)
    (if FirstTriangular StorageOrder UpLo
     then size else bound StorageOrder UpLo size) 2 = O
  /\ trip_count
       (if FirstTriangular StorageOrder UpLo
        then 0%Z else bound StorageOrder UpLo size)
       (if FirstTriangular StorageOrder UpLo
        then bound StorageOrder UpLo size else size) 1 = Z.to_nat size
  /\ (forall rhs r,
        blocked_columns P StorageOrder UpLo ConjugateLhs ConjugateRhs size
          lhs lhsStride rhs res_addr alpha r = Some r)
  /\ exists res',
       ei_product_selfadjoint_vector P StorageOrder UpLo ConjugateLhs
         ConjugateRhs size lhs lhsStride _rhs rhsIncr res_addr res alpha
       = Some (res', scratch_events size rhsIncr)
       /\ length res' = length res
       /\ (real_diagonal StorageOrder size lhs lhsStride ->
           forall i, (0 <= i < size)%Z ->
             gt res' i
             = gt res i
               + alpha * dense_row size
                           (fun r c => cj ConjugateLhs
                              (logical_entry StorageOrder UpLo lhs lhsStride
                                 r c))
                           (fun j => cj ConjugateRhs
                                       (gt _rhs (j * rhsIncr)%Z)) i).
Proof.
  intros Hin Hv.
  assert (Hb : bound0 size = 0%Z).
  { cbn [In] in Hin.
    repeat (destruct Hin as [<- | Hin]; [reflexivity|]). destruct Hin. }
  assert (Hs : (0 <= size)%Z) by apply Hv.
  assert (Hblocked :
    trip_count
      (if FirstTriangular StorageOrder UpLo
       then bound StorageOrder UpLo size else 0%Z)
      (if FirstTriangular StorageOrder UpLo
       then size else bound StorageOrder UpLo size) 2 = O).
  { unfold bound, trip_count. rewrite Hb.
    destruct (FirstTriangular StorageOrder UpLo).
    - replace (size - (size - 0) + 2 - 1)%Z with 1%Z by lia. reflexivity.
    - reflexivity. }
  split; [exact Hblocked|]. split; [|split].
  - rewrite trip_count_1. unfold bound. rewrite Hb.
    destruct (FirstTriangular StorageOrder UpLo); f_equal; lia.
  - intros rhs r. unfold blocked_columns, for_loop.
    rewrite Hblocked. reflexivity.
  - destruct (kernel_Upd P StorageOrder UpLo ConjugateLhs ConjugateRhs size
                lhs lhsStride _rhs rhsIncr res_addr res alpha Hv)
      as (res' & E & L & U).
    exists res'. split; [exact E|]. split; [exact L|].
    intros Hd.
    destruct (kernel_reference P StorageOrder UpLo ConjugateLhs ConjugateRhs
                size lhs lhsStride _rhs rhsIncr res_addr res alpha Hv Hd
                (head_agrees_small _ _ _ _ _ _ P Hb))
      as (r & E' & _ & G).
    rewrite E in E'. injection E' as <-. exact G.
Qed.

(** A Hermitian 2x2 matrix, lower stored, with both flags set and a strided
    operand. *)
Lemma boundary_sizes_witness :
  trip_count
    (if FirstTriangular ColMajor LowerTriangular
     then bound ColMajor LowerTriangular 2 else 0%Z)
    (if FirstTriangular ColMajor LowerTriangular
     then 2%Z else bound ColMajor LowerTriangular 2) 2 = O
  /\ trip_count
       (if FirstTriangular ColMajor LowerTriangular
        then 0%Z else bound ColMajor LowerTriangular 2)
       (if FirstTriangular ColMajor LowerTriangular
        then bound ColMajor LowerTriangular 2 else 2%Z) 1 = Z.to_nat 2
  /\ (forall rhs r,
        blocked_columns (simd_platform 2) ColMajor LowerTriangular true true
          2 [(1, 0); (0, 1); (9, 9); (2, 0)]%Z 2 rhs 1 (1, 2)%Z r = Some r)
  /\ exists res',
       ei_product_selfadjoint_vector (simd_platform 2) ColMajor
         LowerTriangular true true 2 [(1, 0); (0, 1); (9, 9); (2, 0)]%Z 2
         [(1, 1); (7, 7); (0, 2)]%Z 2 1 [(5, 6); (7, 8)]%Z (1, 2)%Z
       = Some (res', scratch_events 2 2)
       /\ length res' = length [(5, 6); (7, 8)]%Z
       /\ (real_diagonal ColMajor 2 [(1, 0); (0, 1); (9, 9); (2, 0)]%Z 2 ->
           forall i, (0 <= i < 2)%Z ->
             gt res' i
             = gt [(5, 6); (7, 8)]%Z i
               + (1, 2)%Z * dense_row 2
                              (fun r c => cj true
                                 (logical_entry ColMajor LowerTriangular
                                    [(1, 0); (0, 1); (9, 9); (2, 0)]%Z 2
                                    r c))
                              (fun j => cj true
                                          (gt [(1, 1); (7, 7); (0, 2)]%Z
                                             (j * 2)%Z)) i).
Proof.
  apply (boundary_sizes (simd_platform 2) ColMajor LowerTriangular true true
           2 [(1, 0); (0, 1); (9, 9); (2, 0)]%Z 2
           [(1, 1); (7, 7); (0, 2)]%Z 2 1 [(5, 6); (7, 8)]%Z (1, 2)%Z).
  - cbn. tauto.
  - split; [lia|]. split; [|split].
    + intros r c Hr Hc Ht. cbn in *. lia.
    + intros i Hi. cbn. lia.
    + cbn. lia.
Defined.

(** C5 as stated fails where C1 does: at [size = 2], on the Hermitian matrix
    [[1, -i], [i, 2]] (lower stored, real diagonal) with [ConjugateLhs], the
    kernel adds [conj(A) * x = [1 + i, 2 - i]], not the dense reference
    [A * x = [1 - i, 2 + i]]. *)
Lemma boundary_sizes_counterexample :
  In 2%Z [0; 1; 2; 3; 7; 8; 9]%Z
  /\ valid_call ColMajor LowerTriangular 2
       [(1, 0); (0, 1); (9, 9); (2, 0)]%Z 2 [(1, 0); (1, 0)]%Z 1
       [(0, 0); (0, 0)]%Z
  /\ real_diagonal ColMajor 2 [(1, 0); (0, 1); (9, 9); (2, 0)]%Z 2
  /\ exists res',
       ei_product_selfadjoint_vector scalar_platform ColMajor LowerTriangular
         true false 2 [(1, 0); (0, 1); (9, 9); (2, 0)]%Z 2
         [(1, 0); (1, 0)]%Z 1 0 [(0, 0); (0, 0)]%Z (1, 0)%Z
       = Some (res', [])
       /\ res' = [(1, 1); (2, -1)]%Z
       /\ gt [(0, 0); (0, 0)]%Z 0
          + (1, 0)%Z * dense_row 2
                         (logical_entry ColMajor LowerTriangular
                            [(1, 0); (0, 1); (9, 9); (2, 0)]%Z 2)
                         (fun j => gt [(1, 0); (1, 0)]%Z (j * 1)%Z) 0
          = (1, -1)%Z
       /\ gt res' 0
          <> gt [(0, 0); (0, 0)]%Z 0
             + (1, 0)%Z * dense_row 2
                            (logical_entry ColMajor LowerTriangular
                               [(1, 0); (0, 1); (9, 9); (2, 0)]%Z 2)
                            (fun j => gt [(1, 0); (1, 0)]%Z (j * 1)%Z) 0.
Proof.
  split; [cbn; tauto|]. split; [|split].
  - split; [lia|]. split; [|split].
    + intros r c Hr Hc Ht. cbn in *. lia.
    + intros i Hi. cbn. lia.
    + cbn. lia.
  - intros i Hi. assert (Hc : (i = 0 \/ i = 1)%Z) by lia.
    destruct Hc as [-> | ->]; reflexivity.
  - exists [(1, 1); (2, -1)]%Z.
    split; [reflexivity|]. split; [reflexivity|]. split; [reflexivity|].
    vm_compute. discriminate.
Qed.

(** ** The strided operand *)






(** ** Conjugation and parametrization without the head

    When the head of the inner range agrees with the helpers, the flags act
    as a conjugation of the matrix and of the operand, and the four
    parametrizations of one selfadjoint matrix give the same result. *)

Lemma gt_map_fixed0 {Scalar : Type} {NT : NumTraits Scalar}
    (f : Scalar -> Scalar) (l : list Scalar) k :
  f szero = szero -> gt (map f l) k = f (gt l k).
Proof.
  intros Hf. unfold gt. rewrite <- (map_nth f l szero (Z.to_nat k)).
  rewrite Hf. reflexivity.
Qed.

Lemma logical_entry_map {Scalar : Type} {NT : NumTraits Scalar}
    b StorageOrder UpLo (lhs : list Scalar) lhsStride r c :
  logical_entry StorageOrder UpLo (map (cj b) lhs) lhsStride r c
  = cj b (logical_entry StorageOrder UpLo lhs lhsStride r c).
Proof.
  unfold logical_entry, entry. rewrite !gt_map_fixed0 by apply cj_zero.
  destruct (in_stored_triangleb UpLo r c); [reflexivity|].
  destruct b; reflexivity.
Qed.

Lemma logical_entry_selfadjoint {Scalar : Type} {NT : NumTraits Scalar}
    (H : Z -> Z -> Scalar) StorageOrder UpLo size lhs lhsStride :
  (forall r c, H c r = ei_conj (H r c)) ->
  (forall r c, (0 <= r < size)%Z -> (0 <= c < size)%Z ->
     in_stored_triangle UpLo r c ->
     entry StorageOrder lhs lhsStride r c = H r c) ->
  forall r c, (0 <= r < size)%Z -> (0 <= c < size)%Z ->
    logical_entry StorageOrder UpLo lhs lhsStride r c = H r c.
Proof.
  intros Hsa He r c Hr Hc. unfold logical_entry, in_stored_triangleb.
  destruct UpLo.
  - destruct (Z.leb_spec r c).
    + apply He; [assumption | assumption | cbn; lia].
    + rewrite He by (first [assumption | cbn; lia]). symmetry. apply Hsa.
  - destruct (Z.leb_spec c r).
    + apply He; [assumption | assumption | cbn; lia].
    + rewrite He by (first [assumption | cbn; lia]). symmetry. apply Hsa.
Qed.

Lemma conjugation_flags_without_head
    {Scalar : Type} {NT : NumTraits Scalar} (P : Platform)
    StorageOrder UpLo ConjugateLhs ConjugateRhs
    size (lhs : list Scalar) lhsStride _rhs rhsIncr res_addr res alpha :
  valid_call StorageOrder UpLo size lhs lhsStride _rhs rhsIncr res ->
  real_diagonal StorageOrder size lhs lhsStride ->
  head_agrees P StorageOrder UpLo ConjugateLhs ConjugateRhs size res_addr ->
  head_agrees P StorageOrder UpLo false false size res_addr ->
  exists flagged materialized,
    ei_product_selfadjoint_vector P StorageOrder UpLo ConjugateLhs
      ConjugateRhs size lhs lhsStride _rhs rhsIncr res_addr res alpha
    = Some (flagged, scratch_events size rhsIncr)
    /\ ei_product_selfadjoint_vector P StorageOrder UpLo false false size
         (map (cj ConjugateLhs) lhs) lhsStride (map (cj ConjugateRhs) _rhs)
         rhsIncr res_addr res alpha
       = Some (materialized, scratch_events size rhsIncr)
    /\ forall i, (0 <= i < size)%Z -> gt flagged i = gt materialized i.
Proof.
  intros Hv Hd Hh Hh0.
  destruct (kernel_reference P StorageOrder UpLo ConjugateLhs ConjugateRhs
              size lhs lhsStride _rhs rhsIncr res_addr res alpha Hv Hd
              Hh) as (r1 & E1 & _ & G1).
  assert (Hv' : valid_call StorageOrder UpLo size (map (cj ConjugateLhs) lhs)
                  lhsStride (map (cj ConjugateRhs) _rhs) rhsIncr res).
  { destruct Hv as (H1 & H2 & H3 & H4).
    split; [exact H1|]. split; [|split; [|exact H4]].
    - intros r c Hr Hc Ht. rewrite length_map. apply H2; assumption.
    - intros i Hi. rewrite length_map. apply H3; assumption. }
  assert (Hd' : real_diagonal StorageOrder size (map (cj ConjugateLhs) lhs)
                  lhsStride).
  { intros i Hi. unfold entry. rewrite gt_map_fixed0 by apply cj_zero.
    fold (entry StorageOrder lhs lhsStride i i).
    rewrite (cj_fixed _ _ (Hd i Hi)). apply Hd. exact Hi. }
  destruct (kernel_reference P StorageOrder UpLo false false size
              (map (cj ConjugateLhs) lhs) lhsStride
              (map (cj ConjugateRhs) _rhs) rhsIncr res_addr res alpha Hv' Hd'
              Hh0) as (r2 & E2 & _ & G2).
  exists r1, r2. split; [exact E1|]. split; [exact E2|].
  intros i Hi. rewrite G1, G2 by exact Hi. do 2 f_equal.
  unfold dense_row. apply zsum_ext. intros j _. cbn [cj].
  rewrite logical_entry_map, gt_map_fixed0 by apply cj_zero. reflexivity.
Qed.

Lemma parametrizations_agree_without_head
    {Scalar : Type} {NT : NumTraits Scalar} (P : Platform)
    (H : Z -> Z -> Scalar)
    StorageOrder UpLo StorageOrder' UpLo' ConjugateLhs ConjugateRhs
    size (lhs lhs' : list Scalar) lhsStride lhsStride' _rhs rhsIncr
    res_addr res alpha :
  (forall r c, H c r = ei_conj (H r c)) ->
  valid_call StorageOrder UpLo size lhs lhsStride _rhs rhsIncr res ->
  valid_call StorageOrder' UpLo' size lhs' lhsStride' _rhs rhsIncr res ->
  (forall r c, (0 <= r < size)%Z -> (0 <= c < size)%Z ->
     in_stored_triangle UpLo r c ->
     entry StorageOrder lhs lhsStride r c = H r c) ->
  (forall r c, (0 <= r < size)%Z -> (0 <= c < size)%Z ->
     in_stored_triangle UpLo' r c ->
     entry StorageOrder' lhs' lhsStride' r c = H r c) ->
  head_agrees P StorageOrder UpLo ConjugateLhs ConjugateRhs size res_addr ->
  head_agrees P StorageOrder' UpLo' ConjugateLhs ConjugateRhs size res_addr ->
  exists res1 res2,
    ei_product_selfadjoint_vector P StorageOrder UpLo ConjugateLhs
      ConjugateRhs size lhs lhsStride _rhs rhsIncr res_addr res alpha
    = Some (res1, scratch_events size rhsIncr)
    /\ ei_product_selfadjoint_vector P StorageOrder' UpLo' ConjugateLhs
         ConjugateRhs size lhs' lhsStride' _rhs rhsIncr res_addr res alpha
       = Some (res2, scratch_events size rhsIncr)
    /\ forall i, (0 <= i < size)%Z -> gt res1 i = gt res2 i.
Proof.
  intros Hsa Hv Hv' He He' Hh Hh'.
  assert (Hdiag : forall so ul (l : list Scalar) st,
            (forall r c, (0 <= r < size)%Z -> (0 <= c < size)%Z ->
               in_stored_triangle ul r c -> entry so l st r c = H r c) ->
            real_diagonal so size l st).
  { intros so ul l st Hl i Hi.
    rewrite Hl by (first [assumption | destruct ul; cbn; lia]).
    symmetry. apply Hsa. }
  destruct (kernel_reference P StorageOrder UpLo ConjugateLhs ConjugateRhs
              size lhs lhsStride _rhs rhsIncr res_addr res alpha Hv
              (Hdiag _ _ _ _ He) Hh) as (r1 & E1 & _ & G1).
  destruct (kernel_reference P StorageOrder' UpLo' ConjugateLhs ConjugateRhs
              size lhs' lhsStride' _rhs rhsIncr res_addr res alpha Hv'
              (Hdiag _ _ _ _ He') Hh') as (r2 & E2 & _ & G2).
  exists r1, r2. split; [exact E1|]. split; [exact E2|].
  intros i Hi. rewrite G1, G2 by exact Hi. do 2 f_equal.
  unfold dense_row. apply zsum_ext. intros j Hj.
  assert (Hj' : (0 <= j < size)%Z) by lia.
  rewrite (logical_entry_selfadjoint H StorageOrder UpLo size lhs lhsStride
             Hsa He i j Hi Hj').
  rewrite (logical_entry_selfadjoint H StorageOrder' UpLo' size lhs'
             lhsStride' Hsa He' i j Hi Hj').
  reflexivity.
Qed.

(** ** The head of the inner range on complex scalars *)

Lemma hermitian_sample_selfadjoint r c :
  hermitian_sample c r = ei_conj (hermitian_sample r c).
Proof. unfold hermitian_sample. cbn. unfold Cplx.conj. cbn. f_equal; lia. Qed.

(** C2 at the failing input: with the head running, [ConjugateRhs] on the
    operand and no flag on the conjugated operand differ, and so do
    [ConjugateLhs] on the matrix and no flag on the conjugated matrix; at an
    even address of [res], where the head runs no iteration, they agree. *)
Theorem conjugation_flags_head_divergence :
  ei_product_selfadjoint_vector (simd_platform 2) ColMajor UpperTriangular
    false true 10 (col_major_sample 10) 10 (operand_sample 10) 1 1
    (repeat szero 10) sone
  <> ei_product_selfadjoint_vector (simd_platform 2) ColMajor UpperTriangular
       false false 10 (col_major_sample 10) 10
       (map ei_conj (operand_sample 10)) 1 1 (repeat szero 10) sone
  /\ ei_product_selfadjoint_vector (simd_platform 2) ColMajor UpperTriangular
       true false 10 (col_major_sample 10) 10 (operand_sample 10) 1 1
       (repeat szero 10) sone
     <> ei_product_selfadjoint_vector (simd_platform 2) ColMajor
          UpperTriangular false false 10
          (map ei_conj (col_major_sample 10)) 10 (operand_sample 10) 1 1
          (repeat szero 10) sone
  /\ ei_product_selfadjoint_vector (simd_platform 2) ColMajor UpperTriangular
       false true 10 (col_major_sample 10) 10 (operand_sample 10) 1 0
       (repeat szero 10) sone
     = ei_product_selfadjoint_vector (simd_platform 2) ColMajor
         UpperTriangular false false 10 (col_major_sample 10) 10
         (map ei_conj (operand_sample 10)) 1 0 (repeat szero 10) sone
  /\ ei_product_selfadjoint_vector (simd_platform 2) ColMajor UpperTriangular
       true false 10 (col_major_sample 10) 10 (operand_sample 10) 1 0
       (repeat szero 10) sone
     = ei_product_selfadjoint_vector (simd_platform 2) ColMajor
         UpperTriangular false false 10
         (map ei_conj (col_major_sample 10)) 10 (operand_sample 10) 1 0
         (repeat szero 10) sone.
Proof.
  split; [|split; [|split]].
  - vm_compute. discriminate.
  - vm_compute. discriminate.
  - vm_compute. reflexivity.
  - vm_compute. reflexivity.
Qed.

(** C3 at the failing input: the same Hermitian matrix passed as (row-major,
    lower) and as (column-major, upper) gives two different results when the
    head runs; all four parametrizations agree at an even address of [res]. *)
Theorem parametrizations_head_divergence :
  ei_product_selfadjoint_vector (simd_platform 2) RowMajor LowerTriangular
    false false 10 (row_major_sample 10) 10 (operand_sample 10) 1 1
    (repeat szero 10) sone
  <> ei_product_selfadjoint_vector (simd_platform 2) ColMajor UpperTriangular
       false false 10 (col_major_sample 10) 10 (operand_sample 10) 1 1
       (repeat szero 10) sone
  /\ ei_product_selfadjoint_vector (simd_platform 2) RowMajor LowerTriangular
       false false 10 (row_major_sample 10) 10 (operand_sample 10) 1 0
       (repeat szero 10) sone
     = ei_product_selfadjoint_vector (simd_platform 2) ColMajor
         UpperTriangular false false 10 (col_major_sample 10) 10
         (operand_sample 10) 1 0 (repeat szero 10) sone
  /\ ei_product_selfadjoint_vector (simd_platform 2) RowMajor UpperTriangular
       false false 10 (row_major_sample 10) 10 (operand_sample 10) 1 0
       (repeat szero 10) sone
     = ei_product_selfadjoint_vector (simd_platform 2) ColMajor
         UpperTriangular false false 10 (col_major_sample 10) 10
         (operand_sample 10) 1 0 (repeat szero 10) sone
  /\ ei_product_selfadjoint_vector (simd_platform 2) ColMajor LowerTriangular
       false false 10 (col_major_sample 10) 10 (operand_sample 10) 1 0
       (repeat szero 10) sone
     = ei_product_selfadjoint_vector (simd_platform 2) ColMajor
         UpperTriangular false false 10 (col_major_sample 10) 10
         (operand_sample 10) 1 0 (repeat szero 10) sone.
Proof.
  split; [|split; [|split]].
  - vm_compute. discriminate.
  - vm_compute. reflexivity.
  - vm_compute. reflexivity.
  - vm_compute. reflexivity.
Qed.

(** ** The wrapper *)

(** C9, as the code has it.  When both assertions hold (matching dimensions,
    unit stride of the destination) the wrapper makes one kernel call and
    returns its result; the scale factor of the call is the product of the
    caller's scale and the two scalar factors of the operands, with no
    conjugation applied to it, and the conjugation flags are the
    [NeedToConjugate] of the operands.  When an assertion fails no call is
    made. *)
Theorem scaleAndAddTo_passes_product
    {Scalar : Type} {NT : NumTraits Scalar}
    (LhsUpLo : UpLoT) (m_lhs : LhsExpr Scalar) (m_rhs : RhsExpr Scalar)
    (dst : Dest Scalar) (alpha : Scalar) :
  match scaleAndAddTo_with (fun c => c) LhsUpLo m_lhs m_rhs dst alpha with
  | Some c =>
      dst_rows dst = lhs_rows m_lhs /\ dst_cols dst = rhs_cols m_rhs
      /\ dst_incr dst = 1%Z
      /\ k_alpha c
         = alpha * lhs_extractScalarFactor m_lhs
           * rhs_extractScalarFactor m_rhs
      /\ k_ConjugateLhs c = lhs_NeedToConjugate m_lhs
      /\ k_ConjugateRhs c = rhs_NeedToConjugate m_rhs
      /\ k_size c = actual_lhs_rows m_lhs
      /\ k_rhsIncr c = actual_rhs_incr m_rhs
      /\ k_res c = dst_coeffs dst
  | None =>
      ~ (dst_rows dst = lhs_rows m_lhs /\ dst_cols dst = rhs_cols m_rhs
         /\ dst_incr dst = 1%Z)
  end
  /\ forall (R : Type) (kernel : kernel_call Scalar -> R),
       scaleAndAddTo_with kernel LhsUpLo m_lhs m_rhs dst alpha
       = option_map kernel
           (scaleAndAddTo_with (fun c => c) LhsUpLo m_lhs m_rhs dst alpha).
Proof.
  unfold scaleAndAddTo_with.
  destruct (Z.eqb_spec (dst_rows dst) (lhs_rows m_lhs));
    destruct (Z.eqb_spec (dst_cols dst) (rhs_cols m_rhs));
    destruct (Z.eqb_spec (dst_incr dst) 1); cbn [andb option_map];
    (split; [|reflexivity]); tauto.
Qed.

(** C9 as stated fails when the vector side is flagged: with
    [NeedToConjugate] set on the right operand, [alpha = 1 + i] and the
    scalar factors [2 + i] and [i], the scale factor passed is the plain
    product [-3 + i]; it is none of the products in which the whole, the
    operand's factor or the caller's scale is conjugated. *)
Lemma scaleAndAddTo_passes_product_counterexample :
  let m_lhs := {| lhs_rows := 1; actual_lhs_rows := 1;
                  actual_lhs_order := ColMajor;
                  actual_lhs_coeffs := [(1, 0)%Z]; actual_lhs_stride := 1;
                  lhs_extractScalarFactor := (2, 1)%Z;
                  lhs_NeedToConjugate := false |} in
  let m_rhs := {| rhs_cols := 1; actual_rhs_coeffs := [(1, 0)%Z];
                  actual_rhs_incr := 1;
                  rhs_extractScalarFactor := (0, 1)%Z;
                  rhs_NeedToConjugate := true |} in
  let dst := {| dst_rows := 1; dst_cols := 1; dst_addr := 0;
                dst_coeffs := [(0, 0)%Z]; dst_incr := 1 |} in
  let alpha := (1, 1)%Z in
  exists passed,
    scaleAndAddTo_with k_alpha LowerTriangular m_lhs m_rhs dst alpha
    = Some passed
    /\ passed = (-3, 1)%Z
    /\ passed
       <> ei_conj (alpha * lhs_extractScalarFactor m_lhs
                   * rhs_extractScalarFactor m_rhs)
    /\ passed
       <> alpha * lhs_extractScalarFactor m_lhs
          * ei_conj (rhs_extractScalarFactor m_rhs)
    /\ passed
       <> ei_conj alpha * lhs_extractScalarFactor m_lhs
          * rhs_extractScalarFactor m_rhs.
Proof.
  cbv zeta. exists (-3, 1)%Z.
  split; [reflexivity|]. split; [reflexivity|].
  split; [|split]; vm_compute; discriminate.
Qed.

(** * Further properties of the kernel and of the wrapper *)

Section MoreKernelFacts.

Context {Scalar : Type} {NT : NumTraits Scalar}.
Variable P : Platform.

Local Notation "0" := szero : scalar_scope.

Add Ring scalar_ring_more : (@scalar_ring Scalar NT).

Variables (StorageOrder : StorageOrderT) (UpLo : UpLoT).
Variables (ConjugateLhs ConjugateRhs : bool).
Variables (size : Z) (lhs : list Scalar) (lhsStride : Z).
Variables (rhs : list Scalar) (res_addr : Z).

(** ** No cell of [res] from [size] on is written *)




(** ** The scale factor is additive *)

Lemma tcol_add a b c :
  tcol ConjugateRhs rhs (a + b) c
  = tcol ConjugateRhs rhs a c + tcol ConjugateRhs rhs b c.
Proof.
  unfold tcol, cjAlpha. destruct ConjugateRhs; [rewrite ei_conj_add|]; ring.
Qed.

Lemma pmul_add_r h x a b : pmul h x (a + b) = pmul h x a + pmul h x b.
Proof.
  unfold pmul, cj. destruct (ConjRhs h); [rewrite ei_conj_add|]; ring.
Qed.

Lemma col_delta_add a b c k :
  col_delta StorageOrder UpLo ConjugateLhs ConjugateRhs size lhs lhsStride
    rhs (a + b) c k
  = col_delta StorageOrder UpLo ConjugateLhs ConjugateRhs size lhs lhsStride
      rhs a c k
    + col_delta StorageOrder UpLo ConjugateLhs ConjugateRhs size lhs lhsStride
        rhs b c k.
Proof.
  unfold col_delta, single, on_range. rewrite tcol_add, !pmul_add_r.
  destruct (k =? c)%Z; destruct (_ && _); ring.
Qed.

Lemma pair_delta_add a b j k :
  pair_delta P StorageOrder UpLo ConjugateLhs ConjugateRhs size lhs lhsStride
    rhs res_addr (a + b) j k
  = pair_delta P StorageOrder UpLo ConjugateLhs ConjugateRhs size lhs
      lhsStride rhs res_addr a j k
    + pair_delta P StorageOrder UpLo ConjugateLhs ConjugateRhs size lhs
        lhsStride rhs res_addr b j k.
Proof.
  unfold pair_delta, pair_diag0, pair_diag1, single, on_range, dir2.
  rewrite !tcol_add, !pmul_add_r.
  repeat match goal with
         | |- context [if ?c then _ else _] => destruct c
         end; ring.
Qed.

Lemma kernel_delta_add a b k :
  kernel_delta P StorageOrder UpLo ConjugateLhs ConjugateRhs size lhs
    lhsStride rhs res_addr (a + b) k
  = kernel_delta P StorageOrder UpLo ConjugateLhs ConjugateRhs size lhs
      lhsStride rhs res_addr a k
    + kernel_delta P StorageOrder UpLo ConjugateLhs ConjugateRhs size lhs
        lhsStride rhs res_addr b k.
Proof.
  unfold kernel_delta, blocked_delta, remaining_delta.
  match goal with
  | |- zsum ?n ?lo _ + zsum ?n' ?lo' _
       = (zsum _ _ ?f1 + zsum _ _ ?g1) + (zsum _ _ ?f2 + zsum _ _ ?g2) =>
      transitivity (zsum n lo (fun m => f1 m + f2 m)
                    + zsum n' lo' (fun c => g1 c + g2 c))
  end.
  - f_equal; apply zsum_ext; intros.
    + apply pair_delta_add.
    + apply col_delta_add.
  - rewrite !zsum_add. ring.
Qed.

End MoreKernelFacts.

(** Validity of a call on concrete buffers. *)
Ltac concrete_valid_call :=
  split; [lia|]; split; [|split];
  [ intros r c Hr Hc Ht; cbn in *; lia
  | intros i Hi; cbn; lia
  | cbn; lia ].

(** ** What the kernel writes *)



(** X2.  On a scalar type with exact arithmetic, the kernel adds to what the
    accumulator holds: the result on any initial accumulator is, cell by
    cell, the initial contents plus the result of the same call on a zeroed
    accumulator of the same length.  The rounded arithmetic of [double] is
    outside the statement. *)
Theorem adds_to_initial_contents
    {Scalar : Type} {NT : NumTraits Scalar} (P : Platform)
    (StorageOrder : StorageOrderT) (UpLo : UpLoT)
    (ConjugateLhs ConjugateRhs : bool)
    (size : Z) (lhs : list Scalar) (lhsStride : Z)
    (_rhs : list Scalar) (rhsIncr res_addr : Z)
    (res : list Scalar) (alpha : Scalar) :
  valid_call StorageOrder UpLo size lhs lhsStride _rhs rhsIncr res ->
  exists res' from_zero,
    ei_product_selfadjoint_vector P StorageOrder UpLo ConjugateLhs
      ConjugateRhs size lhs lhsStride _rhs rhsIncr res_addr res alpha
    = Some (res', scratch_events size rhsIncr)
    /\ ei_product_selfadjoint_vector P StorageOrder UpLo ConjugateLhs
         ConjugateRhs size lhs lhsStride _rhs rhsIncr res_addr
         (repeat szero (length res)) alpha
       = Some (from_zero, scratch_events size rhsIncr)
    /\ length res' = length res /\ length from_zero = length res
    /\ forall i, (0 <= i < Z.of_nat (length res))%Z ->
         gt res' i = gt res i + gt from_zero i.
Proof.
  intros Hv.
  destruct (kernel_Upd P StorageOrder UpLo ConjugateLhs ConjugateRhs size lhs
              lhsStride _rhs rhsIncr res_addr res alpha Hv)
    as (r1 & E1 & L1 & U1).
  assert (Hv0 : valid_call StorageOrder UpLo size lhs lhsStride _rhs rhsIncr
                  (repeat szero (length res))).
  { destruct Hv as (H1 & H2 & H3 & H4).
    rewrite <- (repeat_length szero (length res)) in H4.
    exact (conj H1 (conj H2 (conj H3 H4))). }
  destruct (kernel_Upd P StorageOrder UpLo ConjugateLhs ConjugateRhs size lhs
              lhsStride _rhs rhsIncr res_addr (repeat szero (length res))
              alpha Hv0)
    as (r0 & E0 & L0 & U0).
  rewrite repeat_length in L0, U0.
  exists r1, r0. split; [exact E1|]. split; [exact E0|].
  split; [exact L1|]. split; [exact L0|].
  intros i Hi. rewrite U1, U0 by exact Hi. rewrite gt_repeat_zero.
  pose proof (scalar_ring (Scalar := Scalar)) as R.
  rewrite (Radd_0_l R). reflexivity.
Qed.

Lemma adds_to_initial_contents_witness :
  exists res' from_zero,
    ei_product_selfadjoint_vector (simd_platform 4) RowMajor LowerTriangular
      false false 3 [2; 99; 99; 1; 3; 99; 0; 1; 4]%Z 3 [1; 1; 1]%Z 1 0
      [10; 20; 30; 40; 50]%Z 1%Z
    = Some (res', scratch_events 3 1)
    /\ ei_product_selfadjoint_vector (simd_platform 4) RowMajor
         LowerTriangular false false 3 [2; 99; 99; 1; 3; 99; 0; 1; 4]%Z 3
         [1; 1; 1]%Z 1 0 (repeat szero (length [10; 20; 30; 40; 50]%Z)) 1%Z
       = Some (from_zero, scratch_events 3 1)
    /\ length res' = length [10; 20; 30; 40; 50]%Z
    /\ length from_zero = length [10; 20; 30; 40; 50]%Z
    /\ forall i, (0 <= i < Z.of_nat (length [10; 20; 30; 40; 50]%Z))%Z ->
         gt res' i = gt [10; 20; 30; 40; 50]%Z i + gt from_zero i.
Proof.
  apply (adds_to_initial_contents (simd_platform 4) RowMajor LowerTriangular
           false false 3 [2; 99; 99; 1; 3; 99; 0; 1; 4]%Z 3 [1; 1; 1]%Z 1 0
           [10; 20; 30; 40; 50]%Z 1%Z).
  concrete_valid_call.
Defined.

(** ** How calls compose *)

(** X3.  On a scalar type with exact arithmetic, two calls on the same
    accumulator commute: whatever the two matrices, operands, scale factors,
    sizes and flags, running the first call and then the second gives the
    accumulator that running the second and then the first gives.  The
    rounded arithmetic of [double] is outside the statement. *)
Theorem calls_commute
    {Scalar : Type} {NT : NumTraits Scalar} (P : Platform)
    (StorageOrder StorageOrder' : StorageOrderT) (UpLo UpLo' : UpLoT)
    (ConjugateLhs ConjugateRhs ConjugateLhs' ConjugateRhs' : bool)
    (size size' : Z) (lhs lhs' : list Scalar) (lhsStride lhsStride' : Z)
    (_rhs _rhs' : list Scalar) (rhsIncr rhsIncr' res_addr : Z)
    (res : list Scalar) (alpha alpha' : Scalar) :
  valid_call StorageOrder UpLo size lhs lhsStride _rhs rhsIncr res ->
  valid_call StorageOrder' UpLo' size' lhs' lhsStride' _rhs' rhsIncr' res ->
  exists first second both,
    ei_product_selfadjoint_vector P StorageOrder UpLo ConjugateLhs
      ConjugateRhs size lhs lhsStride _rhs rhsIncr res_addr res alpha
    = Some (first, scratch_events size rhsIncr)
    /\ ei_product_selfadjoint_vector P StorageOrder' UpLo' ConjugateLhs'
         ConjugateRhs' size' lhs' lhsStride' _rhs' rhsIncr' res_addr first
         alpha'
       = Some (both, scratch_events size' rhsIncr')
    /\ ei_product_selfadjoint_vector P StorageOrder' UpLo' ConjugateLhs'
         ConjugateRhs' size' lhs' lhsStride' _rhs' rhsIncr' res_addr res
         alpha'
       = Some (second, scratch_events size' rhsIncr')
    /\ ei_product_selfadjoint_vector P StorageOrder UpLo ConjugateLhs
         ConjugateRhs size lhs lhsStride _rhs rhsIncr res_addr second alpha
       = Some (both, scratch_events size rhsIncr).
Proof.
  intros Hv Hv'.
  assert (Hre : forall so ul sz (l : list Scalar) st r inc (a b : list Scalar),
            length b = length a ->
            valid_call so ul sz l st r inc a -> valid_call so ul sz l st r inc b).
  { intros so ul sz l st r inc a b Hab (H1 & H2 & H3 & H4).
    rewrite <- Hab in H4. exact (conj H1 (conj H2 (conj H3 H4))). }
  destruct (kernel_Upd P StorageOrder UpLo ConjugateLhs ConjugateRhs size lhs
              lhsStride _rhs rhsIncr res_addr res alpha Hv)
    as (r1 & E1 & L1 & U1).
  destruct (kernel_Upd P StorageOrder' UpLo' ConjugateLhs' ConjugateRhs' size'
              lhs' lhsStride' _rhs' rhsIncr' res_addr r1 alpha'
              (Hre _ _ _ _ _ _ _ _ _ L1 Hv'))
    as (r12 & E12 & L12 & U12).
  destruct (kernel_Upd P StorageOrder' UpLo' ConjugateLhs' ConjugateRhs' size'
              lhs' lhsStride' _rhs' rhsIncr' res_addr res alpha' Hv')
    as (r2 & E2 & L2 & U2).
  destruct (kernel_Upd P StorageOrder UpLo ConjugateLhs ConjugateRhs size lhs
              lhsStride _rhs rhsIncr res_addr r2 alpha
              (Hre _ _ _ _ _ _ _ _ _ L2 Hv))
    as (r21 & E21 & L21 & U21).
  exists r1, r2, r12. split; [exact E1|]. split; [exact E12|].
  split; [exact E2|]. rewrite E21. do 2 f_equal.
  apply list_ext_gt; [congruence|].
  intros k Hk.
  rewrite U21, U2, U12, U1 by (first [lia | rewrite L1; lia | rewrite L2; lia]).
  pose proof (scalar_ring (Scalar := Scalar)) as R.
  rewrite <- !(Radd_assoc R). f_equal. apply (Radd_comm R).
Qed.

Lemma calls_commute_witness :
  exists first second both,
    ei_product_selfadjoint_vector (simd_platform 4) RowMajor LowerTriangular
      false false 3 [2; 99; 99; 1; 3; 99; 0; 1; 4]%Z 3 [1; 1; 1]%Z 1 0
      [10; 20; 30]%Z 1%Z
    = Some (first, scratch_events 3 1)
    /\ ei_product_selfadjoint_vector (simd_platform 4) ColMajor
         LowerTriangular false false 2 [5; 6; 99; 7]%Z 2 [1; 8; 2]%Z 2 0
         first 3%Z
       = Some (both, scratch_events 2 2)
    /\ ei_product_selfadjoint_vector (simd_platform 4) ColMajor
         LowerTriangular false false 2 [5; 6; 99; 7]%Z 2 [1; 8; 2]%Z 2 0
         [10; 20; 30]%Z 3%Z
       = Some (second, scratch_events 2 2)
    /\ ei_product_selfadjoint_vector (simd_platform 4) RowMajor
         LowerTriangular false false 3 [2; 99; 99; 1; 3; 99; 0; 1; 4]%Z 3
         [1; 1; 1]%Z 1 0 second 1%Z
       = Some (both, scratch_events 3 1).
Proof.
  apply (calls_commute (simd_platform 4) RowMajor ColMajor LowerTriangular
           LowerTriangular false false false false 3 2
           [2; 99; 99; 1; 3; 99; 0; 1; 4]%Z [5; 6; 99; 7]%Z 3 2
           [1; 1; 1]%Z [1; 8; 2]%Z 1 2 0 [10; 20; 30]%Z 1%Z 3%Z).
  - concrete_valid_call.
  - concrete_valid_call.
Defined.

(** X4.  On a scalar type with exact arithmetic, the scale factor is
    additive: a call with [alpha] followed by a call with [beta] on the same
    matrix and operand gives the accumulator of one call with
    [alpha + beta], on every target and for every flag setting.  The
    rounded arithmetic of [double] is outside the statement. *)
Theorem scale_factors_add_up
    {Scalar : Type} {NT : NumTraits Scalar} (P : Platform)
    (StorageOrder : StorageOrderT) (UpLo : UpLoT)
    (ConjugateLhs ConjugateRhs : bool)
    (size : Z) (lhs : list Scalar) (lhsStride : Z)
    (_rhs : list Scalar) (rhsIncr res_addr : Z)
    (res : list Scalar) (alpha beta : Scalar) :
  valid_call StorageOrder UpLo size lhs lhsStride _rhs rhsIncr res ->
  exists first both,
    ei_product_selfadjoint_vector P StorageOrder UpLo ConjugateLhs
      ConjugateRhs size lhs lhsStride _rhs rhsIncr res_addr res alpha
    = Some (first, scratch_events size rhsIncr)
    /\ ei_product_selfadjoint_vector P StorageOrder UpLo ConjugateLhs
         ConjugateRhs size lhs lhsStride _rhs rhsIncr res_addr first beta
       = Some (both, scratch_events size rhsIncr)
    /\ ei_product_selfadjoint_vector P StorageOrder UpLo ConjugateLhs
         ConjugateRhs size lhs lhsStride _rhs rhsIncr res_addr res
         (alpha + beta)
       = Some (both, scratch_events size rhsIncr).
Proof.
  intros Hv.
  destruct (kernel_Upd P StorageOrder UpLo ConjugateLhs ConjugateRhs size lhs
              lhsStride _rhs rhsIncr res_addr res alpha Hv)
    as (r1 & E1 & L1 & U1).
  assert (Hv1 : valid_call StorageOrder UpLo size lhs lhsStride _rhs rhsIncr
                  r1).
  { destruct Hv as (H1 & H2 & H3 & H4).
    rewrite <- L1 in H4. exact (conj H1 (conj H2 (conj H3 H4))). }
  destruct (kernel_Upd P StorageOrder UpLo ConjugateLhs ConjugateRhs size lhs
              lhsStride _rhs rhsIncr res_addr r1 beta Hv1)
    as (r2 & E2 & L2 & U2).
  destruct (kernel_Upd P StorageOrder UpLo ConjugateLhs ConjugateRhs size lhs
              lhsStride _rhs rhsIncr res_addr res (alpha + beta) Hv)
    as (r3 & E3 & L3 & U3).
  exists r1, r2. split; [exact E1|]. split; [exact E2|].
  rewrite E3. do 2 f_equal.
  apply list_ext_gt; [congruence|].
  intros k Hk.
  rewrite U3, U2, U1 by (first [lia | rewrite L1; lia]).
  rewrite kernel_delta_add.
  pose proof (scalar_ring (Scalar := Scalar)) as R.
  apply (Radd_assoc R).
Qed.

Lemma scale_factors_add_up_witness :
  exists first both,
    ei_product_selfadjoint_vector (simd_platform 2) ColMajor UpperTriangular
      true true 2 [(1, 0); (9, 9); (2, 3); (4, 0)]%Z 2
      [(1, 1); (7, 7); (0, 2)]%Z 2 1 [(5, 6); (7, 8)]%Z (1, 2)%Z
    = Some (first, scratch_events 2 2)
    /\ ei_product_selfadjoint_vector (simd_platform 2) ColMajor
         UpperTriangular true true 2 [(1, 0); (9, 9); (2, 3); (4, 0)]%Z 2
         [(1, 1); (7, 7); (0, 2)]%Z 2 1 first (3, -1)%Z
       = Some (both, scratch_events 2 2)
    /\ ei_product_selfadjoint_vector (simd_platform 2) ColMajor
         UpperTriangular true true 2 [(1, 0); (9, 9); (2, 3); (4, 0)]%Z 2
         [(1, 1); (7, 7); (0, 2)]%Z 2 1 [(5, 6); (7, 8)]%Z
         ((1, 2)%Z + (3, -1)%Z)
       = Some (both, scratch_events 2 2).
Proof.
  apply (scale_factors_add_up (simd_platform 2) ColMajor UpperTriangular
           true true 2 [(1, 0); (9, 9); (2, 3); (4, 0)]%Z 2
           [(1, 1); (7, 7); (0, 2)]%Z 2 1 [(5, 6); (7, 8)]%Z (1, 2)%Z
           (3, -1)%Z).
  concrete_valid_call.
Defined.

(** ** Blocking and vectorization *)

(** X5.  On a scalar type with exact arithmetic, when the head of the
    inner range agrees with the helpers in both calls (real scalars, the
    flags the head is written for, or no iteration of the head), the result
    does not depend on the packet size, on the alignment of [res] or on the
    split of the inner range: two targets and two addresses of [res] give
    the same accumulator. *)
Theorem result_independent_of_target
    {Scalar : Type} {NT : NumTraits Scalar} (P P' : Platform)
    (StorageOrder : StorageOrderT) (UpLo : UpLoT)
    (ConjugateLhs ConjugateRhs : bool)
    (size : Z) (lhs : list Scalar) (lhsStride : Z)
    (_rhs : list Scalar) (rhsIncr res_addr res_addr' : Z)
    (res : list Scalar) (alpha : Scalar) :
  head_agrees P StorageOrder UpLo ConjugateLhs ConjugateRhs size res_addr ->
  head_agrees P' StorageOrder UpLo ConjugateLhs ConjugateRhs size res_addr' ->
  valid_call StorageOrder UpLo size lhs lhsStride _rhs rhsIncr res ->
  exists res',
    ei_product_selfadjoint_vector P StorageOrder UpLo ConjugateLhs
      ConjugateRhs size lhs lhsStride _rhs rhsIncr res_addr res alpha
    = Some (res', scratch_events size rhsIncr)
    /\ ei_product_selfadjoint_vector P' StorageOrder UpLo ConjugateLhs
         ConjugateRhs size lhs lhsStride _rhs rhsIncr res_addr' res alpha
       = Some (res', scratch_events size rhsIncr).
Proof.
  intros Hh Hh' Hv.
  destruct (kernel_Upd P StorageOrder UpLo ConjugateLhs ConjugateRhs size lhs
              lhsStride _rhs rhsIncr res_addr res alpha Hv)
    as (r1 & E1 & L1 & U1).
  destruct (kernel_Upd P' StorageOrder UpLo ConjugateLhs ConjugateRhs size lhs
              lhsStride _rhs rhsIncr res_addr' res alpha Hv)
    as (r2 & E2 & L2 & U2).
  exists r1. split; [exact E1|]. rewrite E2. do 2 f_equal.
  apply list_ext_gt; [congruence|].
  intros k Hk. rewrite U2, U1 by lia. f_equal.
  destruct Hv as (Hs & _).
  rewrite !kernel_delta_cols by assumption.
  reflexivity.
Qed.

(** The Hermitian 10x10 sample with both flags set: packets of two scalars
    with [res] at an even address, and no vectorization with [res] at an odd
    one. *)
Lemma result_independent_of_target_witness :
  exists res',
    ei_product_selfadjoint_vector (simd_platform 2) ColMajor UpperTriangular
      true true 10 (col_major_sample 10) 10 (operand_sample 10) 1 0
      (repeat szero 10) (2, 1)%Z
    = Some (res', scratch_events 10 1)
    /\ ei_product_selfadjoint_vector scalar_platform ColMajor
         UpperTriangular true true 10 (col_major_sample 10) 10
         (operand_sample 10) 1 1 (repeat szero 10) (2, 1)%Z
       = Some (res', scratch_events 10 1).
Proof.
  apply (result_independent_of_target (simd_platform 2) scalar_platform
           ColMajor UpperTriangular true true 10 (col_major_sample 10) 10
           (operand_sample 10) 1 0 1 (repeat szero 10) (2, 1)%Z).
  - apply head_agrees_aligned; reflexivity.
  - apply head_agrees_scalar_platform.
  - apply sample_valid_call. cbn. lia.
Defined.

(** ** Storage order and stored triangle *)



(** ** The blocking bound *)

Lemma bound0_exact size :
  (0 <= size < 2147483648)%Z ->
  bound0 size = (2 * (Z.max 0 (size - 8) / 2))%Z.
Proof.
  intros Hs. unfold bound0. set (x := Z.max 0 (size - 8)).
  assert (Hx : (0 <= x < 4294967296)%Z) by (unfold x; lia).
  change 4294967294%Z with (Z.land (Z.ones 32) (Z.lnot (Z.ones 1))).
  rewrite Z.land_assoc, Z.land_ones by lia.
  rewrite Z.mod_small by (change (2 ^ 32)%Z with 4294967296%Z; lia).
  rewrite <- Z.ldiff_land, Z.ldiff_ones_r by lia.
  rewrite Z.shiftl_mul_pow2, Z.shiftr_div_pow2 by lia.
  change (2 ^ 1)%Z with 2%Z. lia.
Qed.

(** X8.  For a size in the range of [int], the one-column loop runs over all
    the columns when [size <= 9] and over 8 columns (even size) or 9 columns
    (odd size) otherwise; the two-column loop runs over the other columns,
    two per iteration, and the two loops together run over [size] columns. *)
Theorem blocking_split (StorageOrder : StorageOrderT) (UpLo : UpLoT)
    (size : Z) :
  (0 <= size < 2147483648)%Z ->
  let single_columns :=
    if (size <=? 9)%Z then size else (8 + size mod 2)%Z in
  trip_count
    (if FirstTriangular StorageOrder UpLo
     then bound StorageOrder UpLo size else 0%Z)
    (if FirstTriangular StorageOrder UpLo
     then size else bound StorageOrder UpLo size) 2
  = Z.to_nat ((size - single_columns) / 2)
  /\ trip_count
       (if FirstTriangular StorageOrder UpLo
        then 0%Z else bound StorageOrder UpLo size)
       (if FirstTriangular StorageOrder UpLo
        then bound StorageOrder UpLo size else size) 1
     = Z.to_nat single_columns
  /\ (2 * ((size - single_columns) / 2) + single_columns)%Z = size.
Proof.
  intros Hs. cbv zeta.
  pose proof (bound0_exact size Hs) as Hb.
  set (q := (Z.max 0 (size - 8) / 2)%Z) in *.
  assert (Hq : (0 <= q)%Z) by (unfold q; apply Z.div_pos; lia).
  assert (Hr : (if (size <=? 9)%Z then size else (8 + size mod 2)%Z)
               = (size - 2 * q)%Z).
  { unfold q. destruct (Z.leb_spec size 9).
    - assert (Z.max 0 (size - 8) / 2 = 0)%Z
        by (apply Z.div_small; lia). lia.
    - rewrite Z.max_r by lia.
      pose proof (Z.div_mod (size - 8) 2 ltac:(lia)).
      pose proof (Z.div_mod size 2 ltac:(lia)).
      pose proof (Z.mod_pos_bound (size - 8) 2 ltac:(lia)).
      pose proof (Z.mod_pos_bound size 2 ltac:(lia)).
      lia. }
  rewrite Hr.
  replace ((size - (size - 2 * q)) / 2)%Z with q
    by (replace (size - (size - 2 * q))%Z with (q * 2)%Z by lia;
        rewrite Z.div_mul by lia; reflexivity).
  split; [|split; [|lia]].
  - unfold bound. rewrite Hb.
    destruct (FirstTriangular StorageOrder UpLo).
    + replace size with (size - 2 * q + 2 * q)%Z at 2 by lia.
      apply trip_count_exact; lia.
    + replace (2 * q)%Z with (0 + 2 * q)%Z by lia.
      apply trip_count_exact; lia.
  - rewrite trip_count_1. unfold bound. rewrite Hb.
    destruct (FirstTriangular StorageOrder UpLo); f_equal; lia.
Qed.

Lemma blocking_split_witness :
  let single_columns :=
    if (13 <=? 9)%Z then 13%Z else (8 + 13 mod 2)%Z in
  trip_count
    (if FirstTriangular RowMajor LowerTriangular
     then bound RowMajor LowerTriangular 13 else 0%Z)
    (if FirstTriangular RowMajor LowerTriangular
     then 13%Z else bound RowMajor LowerTriangular 13) 2
  = Z.to_nat ((13 - single_columns) / 2)
  /\ trip_count
       (if FirstTriangular RowMajor LowerTriangular
        then 0%Z else bound RowMajor LowerTriangular 13)
       (if FirstTriangular RowMajor LowerTriangular
        then bound RowMajor LowerTriangular 13 else 13%Z) 1
     = Z.to_nat single_columns
  /\ (2 * ((13 - single_columns) / 2) + single_columns)%Z = 13%Z.
Proof.
  apply (blocking_split RowMajor LowerTriangular 13). lia.
Defined.

(** ** The empty product *)


(** ** The operand cells that are read *)

Section OperandFacts.

Context {Scalar : Type} {NT : NumTraits Scalar}.
Variable P : Platform.

Variables (StorageOrder : StorageOrderT) (UpLo : UpLoT).
Variables (ConjugateLhs ConjugateRhs : bool).
Variables (size : Z) (lhs : list Scalar) (lhsStride : Z).
Variables (rhs rhs' : list Scalar) (res_addr : Z) (alpha : Scalar).

Hypothesis Hagree :
  forall i, (0 <= i < size)%Z -> gt rhs i = gt rhs' i.





End OperandFacts.



(** ** The product is additive in the operand *)

Section OperandSum.

Context {Scalar : Type} {NT : NumTraits Scalar}.
Variable P : Platform.

Add Ring scalar_ring_sum : (@scalar_ring Scalar NT).

Variables (StorageOrder : StorageOrderT) (UpLo : UpLoT).
Variables (ConjugateLhs ConjugateRhs : bool).
Variables (size : Z) (lhs : list Scalar) (lhsStride : Z).
Variables (x y xy : list Scalar) (res_addr : Z) (alpha : Scalar).

Hypothesis Hsum :
  forall i, (0 <= i < size)%Z -> gt xy i = gt x i + gt y i.

Lemma tcol_sum c :
  (0 <= c < size)%Z ->
  tcol ConjugateRhs xy alpha c
  = tcol ConjugateRhs x alpha c + tcol ConjugateRhs y alpha c.
Proof. intros Hc. unfold tcol. rewrite Hsum by assumption. ring. Qed.

Lemma col_sum_sum c :
  (0 <= c < size)%Z ->
  zsum (Z.to_nat (rng_hi StorageOrder UpLo size c - rng_lo StorageOrder UpLo c))
    (rng_lo StorageOrder UpLo c)
    (fun i => pmul (cj1 StorageOrder ConjugateLhs ConjugateRhs)
                (line lhs lhsStride c i) (gt xy i))
  = zsum (Z.to_nat (rng_hi StorageOrder UpLo size c
                    - rng_lo StorageOrder UpLo c))
      (rng_lo StorageOrder UpLo c)
      (fun i => pmul (cj1 StorageOrder ConjugateLhs ConjugateRhs)
                  (line lhs lhsStride c i) (gt x i))
    + zsum (Z.to_nat (rng_hi StorageOrder UpLo size c
                      - rng_lo StorageOrder UpLo c))
        (rng_lo StorageOrder UpLo c)
        (fun i => pmul (cj1 StorageOrder ConjugateLhs ConjugateRhs)
                    (line lhs lhsStride c i) (gt y i)).
Proof.
  intros Hc. rewrite <- zsum_add. apply zsum_ext. intros i Hi.
  rewrite Hsum; [apply pmul_add_r|].
  unfold rng_lo, rng_hi in Hi.
  destruct (FirstTriangular StorageOrder UpLo); lia.
Qed.

Lemma col_delta_sum c k :
  (0 <= c < size)%Z ->
  col_delta StorageOrder UpLo ConjugateLhs ConjugateRhs size lhs lhsStride
    xy alpha c k
  = col_delta StorageOrder UpLo ConjugateLhs ConjugateRhs size lhs lhsStride
      x alpha c k
    + col_delta StorageOrder UpLo ConjugateLhs ConjugateRhs size lhs
        lhsStride y alpha c k.
Proof.
  intros Hc. unfold col_delta.
  rewrite (col_sum_sum c Hc), (tcol_sum c Hc).
  unfold single, on_range. rewrite !pmul_add_r.
  destruct (k =? c)%Z; destruct (_ && _); ring.
Qed.

Lemma trn_sum_sum j c :
  (0 <= j)%Z -> (j + 1 < size)%Z ->
  zsum (Z.to_nat (endi StorageOrder UpLo size j - starti StorageOrder UpLo j))
    (starti StorageOrder UpLo j)
    (trn P StorageOrder UpLo ConjugateLhs ConjugateRhs size lhs lhsStride xy
       res_addr j c)
  = zsum (Z.to_nat (endi StorageOrder UpLo size j
                    - starti StorageOrder UpLo j))
      (starti StorageOrder UpLo j)
      (trn P StorageOrder UpLo ConjugateLhs ConjugateRhs size lhs lhsStride x
         res_addr j c)
    + zsum (Z.to_nat (endi StorageOrder UpLo size j
                      - starti StorageOrder UpLo j))
        (starti StorageOrder UpLo j)
        (trn P StorageOrder UpLo ConjugateLhs ConjugateRhs size lhs lhsStride
           y res_addr j c).
Proof.
  intros H0 H1. rewrite <- zsum_add. apply zsum_ext. intros i Hi.
  unfold trn. rewrite Hsum.
  - destruct (_ <? _)%Z; [ring | apply pmul_add_r].
  - unfold starti, endi in Hi.
    destruct (FirstTriangular StorageOrder UpLo); lia.
Qed.

Lemma pair_delta_sum j k :
  (0 <= j)%Z -> (j + 1 < size)%Z ->
  pair_delta P StorageOrder UpLo ConjugateLhs ConjugateRhs size lhs lhsStride
    xy res_addr alpha j k
  = pair_delta P StorageOrder UpLo ConjugateLhs ConjugateRhs size lhs
      lhsStride x res_addr alpha j k
    + pair_delta P StorageOrder UpLo ConjugateLhs ConjugateRhs size lhs
        lhsStride y res_addr alpha j k.
Proof.
  intros H0 H1. unfold pair_delta.
  rewrite !(trn_sum_sum j _ H0 H1).
  unfold pair_diag0, pair_diag1, pair_t2, pair_t3, single, on_range, dir2.
  rewrite (tcol_sum j), (tcol_sum (j + 1)) by lia.
  rewrite (Hsum j), (Hsum (j + 1)%Z) by lia.
  rewrite !pmul_add_r.
  repeat match goal with
         | |- context [if ?c then _ else _] => destruct c
         end; ring.
Qed.

Lemma kernel_delta_sum k :
  (0 <= size)%Z ->
  kernel_delta P StorageOrder UpLo ConjugateLhs ConjugateRhs size lhs
    lhsStride xy res_addr alpha k
  = kernel_delta P StorageOrder UpLo ConjugateLhs ConjugateRhs size lhs
      lhsStride x res_addr alpha k
    + kernel_delta P StorageOrder UpLo ConjugateLhs ConjugateRhs size lhs
        lhsStride y res_addr alpha k.
Proof.
  intros Hs. unfold kernel_delta, blocked_delta, remaining_delta.
  destruct (blocked_bounds StorageOrder UpLo size Hs) as (_ & Hlo & Hq & Hhi).
  pose proof (bound0_range size Hs) as Hb.
  match goal with
  | |- zsum ?n ?lo _ + zsum ?n' ?lo' _
       = (zsum _ _ ?f1 + zsum _ _ ?g1) + (zsum _ _ ?f2 + zsum _ _ ?g2) =>
      transitivity (zsum n lo (fun m => f1 m + f2 m)
                    + zsum n' lo' (fun c => g1 c + g2 c))
  end.
  - f_equal; apply zsum_ext.
    + intros m Hm. apply pair_delta_sum; lia.
    + intros c Hc. apply col_delta_sum.
      unfold remaining_lo, bound in *.
      destruct (FirstTriangular StorageOrder UpLo); lia.
  - rewrite !zsum_add. ring.
Qed.

End OperandSum.

(** X9.  On a scalar type with exact arithmetic, the product is additive in
    the operand: a call on [x] followed by a call on [y] gives the
    accumulator of one call on an operand that holds the sums [x[i] + y[i]]
    at its strided positions, on every target and for every flag setting.
    The rounded arithmetic of [double] is outside the statement. *)
Theorem operands_add_up
    {Scalar : Type} {NT : NumTraits Scalar} (P : Platform)
    (StorageOrder : StorageOrderT) (UpLo : UpLoT)
    (ConjugateLhs ConjugateRhs : bool)
    (size : Z) (lhs : list Scalar) (lhsStride : Z)
    (x y xy : list Scalar) (rhsIncr res_addr : Z)
    (res : list Scalar) (alpha : Scalar) :
  valid_call StorageOrder UpLo size lhs lhsStride x rhsIncr res ->
  rhs_fits size y rhsIncr -> rhs_fits size xy rhsIncr ->
  (forall i, (0 <= i < size)%Z ->
     gt xy (i * rhsIncr)%Z = gt x (i * rhsIncr)%Z + gt y (i * rhsIncr)%Z) ->
  exists first both,
    ei_product_selfadjoint_vector P StorageOrder UpLo ConjugateLhs
      ConjugateRhs size lhs lhsStride x rhsIncr res_addr res alpha
    = Some (first, scratch_events size rhsIncr)
    /\ ei_product_selfadjoint_vector P StorageOrder UpLo ConjugateLhs
         ConjugateRhs size lhs lhsStride y rhsIncr res_addr first alpha
       = Some (both, scratch_events size rhsIncr)
    /\ ei_product_selfadjoint_vector P StorageOrder UpLo ConjugateLhs
         ConjugateRhs size lhs lhsStride xy rhsIncr res_addr res alpha
       = Some (both, scratch_events size rhsIncr).
Proof.
  intros Hv Hy Hxy Hsum.
  destruct (kernel_Upd P StorageOrder UpLo ConjugateLhs ConjugateRhs size lhs
              lhsStride x rhsIncr res_addr res alpha Hv)
    as (r1 & E1 & L1 & U1).
  destruct Hv as (Hs & Hl & Hx & Hres).
  assert (Hv1 : valid_call StorageOrder UpLo size lhs lhsStride y rhsIncr r1).
  { rewrite <- L1 in Hres. exact (conj Hs (conj Hl (conj Hy Hres))). }
  assert (Hv3 : valid_call StorageOrder UpLo size lhs lhsStride xy rhsIncr
                  res)
    by exact (conj Hs (conj Hl (conj Hxy Hres))).
  destruct (kernel_Upd P StorageOrder UpLo ConjugateLhs ConjugateRhs size lhs
              lhsStride y rhsIncr res_addr r1 alpha Hv1)
    as (r2 & E2 & L2 & U2).
  destruct (kernel_Upd P StorageOrder UpLo ConjugateLhs ConjugateRhs size lhs
              lhsStride xy rhsIncr res_addr res alpha Hv3)
    as (r3 & E3 & L3 & U3).
  exists r1, r2. split; [exact E1|]. split; [exact E2|].
  rewrite E3. do 2 f_equal.
  apply list_ext_gt; [congruence|].
  intros k Hk.
  rewrite U3, U2, U1 by (first [lia | rewrite L1; lia]).
  rewrite (kernel_delta_sum P StorageOrder UpLo ConjugateLhs ConjugateRhs
             size lhs lhsStride (effective_rhs size x rhsIncr)
             (effective_rhs size y rhsIncr)
             (effective_rhs size xy rhsIncr)).
  - pose proof (scalar_ring (Scalar := Scalar)) as R.
    apply (Radd_assoc R).
  - intros i Hi. rewrite !gt_effective_rhs by exact Hi. apply Hsum. exact Hi.
  - exact Hs.
Qed.

Lemma operands_add_up_witness :
  exists first both,
    ei_product_selfadjoint_vector (simd_platform 2) ColMajor UpperTriangular
      true true 2 [(1, 0); (9, 9); (2, 3); (4, 0)]%Z 2
      [(1, 1); (7, 7); (0, 2)]%Z 2 1 [(5, 6); (7, 8)]%Z (1, 2)%Z
    = Some (first, scratch_events 2 2)
    /\ ei_product_selfadjoint_vector (simd_platform 2) ColMajor
         UpperTriangular true true 2 [(1, 0); (9, 9); (2, 3); (4, 0)]%Z 2
         [(2, -1); (8, 8); (3, 3)]%Z 2 1 first (1, 2)%Z
       = Some (both, scratch_events 2 2)
    /\ ei_product_selfadjoint_vector (simd_platform 2) ColMajor
         UpperTriangular true true 2 [(1, 0); (9, 9); (2, 3); (4, 0)]%Z 2
         [(3, 0); (0, 0); (3, 5)]%Z 2 1 [(5, 6); (7, 8)]%Z (1, 2)%Z
       = Some (both, scratch_events 2 2).
Proof.
  apply (operands_add_up (simd_platform 2) ColMajor UpperTriangular
           true true 2 [(1, 0); (9, 9); (2, 3); (4, 0)]%Z 2
           [(1, 1); (7, 7); (0, 2)]%Z [(2, -1); (8, 8); (3, 3)]%Z
           [(3, 0); (0, 0); (3, 5)]%Z 2 1 [(5, 6); (7, 8)]%Z (1, 2)%Z).
  - concrete_valid_call.
  - intros i Hi. cbn. lia.
  - intros i Hi. cbn. lia.
  - intros i Hi.
    assert (Hc : (i = 0 \/ i = 1)%Z) by lia.
    destruct Hc as [-> | ->]; reflexivity.
Defined.

(** ** The wrapper and the kernel together *)

Lemma kernel_zero_scale
    {Scalar : Type} {NT : NumTraits Scalar} (P : Platform)
    (StorageOrder : StorageOrderT) (UpLo : UpLoT)
    (ConjugateLhs ConjugateRhs : bool)
    (size : Z) (lhs : list Scalar) (lhsStride : Z)
    (_rhs : list Scalar) (rhsIncr res_addr : Z) (res : list Scalar) :
  valid_call StorageOrder UpLo size lhs lhsStride _rhs rhsIncr res ->
  ei_product_selfadjoint_vector P StorageOrder UpLo ConjugateLhs
    ConjugateRhs size lhs lhsStride _rhs rhsIncr res_addr res szero
  = Some (res, scratch_events size rhsIncr).
Proof.
  intros Hv.
  destruct (kernel_Upd P StorageOrder UpLo ConjugateLhs ConjugateRhs size lhs
              lhsStride _rhs rhsIncr res_addr res szero Hv)
    as (r1 & E1 & L1 & U1).
  rewrite E1. do 2 f_equal.
  apply list_ext_gt; [exact L1|].
  intros k Hk. rewrite U1 by (rewrite <- L1; exact Hk).
  rewrite kernel_delta_zero.
  pose proof (scalar_ring (Scalar := Scalar)) as R.
  rewrite (Radd_comm R), (Radd_0_l R). reflexivity.
Qed.

(** X10.  The wrapper and the kernel together, on a scalar type with exact
    arithmetic: when both assertions hold, the buffers of the operands make a
    valid call, the diagonal of the matrix is real and the head agrees with
    the helpers, [scaleAndAddTo] returns the destination with
    [alpha * lhsFactor * rhsFactor * (op(A) * op(x))[i]] added to
    [dst[i]] for every [i < size], where [op] conjugates an operand whose
    [NeedToConjugate] is set and [A] is the selfadjoint matrix of the stored
    triangle. *)
Theorem scaleAndAddTo_adds_scaled_product
    {Scalar : Type} {NT : NumTraits Scalar} (P : Platform)
    (LhsUpLo : UpLoT) (m_lhs : LhsExpr Scalar) (m_rhs : RhsExpr Scalar)
    (dst : Dest Scalar) (alpha : Scalar) :
  dst_rows dst = lhs_rows m_lhs -> dst_cols dst = rhs_cols m_rhs ->
  dst_incr dst = 1%Z ->
  valid_call (actual_lhs_order m_lhs) LhsUpLo (actual_lhs_rows m_lhs)
    (actual_lhs_coeffs m_lhs) (actual_lhs_stride m_lhs)
    (actual_rhs_coeffs m_rhs) (actual_rhs_incr m_rhs) (dst_coeffs dst) ->
  real_diagonal (actual_lhs_order m_lhs) (actual_lhs_rows m_lhs)
    (actual_lhs_coeffs m_lhs) (actual_lhs_stride m_lhs) ->
  head_agrees P (actual_lhs_order m_lhs) LhsUpLo (lhs_NeedToConjugate m_lhs)
    (rhs_NeedToConjugate m_rhs) (actual_lhs_rows m_lhs) (dst_addr dst) ->
  exists res',
    scaleAndAddTo P LhsUpLo m_lhs m_rhs dst alpha
    = Some (Some (res', scratch_events (actual_lhs_rows m_lhs)
                          (actual_rhs_incr m_rhs)))
    /\ length res' = length (dst_coeffs dst)
    /\ forall i, (0 <= i < actual_lhs_rows m_lhs)%Z ->
         gt res' i
         = gt (dst_coeffs dst) i
           + (alpha * lhs_extractScalarFactor m_lhs
              * rhs_extractScalarFactor m_rhs)
             * dense_row (actual_lhs_rows m_lhs)
                 (fun r c =>
                    cj (lhs_NeedToConjugate m_lhs)
                      (logical_entry (actual_lhs_order m_lhs) LhsUpLo
                         (actual_lhs_coeffs m_lhs) (actual_lhs_stride m_lhs)
                         r c))
                 (fun j =>
                    cj (rhs_NeedToConjugate m_rhs)
                      (gt (actual_rhs_coeffs m_rhs)
                         (j * actual_rhs_incr m_rhs)%Z))
                 i.
Proof.
  intros Hrows Hcols Hincr Hv Hd Hh.
  unfold scaleAndAddTo, scaleAndAddTo_with, run_kernel.
  rewrite Hrows, Hcols, Hincr, !Z.eqb_refl. cbn [andb].
  cbn [k_StorageOrder k_UpLo k_ConjugateLhs k_ConjugateRhs k_size k_lhs
       k_lhsStride k_rhs k_rhsIncr k_res_addr k_res k_alpha].
  destruct (kernel_reference P (actual_lhs_order m_lhs) LhsUpLo
              (lhs_NeedToConjugate m_lhs) (rhs_NeedToConjugate m_rhs)
              (actual_lhs_rows m_lhs) (actual_lhs_coeffs m_lhs)
              (actual_lhs_stride m_lhs) (actual_rhs_coeffs m_rhs)
              (actual_rhs_incr m_rhs) (dst_addr dst) (dst_coeffs dst)
              (alpha * lhs_extractScalarFactor m_lhs
               * rhs_extractScalarFactor m_rhs) Hv Hd Hh)
    as (res' & E & L & G).
  exists res'. rewrite E. split; [reflexivity|]. split; [exact L|exact G].
Qed.

(** The Hermitian 10x10 sample, both operands flagged as conjugated, with
    complex scalar factors, on packets of two scalars and an aligned
    destination. *)
Lemma scaleAndAddTo_adds_scaled_product_witness :
  exists res',
    scaleAndAddTo (simd_platform 2) UpperTriangular
      {| lhs_rows := 10; actual_lhs_rows := 10; actual_lhs_order := ColMajor;
         actual_lhs_coeffs := col_major_sample 10;
         actual_lhs_stride := 10; lhs_extractScalarFactor := (2, 1)%Z;
         lhs_NeedToConjugate := true |}
      {| rhs_cols := 1; actual_rhs_coeffs := operand_sample 10;
         actual_rhs_incr := 1; rhs_extractScalarFactor := (0, 1)%Z;
         rhs_NeedToConjugate := true |}
      {| dst_rows := 10; dst_cols := 1; dst_addr := 0;
         dst_coeffs := repeat szero 10; dst_incr := 1 |}
      (1, 1)%Z
    = Some (Some (res', scratch_events 10 1))
    /\ length res' = length (repeat (szero : Cplx.t) 10)
    /\ forall i, (0 <= i < 10)%Z ->
         gt res' i
         = gt (repeat szero 10) i
           + ((1, 1)%Z * (2, 1)%Z * (0, 1)%Z)
             * dense_row 10
                 (fun r c =>
                    cj true
                      (logical_entry ColMajor UpperTriangular
                         (col_major_sample 10) 10 r c))
                 (fun j => cj true (gt (operand_sample 10) (j * 1)%Z))
                 i.
Proof.
  apply (scaleAndAddTo_adds_scaled_product (simd_platform 2) UpperTriangular
      {| lhs_rows := 10; actual_lhs_rows := 10; actual_lhs_order := ColMajor;
         actual_lhs_coeffs := col_major_sample 10;
         actual_lhs_stride := 10; lhs_extractScalarFactor := (2, 1)%Z;
         lhs_NeedToConjugate := true |}
      {| rhs_cols := 1; actual_rhs_coeffs := operand_sample 10;
         actual_rhs_incr := 1; rhs_extractScalarFactor := (0, 1)%Z;
         rhs_NeedToConjugate := true |}
      {| dst_rows := 10; dst_cols := 1; dst_addr := 0;
         dst_coeffs := repeat szero 10; dst_incr := 1 |}
      (1, 1)%Z).
  - reflexivity.
  - reflexivity.
  - reflexivity.
  - apply sample_valid_call. cbn. lia.
  - exact sample_real_diagonal.
  - apply head_agrees_aligned; reflexivity.
Defined.

(** X12.  On a scalar type with exact arithmetic, when the product
    [alpha * lhsFactor * rhsFactor] is zero, both assertions hold and the
    buffers make a valid call, [scaleAndAddTo] returns the destination
    unchanged, for every matrix, operand, flag setting and target.  The
    kernel has no shortcut for a zero scale factor, and the rounded
    arithmetic of [double], where [0 * inf] is NaN, is outside the
    statement. *)
Theorem scaleAndAddTo_zero_factor
    {Scalar : Type} {NT : NumTraits Scalar} (P : Platform)
    (LhsUpLo : UpLoT) (m_lhs : LhsExpr Scalar) (m_rhs : RhsExpr Scalar)
    (dst : Dest Scalar) (alpha : Scalar) :
  dst_rows dst = lhs_rows m_lhs -> dst_cols dst = rhs_cols m_rhs ->
  dst_incr dst = 1%Z ->
  valid_call (actual_lhs_order m_lhs) LhsUpLo (actual_lhs_rows m_lhs)
    (actual_lhs_coeffs m_lhs) (actual_lhs_stride m_lhs)
    (actual_rhs_coeffs m_rhs) (actual_rhs_incr m_rhs) (dst_coeffs dst) ->
  alpha * lhs_extractScalarFactor m_lhs * rhs_extractScalarFactor m_rhs
  = szero ->
  scaleAndAddTo P LhsUpLo m_lhs m_rhs dst alpha
  = Some (Some (dst_coeffs dst,
                scratch_events (actual_lhs_rows m_lhs)
                  (actual_rhs_incr m_rhs))).
Proof.
  intros Hrows Hcols Hincr Hv Hz.
  unfold scaleAndAddTo, scaleAndAddTo_with, run_kernel.
  rewrite Hrows, Hcols, Hincr, !Z.eqb_refl. cbn [andb].
  cbn [k_StorageOrder k_UpLo k_ConjugateLhs k_ConjugateRhs k_size k_lhs
       k_lhsStride k_rhs k_rhsIncr k_res_addr k_res k_alpha].
  rewrite Hz. f_equal. apply kernel_zero_scale. exact Hv.
Qed.

Lemma scaleAndAddTo_zero_factor_witness :
  scaleAndAddTo (simd_platform 2) UpperTriangular
    {| lhs_rows := 2; actual_lhs_rows := 2; actual_lhs_order := ColMajor;
       actual_lhs_coeffs := [(1, 0); (9, 9); (2, 3); (4, 0)]%Z;
       actual_lhs_stride := 2; lhs_extractScalarFactor := szero;
       lhs_NeedToConjugate := true |}
    {| rhs_cols := 1; actual_rhs_coeffs := [(1, 1); (7, 7); (0, 2)]%Z;
       actual_rhs_incr := 2; rhs_extractScalarFactor := (0, 1)%Z;
       rhs_NeedToConjugate := true |}
    {| dst_rows := 2; dst_cols := 1; dst_addr := 1;
       dst_coeffs := [(5, 6); (7, 8)]%Z; dst_incr := 1 |}
    (1, 2)%Z
  = Some (Some ([(5, 6); (7, 8)]%Z, scratch_events 2 2)).
Proof.
  apply (scaleAndAddTo_zero_factor (simd_platform 2) UpperTriangular
    {| lhs_rows := 2; actual_lhs_rows := 2; actual_lhs_order := ColMajor;
       actual_lhs_coeffs := [(1, 0); (9, 9); (2, 3); (4, 0)]%Z;
       actual_lhs_stride := 2; lhs_extractScalarFactor := szero;
       lhs_NeedToConjugate := true |}
    {| rhs_cols := 1; actual_rhs_coeffs := [(1, 1); (7, 7); (0, 2)]%Z;
       actual_rhs_incr := 2; rhs_extractScalarFactor := (0, 1)%Z;
       rhs_NeedToConjugate := true |}
    {| dst_rows := 2; dst_cols := 1; dst_addr := 1;
       dst_coeffs := [(5, 6); (7, 8)]%Z; dst_incr := 1 |}
    (1, 2)%Z).
  - reflexivity.
  - reflexivity.
  - reflexivity.
  - cbv [actual_lhs_order actual_lhs_rows actual_lhs_coeffs actual_lhs_stride
         actual_rhs_coeffs actual_rhs_incr dst_coeffs].
    concrete_valid_call.
  - reflexivity.
Defined.

(** ** The packets of the inner range *)

Lemma simd_alignmentOffset_aligned (n : positive) ptr maxOffset :
  simd_alignmentOffset n ptr maxOffset = maxOffset
  \/ ((ptr + simd_alignmentOffset n ptr maxOffset) mod Z.pos n = 0)%Z.
Proof.
  unfold simd_alignmentOffset.
  destruct (Z.le_gt_cases maxOffset
              ((Z.pos n - ptr mod Z.pos n) mod Z.pos n)) as [Hle|Hgt].
  - left. lia.
  - right. rewrite Z.min_l by lia.
    rewrite Zplus_mod_idemp_r.
    replace (ptr + (Z.pos n - ptr mod Z.pos n))%Z
      with (ptr - ptr mod Z.pos n + 1 * Z.pos n)%Z by lia.
    rewrite Z_mod_plus_full.
    rewrite Zminus_mod_idemp_r, Z.sub_diag. apply Zmod_0_l.
Qed.

(** X13.  On a target whose [ei_alignmentOffset] returns either
    [maxOffset] or the distance to an aligned address, every iteration of the
    packet loop of a column pair is at an aligned address of [res], so the
    aligned load and store are legitimate, and its packet lies inside the
    inner range [starti, endi): it never covers the two diagonal cells. *)
Theorem packets_are_aligned_and_inside (P : Platform)
    (StorageOrder : StorageOrderT) (UpLo : UpLoT)
    (size res_addr j : Z) (m : nat) :
  (forall ptr maxOffset,
     ei_alignmentOffset P ptr maxOffset = maxOffset
     \/ ((ptr + ei_alignmentOffset P ptr maxOffset)
         mod Z.pos (PacketSize P) = 0)%Z) ->
  (0 <= j)%Z -> (j + 1 < size)%Z ->
  (m < trip_count (alignedStart P StorageOrder UpLo size res_addr j)
         (alignedEnd P StorageOrder UpLo size res_addr j)
         (Z.pos (PacketSize P)))%nat ->
  ((res_addr + (alignedStart P StorageOrder UpLo size res_addr j
                + Z.of_nat m * Z.pos (PacketSize P)))
   mod Z.pos (PacketSize P) = 0)%Z
  /\ (starti StorageOrder UpLo j
      <= alignedStart P StorageOrder UpLo size res_addr j
         + Z.of_nat m * Z.pos (PacketSize P))%Z
  /\ (alignedStart P StorageOrder UpLo size res_addr j
      + Z.of_nat m * Z.pos (PacketSize P) + Z.pos (PacketSize P)
      <= endi StorageOrder UpLo size j)%Z.
Proof.
  intros Hal H0 H1 Hm.
  pose proof (aStart_range P StorageOrder UpLo size res_addr j H0 H1) as Ha.
  destruct (aEnd_range P StorageOrder UpLo size res_addr j H0 H1)
    as (He & Hq & Eq).
  set (n := Z.pos (PacketSize P)) in *.
  set (aS := alignedStart P StorageOrder UpLo size res_addr j) in *.
  set (q := ((endi StorageOrder UpLo size j - aS) / n)%Z) in *.
  rewrite Eq in Hm. rewrite trip_count_exact in Hm by lia.
  assert (Hmq : (Z.of_nat m + 1 <= q)%Z) by lia.
  assert (Hn : (0 < n)%Z) by (unfold n; lia).
  assert (Hqn : (n * (Z.of_nat m + 1) <= n * q)%Z)
    by (apply Z.mul_le_mono_nonneg_l; lia).
  split; [|lia].
  destruct (Hal (res_addr + starti StorageOrder UpLo j)%Z
              (endi StorageOrder UpLo size j - starti StorageOrder UpLo j)%Z)
    as [Hmax|Hz].
  - exfalso.
    assert (aS = endi StorageOrder UpLo size j)
      by (unfold aS, alignedStart; lia).
    lia.
  - replace (res_addr + (aS + Z.of_nat m * n))%Z
      with (res_addr + starti StorageOrder UpLo j
            + ei_alignmentOffset P (res_addr + starti StorageOrder UpLo j)
                (endi StorageOrder UpLo size j - starti StorageOrder UpLo j)
            + Z.of_nat m * n)%Z
      by (unfold aS, alignedStart; lia).
    rewrite Z_mod_plus_full. exact Hz.
Qed.

Lemma packets_are_aligned_and_inside_witness :
  ((3 + (alignedStart (simd_platform 4) ColMajor LowerTriangular 20 3 0
         + Z.of_nat 1 * Z.pos (PacketSize (simd_platform 4))))
   mod Z.pos (PacketSize (simd_platform 4)) = 0)%Z
  /\ (starti ColMajor LowerTriangular 0
      <= alignedStart (simd_platform 4) ColMajor LowerTriangular 20 3 0
         + Z.of_nat 1 * Z.pos (PacketSize (simd_platform 4)))%Z
  /\ (alignedStart (simd_platform 4) ColMajor LowerTriangular 20 3 0
      + Z.of_nat 1 * Z.pos (PacketSize (simd_platform 4))
      + Z.pos (PacketSize (simd_platform 4))
      <= endi ColMajor LowerTriangular 20 0)%Z.
Proof.
  apply (packets_are_aligned_and_inside (simd_platform 4) ColMajor
           LowerTriangular 20 3 0 1).
  - intros ptr maxOffset. apply simd_alignmentOffset_aligned.
  - lia.
  - lia.
  - vm_compute. lia.
Defined.
